(** * Realtime speech-to-speech translation client: a shallow embedding

    The development follows [backend/realtime_simple.py] (the playback
    FIFO, the PCM conversion, the capture callback with its pre-buffer,
    the paced sender, the receiver, session open and the watchdog) and
    [backend/logger.py] (the secret-redaction filter).

    Conventions.
    - A Python [str] is a list of Unicode code points, [bytes] a list of
      [Byte.byte].
    - A float32 sample is a [spec_float] of precision 24; the operations
      are the IEEE ones of [SpecFloat].
    - Wall-clock readings ([time.time()]) and the durations computed
      from them are doubles, [spec_float]s of precision 53, with the
      IEEE operations of [SpecFloat]; a sleep of a whole number of
      seconds carries that number as a rational.
    - Every worker is a step function over its own locals and the shared
      translator object; what the outside world can see of a step
      (socket writes, sleeps, log lines, callbacks, playback enqueues) is
      returned as a list of [Effect]s, in program order.
    - What the environment decides (socket outcomes, arrivals, the clock)
      is an explicit argument of the step. *)

From Stdlib Require Import ZArith NArith QArith List Bool Lia.
From Stdlib Require Import Strings.String Strings.Ascii Strings.Byte.
From Stdlib Require Import Floats.SpecFloat.
Import ListNotations.

Close Scope Q_scope.
Open Scope Z_scope.

(* ===================================================================== *)
(** * Part I: definitions                                                 *)
(* ===================================================================== *)

(** ** Python strings *)

Module PyStr.

Definition char := N.
Definition str := list char.

(** A literal with ASCII characters only. *)
Definition lit (s : string) : str :=
  List.map N_of_ascii (list_ascii_of_string s).

(** [str.isspace] on one code point; the regular expression class [\s]
    of a [str] pattern is the same set. *)
Definition isspace (c : char) : bool :=
  ((9 <=? c) && (c <=? 13) || (28 <=? c) && (c <=? 32)
   || (c =? 133) || (c =? 160) || (c =? 5760)
   || (8192 <=? c) && (c <=? 8202)
   || (c =? 8232) || (c =? 8233) || (c =? 8239) || (c =? 8287)
   || (c =? 12288))%N.

Fixpoint lstrip (s : str) : str :=
  match s with
  | [] => []
  | c :: t => if isspace c then lstrip t else s
  end.

Definition rstrip (s : str) : str := rev (lstrip (rev s)).

(** [s.strip()] *)
Definition strip (s : str) : str := rstrip (lstrip s).

(** [sep.join(parts)] *)
Fixpoint join (sep : str) (parts : list str) : str :=
  match parts with
  | [] => []
  | [p] => p
  | p :: rest => p ++ sep ++ join sep rest
  end.

(** Truth value of a string in a condition. *)
Definition truthy (s : str) : bool :=
  match s with [] => false | _ :: _ => true end.

Fixpoint starts_with (p s : str) : bool :=
  match p, s with
  | [], _ => true
  | a :: p', b :: s' => (a =? b)%N && starts_with p' s'
  | _ :: _, [] => false
  end.

(** [needle in s] *)
Fixpoint contains (needle s : str) : bool :=
  starts_with needle s ||
  match s with
  | [] => false
  | _ :: t => contains needle t
  end.

Definition blank (s : str) : bool := forallb isspace s.

End PyStr.

(** ** float32 *)

Module Float32.

Definition float32 := spec_float.

Definition prec : Z := 24.
Definition emax : Z := 128.

(** [np.float32(z)] for an integer [z]. *)
Definition of_Z (z : Z) : float32 := binary_normalize prec emax z 0 false.

Definition div : float32 -> float32 -> float32 := SFdiv prec emax.

Definition zero : float32 := S754_zero false.

(** The rational a finite float denotes. *)
Definition to_Q (x : float32) : option Q :=
  match x with
  | S754_zero _ => Some (0 # 1)%Q
  | S754_finite s m e =>
      let n := if s then Zneg m else Zpos m in
      Some (match e with
            | Zneg p => (n # Pos.shiftl 1 (Npos p))%Q
            | _ => inject_Z (n * 2 ^ e)
            end)
  | S754_infinity _ | S754_nan => None
  end.

(** [x] denotes exactly the rational [z / d]. *)
Definition denotes (x : float32) (z : Z) (d : positive) : bool :=
  match to_Q x with
  | Some q => Qeq_bool q (z # d)%Q
  | None => false
  end.

End Float32.

(** ** binary64, for the places where the source computes a count from
       a float, and for the clock arithmetic of the sender *)

Module Float64.

Definition float := spec_float.
Definition prec : Z := 53.
Definition emax : Z := 1024.

Definition of_Z (z : Z) : float := binary_normalize prec emax z 0 false.
Definition mul : float -> float -> float := SFmul prec emax.
Definition div : float -> float -> float := SFdiv prec emax.

(** [x + y], [x - y] and [-x] on floats, round to nearest even. *)
Definition add : float -> float -> float := SFadd prec emax.
Definition sub : float -> float -> float := SFsub prec emax.
Definition opp : float -> float := SFopp.

(** [x < y]; false when either is a NaN. *)
Definition ltb : float -> float -> bool := SFltb.

Definition zero : float := S754_zero false.

(** A decimal literal [n / 10^k] is read as the nearest double. *)
Definition decimal (n : Z) (k : Z) : float := div (of_Z n) (of_Z (10 ^ k)).

(** The rational a finite double denotes. *)
Definition to_Q (x : float) : option Q :=
  match x with
  | S754_zero _ => Some (0 # 1)%Q
  | S754_finite s m e =>
      let n := if s then Zneg m else Zpos m in
      Some (match e with
            | Zneg p => (n # Pos.shiftl 1 (Npos p))%Q
            | _ => inject_Z (n * 2 ^ e)
            end)
  | S754_infinity _ | S754_nan => None
  end.

(** [int(x)]: truncation toward zero. *)
Definition to_int (x : float) : Z :=
  match x with
  | S754_finite s m e =>
      let a := match e with
               | Zneg p => Z.shiftr (Zpos m) (Zpos p)
               | _ => Zpos m * 2 ^ e
               end in
      if s then - a else a
  | _ => 0
  end.

End Float64.

(** ** Observable effects *)

Definition bytes := list byte.

Inductive Level := DEBUG | INFO | WARNING | ERROR.

(** Log lines by kind, with the values they interpolate. *)
Inductive LogLine :=
| BufferFull (dropped_samples : nat)
| PcmConversionError
| AudioStatus
| AudioLevel (chunk_no : nat)
| PutFailed
| SessionAlreadyActive
| ConnectRetry (attempt : nat) (retry_delay : Z)
| WsConnected (session_num : nat)
| SessionStartRejected
| SessionStarted_ok (session_num : nat)
| SessionSetupError
| SendQueueFull
| TimeBaseReset (session_num : nat) (lag : Float64.float)
| SenderError
| SessionFailedMsg (session_num : nat) (msg : PyStr.str)
| SlowAudioReconnect (session_num : nat)
| ReconnectIn (session_num : nat) (delay : Z) (attempt : nat)
| ReconnectLimit (session_num : nat)
| SessionFinishedMsg (session_num : nat) (sentences : nat)
| SourceText (s : PyStr.str)
| TranslationText (s : PyStr.str)
| ReceiverError
| Cleanup (session_num : nat)
| WatchdogPause (failures : nat)
| WatchdogRetry (backoff : Z)
| WatchdogFailed (failures : nat)
| WatchdogError.

(** Requests written to the socket. *)
Inductive Frame :=
| StartSessionFrame
| TaskRequestFrame (binary_data : bytes).

(** [Sleep] is [asyncio.sleep] of a whole number of seconds computed in
    integers; [SleepFloat] is [asyncio.sleep] of a duration computed in
    floats. *)
Inductive Effect :=
| Log (lvl : Level) (line : LogLine)
| Sleep (seconds : Q)
| Dial (open_timeout timeout : Z)
| WsSend (frame : Frame)
| WsClose
| PlayerEnqueue (pcm : list Float32.float32)
| OnSourceSentence (text : PyStr.str)
| OnTranslationSentence (text : PyStr.str)
| ScheduleStartSession
| SpawnTasks
| CancelTasks
| SleepFloat (seconds : Float64.float).

(** ** PCM conversion *)

Module Pcm.
Import Float32.

Definition byte_val (b : byte) : Z := Z.of_N (Byte.to_N b).

(** One little-endian two's-complement 16-bit integer. *)
Definition to_int16 (u : Z) : Z := if u <? 32768 then u else u - 65536.

Definition int16_le (lo hi : byte) : Z :=
  to_int16 (byte_val lo + 256 * byte_val hi).

(** One sample of [pcm_s16.astype(np.float32) / 32768.0]. *)
Definition sample_of (z : Z) : float32 := div (of_Z z) (of_Z 32768).

(** [np.frombuffer(pcm_bytes, dtype=np.int16)]; [None] is the ValueError
    raised when the length is not a multiple of the item size. *)
Fixpoint frombuffer_int16 (b : bytes) : option (list Z) :=
  match b with
  | [] => Some []
  | [_] => None
  | lo :: hi :: rest =>
      match frombuffer_int16 rest with
      | Some zs => Some (int16_le lo hi :: zs)
      | None => None
      end
  end.

(** [pcm_to_float32]: the vector, and what the [except] branch logs. *)
Definition pcm_to_float32 (pcm_bytes : bytes) : list float32 * list Effect :=
  match frombuffer_int16 pcm_bytes with
  | Some pcm_s16 =>
      match pcm_s16 with
      | [] => ([], [])
      | _ => (List.map sample_of pcm_s16, [])
      end
  | None => ([], [Log ERROR PcmConversionError])
  end.

End Pcm.

(** ** [asyncio.Queue]

    [items] is the queue proper; [putters] holds, in arrival order, the
    items of the [put] coroutines that found the queue full and are
    suspended.  A [get] frees a slot and resumes the first of them. *)

Module AsyncQueue.

Record t (A : Type) := mk { maxsize : nat; items : list A; putters : list A }.
Arguments mk {A}.
Arguments maxsize {A}.
Arguments items {A}.
Arguments putters {A}.

Section Ops.
Context {A : Type}.

Definition new (maxsize : nat) : t A := mk maxsize [] [].

Definition qsize (q : t A) : nat := List.length (items q).

Definition empty (q : t A) : bool := Nat.eqb (qsize q) 0.

Definition full (q : t A) : bool :=
  if Nat.eqb (maxsize q) 0 then false else Nat.leb (maxsize q) (qsize q).

(** [await q.put(x)], as far as it gets without a free slot. *)
Definition put (q : t A) (x : A) : t A :=
  if full q then mk (maxsize q) (items q) (putters q ++ [x])
  else mk (maxsize q) (items q ++ [x]) (putters q).

(** [_wakeup_next(self._putters)]: the first parked put is woken, and is
    taken here to complete at once.  In asyncio it completes when the
    loop next runs it: until then the queue has a free slot, so the two
    differ while other code runs between the wake-up and that moment
    (a [get_nowait] loop, a put scheduled meanwhile).  They agree on
    queues on which no put is parked. *)
Definition wakeup_next (q : t A) : t A :=
  match putters q with
  | x :: waiting =>
      if full q then q else mk (maxsize q) (items q ++ [x]) waiting
  | [] => q
  end.

(** [q.get_nowait()]; [None] is QueueEmpty. *)
Definition get_nowait (q : t A) : option (A * t A) :=
  match items q with
  | x :: rest => Some (x, wakeup_next (mk (maxsize q) rest (putters q)))
  | [] => None
  end.

(** [while not q.empty(): q.get_nowait()] *)
Fixpoint drain_loop (fuel : nat) (q : t A) : t A :=
  match fuel with
  | O => q
  | S fuel' =>
      match get_nowait q with
      | Some (_, q') => drain_loop fuel' q'
      | None => q
      end
  end.

Definition drain (q : t A) : t A :=
  drain_loop (List.length (items q) + List.length (putters q)) q.

End Ops.

End AsyncQueue.

(** ** The playback FIFO: [SimplePCMPlayer] *)

Module Player.
Import Float32.

Definition frame := list float32.

Record SimplePCMPlayer := mk {
  buffer : list frame;
  last_sample : float32;
  running : bool;
  total_samples : nat
}.

Definition max_buffer_size : nat := 50.

Definition init : SimplePCMPlayer := mk [] zero false 0.

Definition is_zero (x : float32) : bool :=
  match x with S754_zero _ => true | _ => false end.

Section Curves.
(** The two fade curves are float computations of numpy that stay
    abstract: [fade_mul n k x] is [x] times the [k]-th of the [n]
    points of [cos(linspace(0, pi/2, n))], and [fade_out x n k] the
    [k]-th of the [n] points of [linspace(x * 0.5, 0, n)]. *)
Variable fade_mul : nat -> nat -> float32 -> float32.
Variable fade_out : float32 -> nat -> nat -> float32.

Fixpoint scale_from (n k : nat) (tail : frame) : frame :=
  match tail with
  | [] => []
  | x :: rest => fade_mul n k x :: scale_from n (S k) rest
  end.

(** The end-of-sentence fade of [enqueue_float32]. *)
Definition apply_fade (pcm : frame) : frame :=
  let size := List.length pcm in
  if Nat.ltb 96 size then
    let fade_samples := Nat.min 96 (size / 20) in
    firstn (size - fade_samples) pcm
      ++ scale_from fade_samples 0 (skipn (size - fade_samples) pcm)
  else pcm.

Definition enqueue_float32 (p : SimplePCMPlayer) (pcm : frame)
  : SimplePCMPlayer * list Effect :=
  let pcm := apply_fade pcm in
  let '(kept, log) :=
    if Nat.leb max_buffer_size (List.length (buffer p)) then
      match buffer p with
      | dropped :: rest =>
          (rest, [Log WARNING (BufferFull (List.length dropped))])
      | [] => ([], [])   (* not reached: the cap is positive *)
      end
    else (buffer p, []) in
  (mk (kept ++ [pcm]) (last_sample p) (running p)
      (total_samples p + List.length pcm), log).

(** The [while self.buffer and filled < samples_needed] loop of
    [_callback]; [needed] is [samples_needed - filled]. *)
Fixpoint fill (buf : list frame) (needed : nat) (out : frame)
  (last : float32) : list frame * frame * float32 :=
  match buf with
  | [] => (buf, out, last)
  | chunk :: rest =>
      if Nat.eqb needed 0 then (buf, out, last)
      else
        let take := Nat.min (List.length chunk) needed in
        let out' := out ++ firstn take chunk in
        let last' := if Nat.ltb 0 take then nth (take - 1) chunk last
                     else last in
        if Nat.ltb take (List.length chunk)
        then (skipn take chunk :: rest, out', last')
        else fill rest (needed - take) out' last'
  end.

(** [_callback(outdata, frames, ...)] for one channel: the player
    afterwards and the block written to the sound card. *)
Definition callback (p : SimplePCMPlayer) (frames : nat)
  : SimplePCMPlayer * frame :=
  let samples_needed := frames in
  let '(buf, out, last) := fill (buffer p) samples_needed [] (last_sample p) in
  let filled := List.length out in
  if Nat.ltb filled samples_needed && Nat.ltb 0 filled then
    let fade_samples := Nat.min 16 (samples_needed - filled) in
    let curve := if is_zero last then repeat zero fade_samples
                 else List.map (fade_out last fade_samples) (seq 0 fade_samples) in
    (mk buf zero (running p) (total_samples p),
     out ++ curve ++ repeat zero (samples_needed - filled - fade_samples))
  else if Nat.eqb filled 0 then
    (mk buf zero (running p) (total_samples p), repeat zero samples_needed)
  else (mk buf last (running p) (total_samples p), out).

Definition stop (p : SimplePCMPlayer) : SimplePCMPlayer :=
  mk [] (last_sample p) false (total_samples p).

(** What can happen to a player. *)
Inductive Op :=
| OpEnqueue (pcm : frame)
| OpCallback (frames : nat)
| OpStop.

Definition apply (p : SimplePCMPlayer) (op : Op) : SimplePCMPlayer :=
  match op with
  | OpEnqueue pcm => fst (enqueue_float32 p pcm)
  | OpCallback frames => fst (callback p frames)
  | OpStop => stop p
  end.

Definition run (ops : list Op) (p : SimplePCMPlayer) : SimplePCMPlayer :=
  fold_left apply ops p.

End Curves.

End Player.

(** ** The translator object: the fields of [SimpleRealtimeTranslator]
       that the workers share *)

Definition SendQueue := AsyncQueue.t (option bytes).

Record Translator := mkTranslator {
  session_active : bool;
  send_queue : option SendQueue;
  ws_conn : bool;                       (* a connection object is held *)
  session_id : option N;
  session_count : nat;
  reconnect_attempts : nat;
  source_text_buffer : list PyStr.str;
  translation_text_buffer : list PyStr.str;
  on_source_sentence : bool;            (* a callable was given *)
  on_translation_sentence : bool;
  mic_prebuffer : list bytes;           (* deque(maxlen=30) *)
  session_lock : bool;                  (* created by [run] *)
  running : bool
}.

Definition sample_rate : Z := 16000.
Definition max_queue_size : nat := 300.
Definition reconnect_delay : Z := 1.
Definition max_reconnect_delay : Z := 32.
Definition prebuffer_maxlen : nat := 30.

(** [int(self.sample_rate * 0.08)], in double arithmetic. *)
Definition chunk_size : Z :=
  Float64.to_int (Float64.mul (Float64.of_Z sample_rate) (Float64.decimal 8 2)).

(** The object as [__init__] leaves it. *)
Definition init_translator (on_source on_translation : bool) : Translator :=
  mkTranslator false None false None 0 0 [] [] on_source on_translation
               [] false true.

Definition set_session_active (v : bool) (t : Translator) : Translator :=
  let 'mkTranslator _ q w i c r s tr os ot p l run := t in
  mkTranslator v q w i c r s tr os ot p l run.
Definition set_send_queue (v : option SendQueue) (t : Translator) : Translator :=
  let 'mkTranslator a _ w i c r s tr os ot p l run := t in
  mkTranslator a v w i c r s tr os ot p l run.
Definition set_ws_conn (v : bool) (t : Translator) : Translator :=
  let 'mkTranslator a q _ i c r s tr os ot p l run := t in
  mkTranslator a q v i c r s tr os ot p l run.
Definition set_session_id (v : option N) (t : Translator) : Translator :=
  let 'mkTranslator a q w _ c r s tr os ot p l run := t in
  mkTranslator a q w v c r s tr os ot p l run.
Definition set_session_count (v : nat) (t : Translator) : Translator :=
  let 'mkTranslator a q w i _ r s tr os ot p l run := t in
  mkTranslator a q w i v r s tr os ot p l run.
Definition set_reconnect_attempts (v : nat) (t : Translator) : Translator :=
  let 'mkTranslator a q w i c _ s tr os ot p l run := t in
  mkTranslator a q w i c v s tr os ot p l run.
Definition set_source_text_buffer (v : list PyStr.str) (t : Translator) : Translator :=
  let 'mkTranslator a q w i c r _ tr os ot p l run := t in
  mkTranslator a q w i c r v tr os ot p l run.
Definition set_translation_text_buffer (v : list PyStr.str) (t : Translator) : Translator :=
  let 'mkTranslator a q w i c r s _ os ot p l run := t in
  mkTranslator a q w i c r s v os ot p l run.
Definition set_mic_prebuffer (v : list bytes) (t : Translator) : Translator :=
  let 'mkTranslator a q w i c r s tr os ot _ l run := t in
  mkTranslator a q w i c r s tr os ot v l run.

(** ** Audio capture: [audio_callback], from [data_bytes] on *)

Module Capture.

(** [deque(maxlen=n).append(x)] *)
Definition deque_append {A} (maxlen : nat) (d : list A) (x : A) : list A :=
  if Nat.eqb maxlen 0 then []
  else if Nat.leb maxlen (List.length d) then tl d ++ [x]
  else d ++ [x].

(** The session can take chunks. *)
Definition ready (self : Translator) : bool :=
  session_active self &&
  match send_queue self with Some _ => true | None => false end.

(** [while self._mic_prebuffer: b = popleft(); put(b)] *)
Fixpoint replay (q : SendQueue) (prebuffer : list bytes) : SendQueue :=
  match prebuffer with
  | [] => q
  | b :: rest => replay (AsyncQueue.put q (Some b)) rest
  end.

(** One call of the input-stream callback.  [status] tells whether the
    driver reported a status, [counter] is the closure's chunk counter,
    [data_bytes] the chunk as 16-bit PCM.  Each scheduled
    [send_queue.put] is taken to run, in scheduling order, before the
    next one is scheduled. *)
Definition audio_callback (self : Translator) (counter : nat)
  (status : bool) (data_bytes : bytes) : Translator * nat * list Effect :=
  let e_status := if status then [Log WARNING AudioStatus] else [] in
  let counter := S counter in
  let e_level := if Nat.eqb (counter mod 50) 0
                 then [Log INFO (AudioLevel counter)] else [] in
  let e_start := if session_active self then [] else [ScheduleStartSession] in
  let effects := e_status ++ e_level ++ e_start in
  if negb (ready self) then
    (set_mic_prebuffer
       (deque_append prebuffer_maxlen (mic_prebuffer self) data_bytes) self,
     counter, effects)
  else
    match send_queue self with
    | Some q =>
        let q := replay q (mic_prebuffer self) in
        let q := AsyncQueue.put q (Some data_bytes) in
        (set_send_queue (Some q) (set_mic_prebuffer [] self), counter, effects)
    | None => (self, counter, effects)
    end.

(** A run of callbacks, none reporting a status. *)
Fixpoint capture_all (self : Translator) (counter : nat)
  (chunks : list bytes) : Translator * nat :=
  match chunks with
  | [] => (self, counter)
  | c :: rest =>
      let '(self', counter', _) := audio_callback self counter false c in
      capture_all self' counter' rest
  end.

End Capture.

(** ** The paced sender: [_sender_task] *)

Module Sender.

Record Locals := mkLocals {
  chunk_count : nat;
  next_send_time : Float64.float
}.

(** What one turn of the loop gets from outside: the item a producer
    puts within the 10 ms of [wait_for] when the queue is empty, whether
    the socket write goes through, and the two readings of
    [time.time()]. *)
Record Env := mkEnv {
  arrival : option (option bytes);
  send_ok : bool;
  now : Float64.float;
  now_at_reset : Float64.float
}.

Inductive GetResult :=
| GotItem (item : option bytes) (q : SendQueue)
| GetTimeout
| GetQueueFull.

(** [await asyncio.wait_for(self.send_queue.get(), timeout=0.01)] *)
Definition wait_for_get (q : SendQueue) (arrival : option (option bytes))
  : GetResult :=
  match AsyncQueue.get_nowait q with
  | Some (item, q') => GotItem item q'
  | None =>
      match arrival with
      | Some item => GotItem item q
      | None => GetTimeout
      end
  end.

(** [np.zeros(int(self.sample_rate * 0.08), dtype=np.int16).tobytes()] *)
Definition silence : bytes := repeat x00 (Z.to_nat (2 * chunk_size)).

(** The literals [0.08] and [0.5]. *)
Definition interval : Float64.float := Float64.decimal 8 2.
Definition max_lag : Float64.float := Float64.decimal 5 1.

Inductive Status := Looping | Stopped.

(** The outer [except Exception]. *)
Definition fail (self : Translator) (loc : Locals) (effects : list Effect)
  : Translator * Locals * list Effect * Status :=
  (set_session_active false self, loc,
   effects ++ [Log ERROR SenderError], Stopped).

(** From "build the TaskRequest" to the end of the loop body:
    [next_send_time += 0.08], [wait_time = next_send_time - time.time()],
    [if wait_time > 0 ... elif wait_time < -0.5 ...], all in binary64. *)
Definition send_and_pace (self : Translator) (loc : Locals)
  (session_num : nat) (env : Env) (item : bytes)
  : Translator * Locals * list Effect * Status :=
  if ws_conn self && send_ok env then
    let sent := [WsSend (TaskRequestFrame item)] in
    let chunk_count := S (chunk_count loc) in
    let next_send_time := Float64.add (next_send_time loc) interval in
    let wait_time := Float64.sub next_send_time (now env) in
    if Float64.ltb Float64.zero wait_time then
      (self, mkLocals chunk_count next_send_time,
       sent ++ [SleepFloat wait_time], Looping)
    else if Float64.ltb wait_time (Float64.opp max_lag) then
      (self, mkLocals chunk_count (now_at_reset env),
       sent ++ [Log WARNING
                  (TimeBaseReset session_num (Float64.opp wait_time))],
       Looping)
    else (self, mkLocals chunk_count next_send_time, sent, Looping)
  else fail self loc [].

(** One turn of [while self.session_active]. *)
Definition iteration (self : Translator) (loc : Locals) (session_num : nat)
  (env : Env) : Translator * Locals * list Effect * Status :=
  match send_queue self with
  | None => fail self loc []
  | Some q =>
      match wait_for_get q (arrival env) with
      | GetQueueFull => (self, loc, [Log WARNING SendQueueFull], Looping)
      | GetTimeout => send_and_pace self loc session_num env silence
      | GotItem None q' => (set_send_queue (Some q') self, loc, [], Looping)
      | GotItem (Some chunk) q' =>
          send_and_pace (set_send_queue (Some q') self) loc session_num env chunk
      end
  end.

Fixpoint run (self : Translator) (loc : Locals) (session_num : nat)
  (envs : list Env) : Translator * Locals * list Effect :=
  match envs with
  | [] => (self, loc, [])
  | env :: rest =>
      if session_active self then
        let '(self1, loc1, eff1, st) := iteration self loc session_num env in
        match st with
        | Looping =>
            let '(self2, loc2, eff2) := run self1 loc1 session_num rest in
            (self2, loc2, eff1 ++ eff2)
        | Stopped => (self1, loc1, eff1)
        end
      else (self, loc, [])
  end.

(** Bookkeeping used to state what a turn did. *)
Fixpoint sent_items (effects : list Effect) : list bytes :=
  match effects with
  | [] => []
  | WsSend (TaskRequestFrame b) :: rest => b :: sent_items rest
  | _ :: rest => sent_items rest
  end.

Fixpoint warned_queue_full (effects : list Effect) : bool :=
  match effects with
  | [] => false
  | Log WARNING SendQueueFull :: _ => true
  | _ :: rest => warned_queue_full rest
  end.

End Sender.

(** ** The receiver: [_receiver_task] *)

Module Receiver.
Import PyStr.

(** The event discriminators the client looks at; any other value of
    the protocol's enumeration is [OtherEvent]. *)
Inductive EventType :=
| AudioMuted
| SessionStarted | SessionFailed | SessionCanceled | SessionFinished
| TTSSentenceStart | TTSResponse | TTSSentenceEnd
| SourceSubtitleStart | SourceSubtitleResponse | SourceSubtitleEnd
| TranslationSubtitleStart | TranslationSubtitleResponse
| TranslationSubtitleEnd
| OtherEvent.

(** The fields of a decoded [TranslateResponse] that are read. *)
Record TranslateResponse := mkResp {
  event : EventType;
  Sequence : Z;
  Message : str;
  data : bytes;
  text : str;
  muted_duration_ms : Z
}.

Record Locals := mkLocals {
  current_seq : option Z;
  current_data : bytes;
  sentence_count : nat
}.

Definition init_locals : Locals := mkLocals None [] 0.

Inductive Control := Next | Break.

Definition nonempty {A} (l : list A) : bool :=
  match l with [] => false | _ :: _ => true end.

Definition drain_queue (self : Translator) : Translator :=
  match send_queue self with
  | Some q => set_send_queue (Some (AsyncQueue.drain q)) self
  | None => self
  end.

(** The [SessionFailed] / [SessionCanceled] branch, up to its [break]. *)
Definition on_failed (self : Translator) (session_num : nat)
  (error_msg : str) : Translator * list Effect :=
  let e0 := [Log ERROR (SessionFailedMsg session_num error_msg)] in
  if contains (lit "AudioSendSlow") error_msg
     || contains (lit "audio not enough") error_msg then
    let self := drain_queue (set_session_active false self) in
    let attempts := S (reconnect_attempts self) in
    let self := set_reconnect_attempts attempts self in
    let e1 := e0 ++ [Log WARNING (SlowAudioReconnect session_num)] in
    if Nat.leb attempts 10 then
      let delay := Z.min (reconnect_delay * 2 ^ Z.of_nat attempts)
                         max_reconnect_delay in
      (set_session_active false self,
       e1 ++ [Log WARNING (ReconnectIn session_num delay attempts);
              Sleep (inject_Z delay)])
    else (self, e1 ++ [Log ERROR (ReconnectLimit session_num)])
  else (self, e0).

(** The body of [while True] after a response was received and parsed. *)
Definition step (self : Translator) (loc : Locals) (session_num : nat)
  (resp : TranslateResponse) : Translator * Locals * list Effect * Control :=
  match event resp with
  | AudioMuted => (self, loc, [], Next)
  | SessionFailed | SessionCanceled =>
      let '(self', eff) := on_failed self session_num (Message resp) in
      (self', loc, eff, Break)
  | SessionFinished =>
      (self, loc,
       [Log INFO (SessionFinishedMsg session_num (sentence_count loc))], Break)
  | TTSSentenceStart =>
      (self, mkLocals (Some (Sequence resp)) [] (sentence_count loc), [], Next)
  | TTSResponse =>
      match current_seq loc with
      | Some _ =>
          if nonempty (data resp)
          then (self, mkLocals (current_seq loc) (current_data loc ++ data resp)
                               (sentence_count loc), [], Next)
          else (self, loc, [], Next)
      | None => (self, loc, [], Next)
      end
  | TTSSentenceEnd =>
      match current_seq loc with
      | Some _ =>
          if nonempty (current_data loc) then
            let pcm_bytes := current_data loc in
            let '(pcm, logged) := Pcm.pcm_to_float32 pcm_bytes in
            if nonempty pcm
            then (self, mkLocals None [] (S (sentence_count loc)),
                  logged ++ [PlayerEnqueue pcm], Next)
            else (self, mkLocals None [] (sentence_count loc), logged, Next)
          else (self, loc, [], Next)
      | None => (self, loc, [], Next)
      end
  | SourceSubtitleStart => (set_source_text_buffer [] self, loc, [], Next)
  | SourceSubtitleResponse =>
      if truthy (text resp) && truthy (strip (text resp))
      then (set_source_text_buffer
              (source_text_buffer self ++ [strip (text resp)]) self,
            loc, [], Next)
      else (self, loc, [], Next)
  | SourceSubtitleEnd =>
      if nonempty (source_text_buffer self) then
        let complete_source := join [] (source_text_buffer self) in
        (set_source_text_buffer [] self, loc,
         Log INFO (SourceText complete_source)
           :: (if on_source_sentence self
               then [OnSourceSentence complete_source] else []),
         Next)
      else (self, loc, [], Next)
  | TranslationSubtitleStart =>
      (set_translation_text_buffer [] self, loc, [], Next)
  | TranslationSubtitleResponse =>
      if truthy (text resp) && truthy (strip (text resp))
      then (set_translation_text_buffer
              (translation_text_buffer self ++ [strip (text resp)]) self,
            loc, [], Next)
      else (self, loc, [], Next)
  | TranslationSubtitleEnd =>
      if nonempty (translation_text_buffer self) then
        let complete_translation :=
          join (lit " ") (translation_text_buffer self) in
        (set_translation_text_buffer [] self, loc,
         Log INFO (TranslationText complete_translation)
           :: (if on_translation_sentence self
               then [OnTranslationSentence complete_translation] else []),
         Next)
      else (self, loc, [], Next)
  | SessionStarted | OtherEvent => (self, loc, [], Next)
  end.

(** The [finally] block. *)
Definition cleanup (self : Translator) (session_num : nat)
  : Translator * list Effect :=
  let closing := if ws_conn self then [WsClose] else [] in
  let self := drain_queue self in
  (set_send_queue None
     (set_session_id None (set_session_active false (set_ws_conn false self))),
   Log INFO (Cleanup session_num) :: closing ++ [CancelTasks]).

(** What [recv] and the parse deliver: a response, or an exception. *)
Inductive Incoming :=
| Response (resp : TranslateResponse)
| Failure.

Inductive Status := Receiving | Ended.

(** The task over what has arrived so far; [Receiving] means it is
    suspended in [recv]. *)
Fixpoint run (self : Translator) (loc : Locals) (session_num : nat)
  (incoming : list Incoming)
  : Translator * Locals * list Effect * Status :=
  match incoming with
  | [] => (self, loc, [], Receiving)
  | Failure :: _ =>
      let '(self', eff) := cleanup self session_num in
      (self', loc, Log ERROR ReceiverError :: eff, Ended)
  | Response resp :: rest =>
      let '(self1, loc1, eff1, ctl) := step self loc session_num resp in
      match ctl with
      | Next =>
          let '(self2, loc2, eff2, st) := run self1 loc1 session_num rest in
          (self2, loc2, eff1 ++ eff2, st)
      | Break =>
          let '(self2, eff2) := cleanup self1 session_num in
          (self2, loc1, eff1 ++ eff2, Ended)
      end
  end.

(** Projections of an effect list. *)
Fixpoint enqueued (effects : list Effect) : list (list Float32.float32) :=
  match effects with
  | [] => []
  | PlayerEnqueue pcm :: rest => pcm :: enqueued rest
  | _ :: rest => enqueued rest
  end.

Fixpoint source_sentences (effects : list Effect) : list str :=
  match effects with
  | [] => []
  | OnSourceSentence s :: rest => s :: source_sentences rest
  | _ :: rest => source_sentences rest
  end.

Fixpoint translation_sentences (effects : list Effect) : list str :=
  match effects with
  | [] => []
  | OnTranslationSentence s :: rest => s :: translation_sentences rest
  | _ :: rest => translation_sentences rest
  end.

Definition effects_of (r : Translator * Locals * list Effect * Status)
  : list Effect := snd (fst r).

(** Builders for the events of an episode. *)
Definition ev (e : EventType) : Incoming := Response (mkResp e 0 [] [] [] 0).
Definition tts_start (seq : Z) : Incoming :=
  Response (mkResp TTSSentenceStart seq [] [] [] 0).
Definition tts_data (payload : bytes) : Incoming :=
  Response (mkResp TTSResponse 0 [] payload [] 0).
Definition source_fragment (s : str) : Incoming :=
  Response (mkResp SourceSubtitleResponse 0 [] [] s 0).
Definition translation_fragment (s : str) : Incoming :=
  Response (mkResp TranslationSubtitleResponse 0 [] [] s 0).

End Receiver.

(** ** Session open: [_start_session] *)

Module Session.

Inductive DialOutcome := DialOk | DialTimeout | DialError.

(** What the outside decides during one call: whether the configuration
    loads, the outcome of the [k]-th dial, whether the StartSession
    write goes through, the first frame read ([None]: [recv] or the
    parse raises), whether closing the socket raises, and the fresh
    session id. *)
Record Env := mkEnv {
  config_ok : bool;
  dial : nat -> DialOutcome;
  send_ok : bool;
  reply : option Receiver.TranslateResponse;
  close_ok : bool;
  fresh_id : N
}.

Definition max_connect_attempts : nat := 3.
Definition open_timeout : Z := 20.

Inductive Connect := Connected | ConnectRaised | LoopExit.

(** [while connect_attempts < max_connect_attempts: ...]; [fuel] bounds
    the number of turns. *)
Fixpoint connect_loop (fuel connect_attempts : nat)
  (dial : nat -> DialOutcome) : list Effect * Connect :=
  match fuel with
  | O => ([], LoopExit)
  | S fuel' =>
      if Nat.ltb connect_attempts max_connect_attempts then
        match dial connect_attempts with
        | DialOk => ([Dial open_timeout 20], Connected)
        | DialTimeout | DialError =>
            let connect_attempts := S connect_attempts in
            if Nat.leb max_connect_attempts connect_attempts
            then ([Dial open_timeout 20], ConnectRaised)
            else
              let retry_delay := Z.min (2 ^ Z.of_nat connect_attempts) 8 in
              let '(eff, r) := connect_loop fuel' connect_attempts dial in
              (Dial open_timeout 20
                 :: Log WARNING (ConnectRetry connect_attempts retry_delay)
                 :: Sleep (inject_Z retry_delay) :: eff, r)
        end
      else ([], LoopExit)
  end.

Definition connect (dial : nat -> DialOutcome) : list Effect * Connect :=
  connect_loop (S max_connect_attempts) 0 dial.

(** How a block of code ends. *)
Inductive Outcome := Returned | Raised.

(** The [try] block. *)
Definition body (self : Translator) (env : Env)
  : Translator * list Effect * Outcome :=
  if negb (config_ok env) then (self, [], Raised)
  else
    let session_num := S (session_count self) in
    let self := set_session_count session_num self in
    let '(dialled, r) := connect (dial env) in
    match r with
    | ConnectRaised | LoopExit => (self, dialled, Raised)
    | Connected =>
        let self := set_ws_conn true self in
        let e1 := dialled ++ [Log INFO (WsConnected session_num)] in
        let self := set_session_id (Some (fresh_id env)) self in
        if negb (send_ok env) then (self, e1, Raised)
        else
          let e2 := e1 ++ [WsSend StartSessionFrame] in
          match reply env with
          | None => (self, e2, Raised)
          | Some resp =>
              match Receiver.event resp with
              | Receiver.SessionStarted =>
                  (set_send_queue (Some (AsyncQueue.new max_queue_size))
                     (set_reconnect_attempts 0 self),
                   e2 ++ [Log INFO (SessionStarted_ok session_num); SpawnTasks],
                   Returned)
              | _ =>
                  let e3 := e2 ++ [Log ERROR SessionStartRejected; WsClose] in
                  if close_ok env
                  then (set_session_active false (set_ws_conn false self),
                        e3, Returned)
                  else (self, e3, Raised)
              end
          end
    end.

(** The environment lets the session open. *)
Definition opens (env : Env) : bool :=
  config_ok env
  && match snd (connect (dial env)) with Connected => true | _ => false end
  && send_ok env
  && match reply env with
     | Some resp =>
         match Receiver.event resp with
         | Receiver.SessionStarted => true
         | _ => false
         end
     | None => false
     end.

(** The [except Exception] handler. *)
Definition handler (self : Translator) : Translator * list Effect :=
  (set_ws_conn false (set_session_active false self),
   Log ERROR SessionSetupError :: (if ws_conn self then [WsClose] else [])).

(** [_start_session], for a call during which no other code touches the
    translator.  [Opening.start_session_amid] below places the
    input-stream callbacks that run while the call is suspended. *)
Definition start_session (self : Translator) (env : Env)
  : Translator * list Effect * Outcome :=
  if session_active self then
    (self, if session_lock self then [] else [Log DEBUG SessionAlreadyActive],
     Returned)
  else
    let self := set_session_active true self in
    let '(self1, eff1, r) := body self env in
    match r with
    | Returned => (self1, eff1, Returned)
    | Raised =>
        let '(self2, eff2) := handler self1 in
        (self2, eff1 ++ eff2, Returned)
    end.

(** Projections of an effect list. *)
Fixpoint dials (effects : list Effect) : list (Z * Z) :=
  match effects with
  | [] => []
  | Dial o t :: rest => (o, t) :: dials rest
  | _ :: rest => dials rest
  end.

Fixpoint sleeps (effects : list Effect) : list Q :=
  match effects with
  | [] => []
  | Sleep d :: rest => d :: sleeps rest
  | _ :: rest => sleeps rest
  end.

End Session.

(** ** Session open with the microphone running *)

Module Opening.

(** [_start_session] together with the input-stream callbacks that run
    while it is under way (the callback runs on the audio thread, the
    open is suspended in the dials and the sleeps between them, the
    write, the read and the close).  From [self.session_active = True]
    on, the open assigns [session_active] and [send_queue] only at its
    end: [send_queue] on success, after the last await; [session_active]
    on a rejected start after the close, and first thing in the handler.
    It never touches [_mic_prebuffer], and the callback assigns nothing
    but [_mic_prebuffer] and the contents of the queue it finds.  So
    each callback inside the open finds the flag raised and the queue
    that was installed before the call, and the callbacks can be run, in
    order, right after the flag is raised; a callback during the
    handler's close is as one after the return.  [inside] are the chunks
    of those callbacks, [counter] the callback's chunk counter. *)
Definition start_session_amid (self : Translator) (env : Session.Env)
  (counter : nat) (inside : list bytes)
  : Translator * nat * list Effect * Session.Outcome :=
  if session_active self then
    let '(self', counter') := Capture.capture_all self counter inside in
    (self', counter',
     if session_lock self then [] else [Log DEBUG SessionAlreadyActive],
     Session.Returned)
  else
    let self := set_session_active true self in
    let '(self, counter) := Capture.capture_all self counter inside in
    let '(self1, eff1, r) := Session.body self env in
    match r with
    | Session.Returned => (self1, counter, eff1, Session.Returned)
    | Session.Raised =>
        let '(self2, eff2) := Session.handler self1 in
        (self2, counter, eff1 ++ eff2, Session.Returned)
    end.

End Opening.

(** ** The watchdog: [_watchdog_task] *)

Module Watchdog.

Record Locals := mkLocals { backoff : Z; consecutive_failures : nat }.

Definition init_locals : Locals := mkLocals 1 0.
Definition max_consecutive_failures : nat := 5.

(** One turn of [while self._running], for a turn that is not
    cancelled. *)
Definition iteration (self : Translator) (loc : Locals) (env : Session.Env)
  : Translator * Locals * list Effect :=
  if negb (session_active self) then
    let e0 := [Sleep (inject_Z (backoff loc))] in
    if Nat.leb max_consecutive_failures (consecutive_failures loc) then
      (self, mkLocals 1 0,
       e0 ++ [Log ERROR (WatchdogPause (consecutive_failures loc));
              Sleep (inject_Z 60)])
    else
      let '(self', eff, r) := Session.start_session self env in
      let e1 := e0 ++ Log INFO (WatchdogRetry (backoff loc)) :: eff in
      match r with
      | Session.Returned => (self', mkLocals 1 0, e1)
      | Session.Raised =>
          let consecutive_failures := S (consecutive_failures loc) in
          (self', mkLocals (Z.min (backoff loc * 2) 16) consecutive_failures,
           e1 ++ [Log WARNING (WatchdogFailed consecutive_failures)])
      end
  else (self, loc, [Sleep (inject_Z 5)]).

(** Successive turns; between two of them the other tasks may have
    changed the translator, which [world] stands for. *)
Fixpoint run (self : Translator) (loc : Locals)
  (turns : list (Session.Env * (Translator -> Translator)))
  : Translator * Locals * list Effect :=
  match turns with
  | [] => (self, loc, [])
  | (env, world) :: rest =>
      if running self then
        let '(self1, loc1, eff1) := iteration self loc env in
        let '(self2, loc2, eff2) := run (world self1) loc1 rest in
        (self2, loc2, eff1 ++ eff2)
      else (self, loc, [])
  end.

End Watchdog.

(** ** The log filter: [SecretRedactFilter] *)

Module Logger.
Import PyStr.

(** Case folding of [re.IGNORECASE] on a [str] pattern, as far as the
    ASCII letters of the pattern go: besides the 52 ASCII letters, the
    letters U+0130 and U+0131 match [i], U+017F matches [s] and U+212A
    matches [k]. *)
Definition fold (c : char) : char :=
  (if (65 <=? c) && (c <=? 90) then c + 32
   else if (c =? 304) || (c =? 305) then 105
   else if c =? 383 then 115
   else if c =? 8490 then 107
   else c)%N.

(** The alternatives of group 1, in pattern order. *)
Definition keys : list str :=
  [lit "API_APP_KEY"; lit "API_ACCESS_KEY"; lit "API_RESOURCE_ID";
   lit "X-Api-App-Key"; lit "X-Api-Access-Key"; lit "X-Api-Resource-Id"].

(** A literal of the pattern against the head of the text: the text
    matched and what follows it. *)
Fixpoint match_lit (p s : str) : option (str * str) :=
  match p with
  | [] => Some ([], s)
  | a :: p' =>
      match s with
      | [] => None
      | c :: s' =>
          if (fold c =? fold a)%N then
            match match_lit p' s' with
            | Some (m, rest) => Some (c :: m, rest)
            | None => None
            end
          else None
      end
  end.

Definition is_sep (c : char) : bool := ((c =? 58) || (c =? 61))%N.

(** The class [[^\s,;]]. *)
Definition is_value_char (c : char) : bool :=
  negb (isspace c || (c =? 44) || (c =? 59))%N.

Fixpoint skip_value (s : str) : str :=
  match s with
  | [] => []
  | c :: t => if is_value_char c then skip_value t else s
  end.

(** [\s*[:=]\s*([^\s,;]+)] against the head of the text: what follows
    the match.  The three classes are pairwise disjoint, so the greedy
    choice is the only one that can succeed. *)
Definition after_key (s : str) : option str :=
  match lstrip s with
  | c :: s1 =>
      if is_sep c then
        match lstrip s1 with
        | v :: s2 => if is_value_char v then Some (skip_value s2) else None
        | [] => None
        end
      else None
  | [] => None
  end.

(** The whole pattern at the head of the text, trying the alternatives
    in order: group 1 and what follows the match. *)
Fixpoint alternatives (ks : list str) (s : str) : option (str * str) :=
  match ks with
  | [] => None
  | key :: others =>
      match match_lit key s with
      | Some (g1, s1) =>
          match after_key s1 with
          | Some rest => Some (g1, rest)
          | None => alternatives others s
          end
      | None => alternatives others s
      end
  end.

Definition match_here (s : str) : option (str * str) := alternatives keys s.

Definition redacted : str := lit "=<REDACTED>".

(** [_pattern.sub(repl, msg)]: leftmost matches, left to right, each
    replaced by group 1 followed by [=<REDACTED>]. *)
Fixpoint sub_loop (fuel : nat) (s : str) : str :=
  match fuel with
  | O => s
  | S fuel' =>
      match s with
      | [] => []
      | c :: t =>
          match match_here s with
          | Some (g1, rest) => g1 ++ redacted ++ sub_loop fuel' rest
          | None => c :: sub_loop fuel' t
          end
      end
  end.

Definition sub (msg : str) : str := sub_loop (List.length msg) msg.

(** [filter]: the message the handler goes on to emit. *)
Definition filter (msg : str) : str :=
  if truthy msg then sub msg else msg.

(** Text that is one of the keys, in any letter case. *)
Definition is_key (k : str) : bool :=
  existsb (fun key =>
             match match_lit key k with
             | Some (_, []) => true
             | _ => false
             end) keys.

(** [viable p s]: [s] and [p] agree, up to case, as far as both go. *)
Fixpoint viable (p s : str) : bool :=
  match p, s with
  | a :: p', c :: s' => (fold c =? fold a)%N && viable p' s'
  | _, _ => true
  end.

(** No match of the pattern can begin inside [pre], whatever follows. *)
Fixpoint no_key_start (pre : str) : bool :=
  match pre with
  | [] => true
  | _ :: t => negb (existsb (fun key => viable key pre) keys) && no_key_start t
  end.

(** No match of the pattern begins inside [pre] when [t] follows it. *)
Fixpoint no_match_before (pre t : str) : bool :=
  match pre with
  | [] => true
  | _ :: pre' =>
      match match_here (pre ++ t) with
      | Some _ => false
      | None => no_match_before pre' t
      end
  end.

Definition is_value (v : str) : bool :=
  truthy v && forallb is_value_char v.

(** The text after a value does not continue it. *)
Definition ends_value (rest : str) : bool :=
  match rest with
  | [] => true
  | c :: _ => negb (is_value_char c)
  end.

End Logger.

(** ** Vocabulary for stating properties of an episode *)

Module Episode.
Import PyStr Receiver.

(** The fragments the receiver keeps of the texts it is sent. *)
Definition kept_fragments (texts : list str) : list str :=
  List.filter truthy (List.map strip texts).

Definition terminal (e : EventType) : bool :=
  match e with
  | SessionFailed | SessionCanceled | SessionFinished => true
  | _ => false
  end.

(** Responses that neither end the task nor open or close a source
    subtitle (a translation subtitle, a TTS sentence). *)
Definition inside_source (r : TranslateResponse) : bool :=
  negb (terminal (event r)) &&
  match event r with
  | SourceSubtitleStart | SourceSubtitleEnd => false
  | _ => true
  end.

Definition inside_translation (r : TranslateResponse) : bool :=
  negb (terminal (event r)) &&
  match event r with
  | TranslationSubtitleStart | TranslationSubtitleEnd => false
  | _ => true
  end.

Definition inside_sentence (r : TranslateResponse) : bool :=
  negb (terminal (event r)) &&
  match event r with
  | TTSSentenceStart | TTSSentenceEnd => false
  | _ => true
  end.

Fixpoint source_texts (rs : list TranslateResponse) : list str :=
  match rs with
  | [] => []
  | r :: rest =>
      match event r with
      | SourceSubtitleResponse => text r :: source_texts rest
      | _ => source_texts rest
      end
  end.

Fixpoint translation_texts (rs : list TranslateResponse) : list str :=
  match rs with
  | [] => []
  | r :: rest =>
      match event r with
      | TranslationSubtitleResponse => text r :: translation_texts rest
      | _ => translation_texts rest
      end
  end.

(** The TTS payload bytes, concatenated. *)
Fixpoint payload (rs : list TranslateResponse) : bytes :=
  match rs with
  | [] => []
  | r :: rest =>
      match event r with
      | TTSResponse => data r ++ payload rest
      | _ => payload rest
      end
  end.

(** A fragment that [strip] leaves alone. *)
Definition clean (s : str) : bool :=
  match s, rev s with
  | c :: _, d :: _ => negb (isspace c) && negb (isspace d)
  | _, _ => false
  end.

(** The sample built from two byte values denotes the integer they
    spell, over 32768. *)
Definition exact_at (lo hi : Z) : bool :=
  let z := Pcm.to_int16 (lo + 256 * hi) in
  Float32.denotes (Pcm.sample_of z) z 32768.

Definition byte_values : list Z := List.map Z.of_nat (seq 0 256).

End Episode.

(** ** Concrete inputs *)

Module Scenario.
Import PyStr Receiver.

(** A translator with both callbacks installed. *)
Definition subscribed : Translator := init_translator true true.

(** A sentence of two payloads, [00 10] and [00 20]. *)
Definition sentence : list TranslateResponse :=
  [mkResp TTSResponse 0 [] [x00; x10] [] 0;
   mkResp TTSResponse 0 [] [x00; x20] [] 0].

Definition sentence_start : TranslateResponse :=
  mkResp TTSSentenceStart 7 [] [] [] 0.
Definition sentence_end : TranslateResponse :=
  mkResp TTSSentenceEnd 0 [] [] [] 0.

Definition fragment (e : EventType) (s : str) : TranslateResponse :=
  mkResp e 0 [] [] s 0.

(** U+4F60 U+597D and U+4E16 U+754C. *)
Definition ni_hao : str := [20320; 22909]%N.
Definition shi_jie : str := [19990; 30028]%N.

Definition source_mid : list TranslateResponse :=
  [fragment SourceSubtitleResponse ni_hao;
   fragment SourceSubtitleResponse shi_jie].

Definition translation_mid : list TranslateResponse :=
  [fragment TranslationSubtitleResponse (lit "Hello");
   fragment TranslationSubtitleResponse (lit "world")].

(** Fragments with whitespace around them, and a fragment of
    whitespace. *)
Definition padded_source_mid : list TranslateResponse :=
  [fragment SourceSubtitleResponse (lit "Hello ");
   fragment SourceSubtitleResponse (lit "world")].

Definition spaced_translation_mid : list TranslateResponse :=
  [fragment TranslationSubtitleResponse (lit "Hello");
   fragment TranslationSubtitleResponse (lit " ");
   fragment TranslationSubtitleResponse (lit "world")].

(** An empty fragment, two spaces, a tab and an ideographic space. *)
Definition blank_mid (e : EventType) : list TranslateResponse :=
  [fragment e []; fragment e (lit "  "); fragment e [9; 12288]%N].

(** Fifty one-sample frames enqueued on a fresh player, with curves
    that leave the samples alone. *)
Definition no_fade (n k : nat) (x : Float32.float32) : Float32.float32 := x.
Definition no_fade_out (x : Float32.float32) (n k : nat) : Float32.float32 :=
  Float32.zero.
Definition fifty_enqueues : list Player.Op :=
  List.map (fun k => Player.OpEnqueue [Float32.of_Z (Z.of_nat k)]) (seq 0 50).

Definition chunk_of (b : byte) : bytes := repeat b 2560.

(** Three chunks captured before the session is open. *)
Definition early_chunks : list bytes := [chunk_of x01; chunk_of x02; chunk_of x03].

(** A service that answers the first dial and starts the session, and
    one that cannot be reached. *)
Definition opening_env : Session.Env :=
  Session.mkEnv true (fun _ => Session.DialOk) true
                (Some (mkResp SessionStarted 0 [] [] [] 0)) true 1.
Definition unreachable_env : Session.Env :=
  Session.mkEnv true (fun _ => Session.DialTimeout) true None true 1.

(** A live session whose send queue holds 300 chunks, and one whose
    send queue is empty. *)
Definition full_queue : SendQueue :=
  AsyncQueue.mk 300 (repeat (Some (chunk_of x01)) 300) [].
Definition congested : Translator :=
  mkTranslator true (Some full_queue) true (Some 1%N) 1 0 [] [] true true
               [] true true.
Definition idle : Translator :=
  mkTranslator true (Some (AsyncQueue.new 300)) true (Some 1%N) 1 0 [] []
               true true [] true true.

(** A sender turn in which nothing arrives and the clock reads 1000.02
    after the write, for a sender whose base is 1000. *)
Definition quiet_turn : Sender.Env :=
  Sender.mkEnv None true (Float64.decimal 100002 2) (Float64.decimal 100002 2).
Definition sender_at_1000 : Sender.Locals :=
  Sender.mkLocals 0 (Float64.of_Z 1000).

Definition late_turn : Sender.Env :=
  Sender.mkEnv None true (Float64.decimal 10025 1) (Float64.decimal 100275 2).


(** The sender of a session has failed: the session is inactive and
    its queue is still installed. *)
Definition left_over : SendQueue := AsyncQueue.new 300.
Definition after_sender_failure : Translator :=
  mkTranslator false (Some left_over) true (Some 1%N) 1 0 [] [] true true
               [] true true.

(** The end of a log line carrying a credential. *)
Definition line_rest : str := lit ", id=1".

Definition episode (start : EventType) (mid : list TranslateResponse)
  (stop : EventType) : list Incoming :=
  List.map Response (fragment start [] :: mid ++ [fragment stop []]).

End Scenario.

(** ** Configuration: [Config.validate] ([config.py]) *)

Module Config.
Import PyStr.

(** The fields [validate] reads. *)
Record Config := mk {
  app_key : str;
  access_key : str;
  source_language : str;
  target_language : str
}.

Definition str_eqb (a b : str) : bool :=
  if list_eq_dec N.eq_dec a b then true else false.

(** [lang in ['zh', 'en']] *)
Definition supported (lang : str) : bool :=
  str_eqb lang (lit "zh") || str_eqb lang (lit "en").

(** [True], or which ValueError is raised. *)
Inductive Validation :=
| Valid
| MissingCredentials
| SameLanguages
| UnsupportedSource
| UnsupportedTarget.

Definition validate (c : Config) : Validation :=
  if negb (truthy (app_key c)) || negb (truthy (access_key c))
  then MissingCredentials
  else if str_eqb (source_language c) (target_language c) then SameLanguages
  else if negb (supported (source_language c)) then UnsupportedSource
  else if negb (supported (target_language c)) then UnsupportedTarget
  else Valid.

End Config.

(** ** The subscriber of the two callbacks: [TranslatorManager._on_src]
       and [_on_tgt] ([app_menu.py]) *)

Module Manager.
Import PyStr.

Inductive WindowLine :=
| SourceLine (text : str)
| TranslationLine (text : str).

(** [subtitle_window] is [None] or the lines appended so far. *)
Record State := mk {
  src_cache : option str;
  tgt_cache : option str;
  last_pairs : list (str * str);        (* deque(maxlen=30) *)
  subtitle_window : option (list WindowLine)
}.

Definition init : State := mk None None [] None.

(** [cache or ""] *)
Definition or_empty (cache : option str) : str :=
  match cache with
  | Some s => s
  | None => []
  end.

Definition append_line (w : option (list WindowLine)) (l : WindowLine)
  : option (list WindowLine) :=
  match w with
  | Some lines => Some (lines ++ [l])
  | None => None
  end.

Definition on_src (st : State) (text : str) : State :=
  mk (Some text) (tgt_cache st)
     (Capture.deque_append 30 (last_pairs st) (text, or_empty (tgt_cache st)))
     (append_line (subtitle_window st) (SourceLine text)).

Definition on_tgt (st : State) (text : str) : State :=
  mk (src_cache st) (Some text)
     (Capture.deque_append 30 (last_pairs st) (or_empty (src_cache st), text))
     (append_line (subtitle_window st) (TranslationLine text)).

(** The receiver's callbacks reaching the manager, in order. *)
Definition deliver_one (st : State) (e : Effect) : State :=
  match e with
  | OnSourceSentence text => on_src st text
  | OnTranslationSentence text => on_tgt st text
  | _ => st
  end.

Definition deliver (effects : list Effect) (st : State) : State :=
  fold_left deliver_one effects st.

End Manager.

(** ** Stopping: [SimpleRealtimeTranslator.stop] *)

Module Lifecycle.

Definition set_running (v : bool) (t : Translator) : Translator :=
  let 'mkTranslator a q w i c r s tr os ot p l _ := t in
  mkTranslator a q w i c r s tr os ot p l v.

Inductive Note := StoppingTranslator | StopRequested.

(** [stop()], with the event loop and the player present: the flag, the
    cancellations and the close handed to the loop, the send queue
    emptied, the playback FIFO cleared.  The set [active_tasks] is not
    modelled: [CancelTasks] stands for the cancellation of whatever
    tasks it holds, none included. *)
Definition stop (self : Translator) (player : Player.SimplePCMPlayer)
  : Translator * Player.SimplePCMPlayer * list (Note + Effect) :=
  let self := set_running false self in
  let closing := if ws_conn self then [inr WsClose] else [] in
  let self := Receiver.drain_queue self in
  (self,
   Player.mk [] (Player.last_sample player) (Player.running player)
             (Player.total_samples player),
   inl StoppingTranslator :: inr CancelTasks :: closing ++ [inl StopRequested]).

End Lifecycle.

(** ** More vocabulary *)

Module Tally.
Import Receiver.

(** The last [n] elements. *)
Definition lastn {A} (n : nat) (l : list A) : list A :=
  skipn (List.length l - n) l.

Fixpoint count_event (e : EventType -> bool) (incoming : list Incoming) : nat :=
  match incoming with
  | [] => 0
  | Response r :: rest =>
      (if e (event r) then 1 else 0) + count_event e rest
  | Failure :: rest => count_event e rest
  end.

Definition is_source_end (e : EventType) : bool :=
  match e with SourceSubtitleEnd => true | _ => false end.
Definition is_translation_end (e : EventType) : bool :=
  match e with TranslationSubtitleEnd => true | _ => false end.
Definition is_sentence_start (e : EventType) : bool :=
  match e with TTSSentenceStart => true | _ => false end.

(** 1 while a TTS sentence is being assembled. *)
Definition seq_open (loc : Locals) : nat :=
  match current_seq loc with Some _ => 1 | None => 0 end.

(** Session opens one after the other, each with its own environment. *)
Fixpoint open_all (self : Translator) (envs : list Session.Env)
  : Translator * list Effect :=
  match envs with
  | [] => (self, [])
  | env :: rest =>
      let '(self1, eff1, _) := Session.start_session self env in
      let '(self2, eff2) := open_all self1 rest in
      (self2, eff1 ++ eff2)
  end.

Fixpoint spawns (effects : list Effect) : nat :=
  match effects with
  | [] => 0
  | SpawnTasks :: rest => S (spawns rest)
  | _ :: rest => spawns rest
  end.

Definition slow_audio (msg : PyStr.str) : bool :=
  PyStr.contains (PyStr.lit "AudioSendSlow") msg
  || PyStr.contains (PyStr.lit "audio not enough") msg.

(** A send queue in which nothing waits to be put. *)
Definition settled (q : SendQueue) : bool :=
  match AsyncQueue.putters q with [] => true | _ :: _ => false end.

(** Turns in which the socket takes the write. *)
Definition all_sent (envs : list Sender.Env) : bool :=
  forallb Sender.send_ok envs.

(** The send queue, when there is one, has the capacity of 300 and no
    more items than that. *)
Definition within_capacity (self : Translator) : Prop :=
  match send_queue self with
  | Some q =>
      AsyncQueue.maxsize q = max_queue_size
      /\ (List.length (AsyncQueue.items q) <= max_queue_size)%nat
  | None => True
  end.

(** What the watchdog does about failed opens: the warning, the error
    before the pause, the pause of 60 s. *)
Definition is_watchdog_alarm (e : Effect) : bool :=
  match e with
  | Log _ (WatchdogPause _) | Log _ (WatchdogFailed _) => true
  | Sleep d => Qeq_bool d (inject_Z 60)
  | _ => false
  end.

(** The text holds [:] or [=]. *)
Definition has_sep (s : PyStr.str) : bool := existsb Logger.is_sep s.

Fixpoint total (ds : list Q) : Q :=
  match ds with
  | [] => 0%Q
  | d :: rest => (d + total rest)%Q
  end.

End Tally.

(* ===================================================================== *)
(** * Part II: properties                                                 *)
(* ===================================================================== *)

(** ** float32 samples *)

Section SampleExactness.
Import Float32 Pcm Episode.

Lemma exact_everywhere :
  forallb (fun hi => forallb (fun lo => exact_at lo hi) byte_values)
          byte_values = true.
Proof. vm_compute. reflexivity. Qed.

Lemma in_byte_values (b : byte) : In (byte_val b) byte_values.
Proof.
  unfold byte_values, byte_val.
  pose proof (Byte.to_N_bounded b) as Hb.
  replace (Z.of_N (Byte.to_N b)) with (Z.of_nat (N.to_nat (Byte.to_N b)))
    by lia.
  apply in_map, in_seq. lia.
Qed.

(** Converting a 16-bit sample to float32 and dividing by 32768 loses
    nothing. *)
Lemma sample_exact (lo hi : byte) :
  denotes (sample_of (int16_le lo hi)) (int16_le lo hi) 32768 = true.
Proof.
  pose proof exact_everywhere as H.
  rewrite forallb_forall in H.
  specialize (H _ (in_byte_values hi)).
  rewrite forallb_forall in H.
  exact (H _ (in_byte_values lo)).
Qed.

End SampleExactness.

(** ** PCM conversion *)

Section PcmFacts.
Import Float32 Pcm.

Lemma pair_ind (A : Type) (P : list A -> Prop) :
  P [] -> (forall x, P [x]) -> (forall x y l, P l -> P (x :: y :: l)) ->
  forall l, P l.
Proof.
  intros H0 H1 H2 l.
  enough (P l /\ forall x, P (x :: l)) by tauto.
  induction l as [|y l [IHa IHb]]; split; auto.
Qed.

Lemma frombuffer_odd (b : bytes) :
  Nat.even (List.length b) = false -> frombuffer_int16 b = None.
Proof.
  induction b as [| x | x y l IH] using pair_ind; intro H.
  - discriminate.
  - reflexivity.
  - cbn [frombuffer_int16]. rewrite IH; [reflexivity | exact H].
Qed.

Lemma frombuffer_even (b : bytes) :
  Nat.even (List.length b) = true ->
  exists zs, frombuffer_int16 b = Some zs
    /\ List.length zs = (List.length b / 2)%nat
    /\ forall i, (i < List.length zs)%nat ->
         nth i zs 0 = int16_le (nth (2 * i) b x00) (nth (2 * i + 1) b x00).
Proof.
  induction b as [| x | x y l IH] using pair_ind; intro H.
  - exists []. repeat split. intros i Hi. inversion Hi.
  - discriminate.
  - destruct (IH H) as (zs & Hzs & Hlen & Hnth).
    exists (int16_le x y :: zs). cbn [frombuffer_int16]. rewrite Hzs.
    repeat split.
    + cbn [List.length]. rewrite Hlen.
      change (S (S (List.length l))) with (2 + List.length l)%nat.
      replace (2 + List.length l)%nat with (1 * 2 + List.length l)%nat by lia.
      rewrite Nat.div_add_l by lia. lia.
    + intros [|i] Hi.
      * reflexivity.
      * cbn [List.length] in Hi.
        replace (2 * S i)%nat with (S (S (2 * i))) by lia.
        replace (S (S (2 * i)) + 1)%nat with (S (S (2 * i + 1))) by lia.
        cbn [nth]. apply Hnth. lia.
Qed.

(** An even, non-empty buffer converts to one exact sample per pair of
    bytes. *)
Lemma pcm_to_float32_even (b : bytes) :
  (0 < List.length b)%nat -> Nat.even (List.length b) = true ->
  exists pcm, pcm_to_float32 b = (pcm, [])
    /\ pcm <> []
    /\ List.length pcm = (List.length b / 2)%nat
    /\ forall i, (i < List.length b / 2)%nat ->
         denotes (nth i pcm zero)
                 (int16_le (nth (2 * i) b x00) (nth (2 * i + 1) b x00))
                 32768 = true.
Proof.
  intros Hpos Heven.
  destruct (frombuffer_even b Heven) as (zs & Hzs & Hlen & Hnth).
  unfold pcm_to_float32. rewrite Hzs.
  destruct zs as [|z zs'] eqn:E.
  - exfalso. cbn [List.length] in Hlen.
    assert (2 <= List.length b)%nat as H2
      by (destruct b as [|x [|y l]]; cbn in *; try lia; discriminate).
    pose proof (Nat.div_le_lower_bound (List.length b) 2 1). lia.
  - rewrite <- E in *. exists (List.map sample_of zs).
    repeat split.
    + rewrite E. discriminate.
    + rewrite length_map. exact Hlen.
    + intros i Hi. rewrite <- Hlen in Hi.
      replace zero with (sample_of 0) by reflexivity.
      rewrite map_nth, (Hnth i Hi). apply sample_exact.
Qed.

Lemma pcm_to_float32_odd (b : bytes) :
  Nat.even (List.length b) = false ->
  pcm_to_float32 b = ([], [Log ERROR PcmConversionError]).
Proof.
  intro H. unfold pcm_to_float32. rewrite (frombuffer_odd b H). reflexivity.
Qed.

End PcmFacts.

(** ** Stripping *)

Section StripFacts.
Import PyStr Episode.

Lemma lstrip_blank (s : str) : blank s = true -> lstrip s = [].
Proof.
  induction s as [|c s IH]; [reflexivity|].
  cbn [blank forallb lstrip]. intros H.
  apply andb_prop in H as [Hc Hs]. rewrite Hc. exact (IH Hs).
Qed.

Lemma strip_blank (s : str) : blank s = true -> strip s = [].
Proof. intro H. unfold strip. rewrite (lstrip_blank s H). reflexivity. Qed.

Lemma kept_fragments_blank (texts : list str) :
  forallb blank texts = true -> kept_fragments texts = [].
Proof.
  induction texts as [|t texts IH]; [reflexivity|].
  cbn [forallb]. intros H. apply andb_prop in H as [Ht Hts].
  unfold kept_fragments in *. cbn [List.map List.filter].
  rewrite (strip_blank t Ht). cbn [truthy]. exact (IH Hts).
Qed.

Lemma strip_clean (s : str) : clean s = true -> strip s = s.
Proof.
  unfold clean, strip, rstrip. intros H.
  destruct s as [|c t]; [discriminate|].
  destruct (rev (c :: t)) as [|d r] eqn:E; [discriminate|].
  apply andb_prop in H as [Hc Hd].
  apply negb_true_iff in Hc, Hd.
  cbn [lstrip]. rewrite Hc, E. cbn [lstrip]. rewrite Hd, <- E.
  apply rev_involutive.
Qed.

Lemma lstrip_nil_blank (s : str) : lstrip s = [] -> blank s = true.
Proof.
  induction s as [|c s IH]; [reflexivity|].
  cbn [lstrip blank forallb]. destruct (isspace c); [exact IH | discriminate].
Qed.

Lemma lstrip_head (s : str) c t : lstrip s = c :: t -> isspace c = false.
Proof.
  induction s as [|d s IH]; [discriminate|].
  cbn [lstrip]. destruct (isspace d) eqn:E; [exact IH|].
  intro H. injection H as <- _. exact E.
Qed.

(** The fragments that strip to nothing are the blank ones. *)
Lemma strip_nil_blank (s : str) : strip s = [] -> blank s = true.
Proof.
  unfold strip, rstrip. intro H.
  destruct (lstrip s) as [|c t] eqn:E; [exact (lstrip_nil_blank s E)|].
  exfalso. pose proof (lstrip_head s c t E) as Hc.
  assert (lstrip (rev (c :: t)) = []) as Hr
    by (apply (f_equal (@rev char)) in H; rewrite rev_involutive in H;
        exact H).
  apply lstrip_nil_blank in Hr. unfold blank in Hr.
  rewrite forallb_forall in Hr.
  specialize (Hr c). rewrite <- in_rev in Hr.
  rewrite (Hr (or_introl eq_refl)) in Hc. discriminate.
Qed.

Lemma kept_fragments_nil (texts : list str) :
  kept_fragments texts = [] <-> forallb blank texts = true.
Proof.
  split; [|apply kept_fragments_blank].
  induction texts as [|t texts IH]; [reflexivity|].
  unfold kept_fragments in *. cbn [List.map List.filter forallb].
  destruct (strip t) as [|c r] eqn:E; cbn [truthy]; [|discriminate].
  intro H. rewrite (strip_nil_blank t E), (IH H). reflexivity.
Qed.

Lemma kept_fragments_clean (texts : list str) :
  forallb clean texts = true -> kept_fragments texts = texts.
Proof.
  induction texts as [|t texts IH]; [reflexivity|].
  cbn [forallb]. intros H. apply andb_prop in H as [Ht Hts].
  unfold kept_fragments in *. cbn [List.map List.filter].
  rewrite (strip_clean t Ht), (IH Hts).
  destruct t; [discriminate Ht | reflexivity].
Qed.

End StripFacts.

(** ** The receiver *)

Section ReceiverFacts.
Import PyStr Receiver Episode.

Variable session_num : nat.

Local Arguments strip : simpl never.
Local Arguments join : simpl never.
Local Arguments lit : simpl never.

Lemma enqueued_app (a b : list Effect) :
  enqueued (a ++ b) = enqueued a ++ enqueued b.
Proof.
  induction a as [|e a IH]; [reflexivity|].
  destruct e; cbn [app enqueued]; rewrite IH; reflexivity.
Qed.

Lemma source_sentences_app (a b : list Effect) :
  source_sentences (a ++ b) = source_sentences a ++ source_sentences b.
Proof.
  induction a as [|e a IH]; [reflexivity|].
  destruct e; cbn [app source_sentences]; rewrite IH; reflexivity.
Qed.

Lemma translation_sentences_app (a b : list Effect) :
  translation_sentences (a ++ b)
  = translation_sentences a ++ translation_sentences b.
Proof.
  induction a as [|e a IH]; [reflexivity|].
  destruct e; cbn [app translation_sentences]; rewrite IH; reflexivity.
Qed.

(** Running over two batches is running over the first and, unless the
    task ended, going on with the second. *)
Lemma run_app (a b : list Incoming) : forall self loc,
  run self loc session_num (a ++ b) =
  match run self loc session_num a with
  | (self1, loc1, eff1, Receiving) =>
      let '(self2, loc2, eff2, st) := run self1 loc1 session_num b in
      (self2, loc2, eff1 ++ eff2, st)
  | ended => ended
  end.
Proof.
  induction a as [|i a IH]; intros self loc.
  - cbn [app run]. destruct (run self loc session_num b) as [[[? ?] ?] ?].
    reflexivity.
  - destruct i as [resp|]; cbn [app run].
    + destruct (step self loc session_num resp) as [[[s1 l1] e1] c].
      destruct c.
      * rewrite IH.
        destruct (run s1 l1 session_num a) as [[[s2 l2] e2] st].
        destruct st.
        -- destruct (run s2 l2 session_num b) as [[[s3 l3] e3] st3].
           rewrite app_assoc. reflexivity.
        -- reflexivity.
      * destruct (cleanup s1 session_num). reflexivity.
    + destruct (cleanup self session_num). reflexivity.
Qed.


Lemma pcm_logs_only (b : bytes) :
  enqueued (snd (Pcm.pcm_to_float32 b)) = []
  /\ source_sentences (snd (Pcm.pcm_to_float32 b)) = []
  /\ translation_sentences (snd (Pcm.pcm_to_float32 b)) = [].
Proof.
  unfold Pcm.pcm_to_float32.
  destruct (Pcm.frombuffer_int16 b) as [[|z zs]|]; cbn; auto.
Qed.

Lemma strip_nil : strip [] = [].
Proof. reflexivity. Qed.

Lemma kept_fragments_one (t : str) :
  kept_fragments [t]
  = if truthy t && truthy (strip t) then [strip t] else [].
Proof.
  unfold kept_fragments. cbn [List.map List.filter].
  destruct t as [|c t]; [reflexivity|].
  cbn [truthy andb]. reflexivity.
Qed.

Lemma kept_fragments_app (a b : list str) :
  kept_fragments (a ++ b) = kept_fragments a ++ kept_fragments b.
Proof. unfold kept_fragments. rewrite map_app, filter_app. reflexivity. Qed.

Ltac step_cases r :=
  let e := fresh "e" in
  destruct r as [e sq msg dat txt muted];
  destruct e; cbn in *; try discriminate.

(** A response inside a TTS sentence only ever extends the assembly. *)
Lemma step_inside_sentence self loc r s :
  inside_sentence r = true -> current_seq loc = Some s ->
  exists self' eff,
    step self loc session_num r
    = (self', mkLocals (Some s) (current_data loc ++ payload [r])
                       (sentence_count loc), eff, Next)
    /\ enqueued eff = [].
Proof.
  intros Hin Hseq. destruct loc as [cs cd cnt]. cbn in Hseq. subst cs.
  step_cases r; rewrite ?app_nil_r;
    try (do 2 eexists; split; reflexivity).
  - destruct dat; cbn; rewrite ?app_nil_r; do 2 eexists; split; reflexivity.
  - destruct (truthy txt && truthy (strip txt));
      do 2 eexists; split; reflexivity.
  - destruct (nonempty (source_text_buffer self));
      [destruct (on_source_sentence self)|];
      do 2 eexists; split; reflexivity.
  - destruct (truthy txt && truthy (strip txt));
      do 2 eexists; split; reflexivity.
  - destruct (nonempty (translation_text_buffer self));
      [destruct (on_translation_sentence self)|];
      do 2 eexists; split; reflexivity.
Qed.

Lemma run_inside_sentence (mid : list TranslateResponse) :
  forall self loc s,
    forallb inside_sentence mid = true -> current_seq loc = Some s ->
    exists self1 eff1,
      run self loc session_num (List.map Response mid)
      = (self1, mkLocals (Some s) (current_data loc ++ payload mid)
                         (sentence_count loc), eff1, Receiving)
      /\ enqueued eff1 = [].
Proof.
  induction mid as [|r mid IH]; intros self loc s Hall Hseq.
  - exists self, []. destruct loc as [cs cd cnt]. cbn in *. subst.
    rewrite app_nil_r. auto.
  - cbn [forallb] in Hall. apply andb_prop in Hall as [Hr Hmid].
    destruct (step_inside_sentence self loc r s Hr Hseq)
      as (self1 & eff1 & Hstep & Heff1).
    cbn [List.map run]. rewrite Hstep.
    destruct (IH self1 (mkLocals (Some s) (current_data loc ++ payload [r])
                                 (sentence_count loc)) s Hmid eq_refl)
      as (self2 & eff2 & Hrun & Heff2).
    rewrite Hrun. exists self2, (eff1 ++ eff2). split.
    + cbn [current_data sentence_count]. rewrite <- app_assoc.
      replace (payload [r] ++ payload mid) with (payload (r :: mid)); auto.
      cbn [payload]. destruct (event r); rewrite ?app_nil_r; reflexivity.
    + rewrite enqueued_app, Heff1, Heff2. reflexivity.
Qed.


(** A response inside a source subtitle only ever adds its kept
    fragment, and calls nothing. *)
Lemma step_inside_source self loc r :
  inside_source r = true ->
  exists self' loc' eff,
    step self loc session_num r = (self', loc', eff, Next)
    /\ source_text_buffer self'
       = source_text_buffer self ++ kept_fragments (source_texts [r])
    /\ on_source_sentence self' = on_source_sentence self
    /\ source_sentences eff = [].
Proof.
  intros Hin. destruct self, loc as [cs cd cnt].
  destruct r as [e sq msg dat txt muted].
  destruct e; try discriminate Hin;
    cbn [step event source_texts text data Message Sequence];
    rewrite ?kept_fragments_one;
    change (kept_fragments []) with (@nil str);
    repeat match goal with
      | |- context [match ?c with Some _ => _ | None => _ end] => destruct c
      | |- context [Pcm.pcm_to_float32 ?b] =>
          let H := fresh in
          pose proof (pcm_logs_only b) as H;
          destruct (Pcm.pcm_to_float32 b); cbn [snd] in H
      | |- context [if ?c then _ else _] => destruct c
      end;
    do 3 eexists; repeat split; cbn; rewrite ?app_nil_r;
    rewrite ?source_sentences_app; try tauto; try reflexivity.
  all: match goal with H : _ /\ _ /\ _ |- _ => destruct H as (_ & -> & _) end;
    reflexivity.
Qed.

Lemma step_inside_translation self loc r :
  inside_translation r = true ->
  exists self' loc' eff,
    step self loc session_num r = (self', loc', eff, Next)
    /\ translation_text_buffer self'
       = translation_text_buffer self
           ++ kept_fragments (translation_texts [r])
    /\ on_translation_sentence self' = on_translation_sentence self
    /\ translation_sentences eff = [].
Proof.
  intros Hin. destruct self, loc as [cs cd cnt].
  destruct r as [e sq msg dat txt muted].
  destruct e; try discriminate Hin;
    cbn [step event translation_texts text data Message Sequence];
    rewrite ?kept_fragments_one;
    change (kept_fragments []) with (@nil str);
    repeat match goal with
      | |- context [match ?c with Some _ => _ | None => _ end] => destruct c
      | |- context [Pcm.pcm_to_float32 ?b] =>
          let H := fresh in
          pose proof (pcm_logs_only b) as H;
          destruct (Pcm.pcm_to_float32 b); cbn [snd] in H
      | |- context [if ?c then _ else _] => destruct c
      end;
    do 3 eexists; repeat split; cbn; rewrite ?app_nil_r;
    rewrite ?translation_sentences_app; try tauto; try reflexivity.
  all: match goal with H : _ /\ _ /\ _ |- _ => destruct H as (_ & _ & ->) end;
    reflexivity.
Qed.


Lemma source_texts_cons r mid :
  source_texts (r :: mid) = source_texts [r] ++ source_texts mid.
Proof. cbn [source_texts]. destruct (event r); reflexivity. Qed.

Lemma translation_texts_cons r mid :
  translation_texts (r :: mid)
  = translation_texts [r] ++ translation_texts mid.
Proof. cbn [translation_texts]. destruct (event r); reflexivity. Qed.

Lemma run_inside_source (mid : list TranslateResponse) :
  forall self loc,
    forallb inside_source mid = true ->
    exists self1 loc1 eff1,
      run self loc session_num (List.map Response mid)
      = (self1, loc1, eff1, Receiving)
      /\ source_text_buffer self1
         = source_text_buffer self ++ kept_fragments (source_texts mid)
      /\ on_source_sentence self1 = on_source_sentence self
      /\ source_sentences eff1 = [].
Proof.
  induction mid as [|r mid IH]; intros self loc Hall.
  - exists self, loc, []. cbn. rewrite app_nil_r. auto.
  - cbn [forallb] in Hall. apply andb_prop in Hall as [Hr Hmid].
    destruct (step_inside_source self loc r Hr)
      as (self1 & loc1 & eff1 & Hstep & Hbuf1 & Hcb1 & Heff1).
    destruct (IH self1 loc1 Hmid)
      as (self2 & loc2 & eff2 & Hrun & Hbuf2 & Hcb2 & Heff2).
    cbn [List.map run]. rewrite Hstep, Hrun.
    exists self2, loc2, (eff1 ++ eff2). repeat split.
    + rewrite Hbuf2, Hbuf1, (source_texts_cons r mid), kept_fragments_app.
      rewrite app_assoc. reflexivity.
    + congruence.
    + rewrite source_sentences_app, Heff1, Heff2. reflexivity.
Qed.

Lemma run_inside_translation (mid : list TranslateResponse) :
  forall self loc,
    forallb inside_translation mid = true ->
    exists self1 loc1 eff1,
      run self loc session_num (List.map Response mid)
      = (self1, loc1, eff1, Receiving)
      /\ translation_text_buffer self1
         = translation_text_buffer self
             ++ kept_fragments (translation_texts mid)
      /\ on_translation_sentence self1 = on_translation_sentence self
      /\ translation_sentences eff1 = [].
Proof.
  induction mid as [|r mid IH]; intros self loc Hall.
  - exists self, loc, []. cbn. rewrite app_nil_r. auto.
  - cbn [forallb] in Hall. apply andb_prop in Hall as [Hr Hmid].
    destruct (step_inside_translation self loc r Hr)
      as (self1 & loc1 & eff1 & Hstep & Hbuf1 & Hcb1 & Heff1).
    destruct (IH self1 loc1 Hmid)
      as (self2 & loc2 & eff2 & Hrun & Hbuf2 & Hcb2 & Heff2).
    cbn [List.map run]. rewrite Hstep, Hrun.
    exists self2, loc2, (eff1 ++ eff2). repeat split.
    + rewrite Hbuf2, Hbuf1, (translation_texts_cons r mid),
        kept_fragments_app.
      rewrite app_assoc. reflexivity.
    + congruence.
    + rewrite translation_sentences_app, Heff1, Heff2. reflexivity.
Qed.

(** What a whole source episode emits, by what the fragment list is
    when the closing event arrives. *)
Lemma source_episode self loc start mid stop :
  event start = SourceSubtitleStart ->
  forallb inside_source mid = true ->
  event stop = SourceSubtitleEnd ->
  exists self' loc' eff,
    run self loc session_num (List.map Response (start :: mid ++ [stop]))
    = (self', loc', eff, Receiver.Receiving)
    /\ source_sentences eff
       = match kept_fragments (source_texts mid) with
         | [] => []
         | kept => if on_source_sentence self then [join [] kept] else []
         end.
Proof.
  intros Hstart Hmid Hstop.
  cbn [List.map run]. unfold step at 1. rewrite Hstart.
  rewrite map_app, run_app.
  destruct (run_inside_source mid (set_source_text_buffer [] self) loc Hmid)
    as (self1 & loc1 & eff1 & Hrun & Hbuf & Hcb & Heff).
  rewrite Hrun. cbn [List.map run]. unfold step. rewrite Hstop.
  replace (source_text_buffer (set_source_text_buffer [] self)) with (@nil str)
    in Hbuf by (destruct self; reflexivity).
  replace (on_source_sentence (set_source_text_buffer [] self))
    with (on_source_sentence self) in Hcb by (destruct self; reflexivity).
  cbn [app] in Hbuf. rewrite Hbuf, Hcb.
  destruct (kept_fragments (source_texts mid)) as [|k ks].
  - cbn [nonempty]. do 3 eexists. split; [reflexivity|].
    cbn [app]. rewrite app_nil_r. exact Heff.
  - cbn [nonempty]. do 3 eexists. split; [reflexivity|].
    cbn [app]. rewrite source_sentences_app, Heff.
    destruct (on_source_sentence self); reflexivity.
Qed.

Lemma translation_episode self loc start mid stop :
  event start = TranslationSubtitleStart ->
  forallb inside_translation mid = true ->
  event stop = TranslationSubtitleEnd ->
  exists self' loc' eff,
    run self loc session_num (List.map Response (start :: mid ++ [stop]))
    = (self', loc', eff, Receiver.Receiving)
    /\ translation_sentences eff
       = match kept_fragments (translation_texts mid) with
         | [] => []
         | kept =>
             if on_translation_sentence self then [join (lit " ") kept]
             else []
         end.
Proof.
  intros Hstart Hmid Hstop.
  cbn [List.map run]. unfold step at 1. rewrite Hstart.
  rewrite map_app, run_app.
  destruct (run_inside_translation mid
              (set_translation_text_buffer [] self) loc Hmid)
    as (self1 & loc1 & eff1 & Hrun & Hbuf & Hcb & Heff).
  rewrite Hrun. cbn [List.map run]. unfold step. rewrite Hstop.
  replace (translation_text_buffer (set_translation_text_buffer [] self))
    with (@nil str) in Hbuf by (destruct self; reflexivity).
  replace (on_translation_sentence (set_translation_text_buffer [] self))
    with (on_translation_sentence self) in Hcb
    by (destruct self; reflexivity).
  cbn [app] in Hbuf. rewrite Hbuf, Hcb.
  destruct (kept_fragments (translation_texts mid)) as [|k ks].
  - cbn [nonempty]. do 3 eexists. split; [reflexivity|].
    cbn [app]. rewrite app_nil_r. exact Heff.
  - cbn [nonempty]. do 3 eexists. split; [reflexivity|].
    cbn [app]. rewrite translation_sentences_app, Heff.
    destruct (on_translation_sentence self); reflexivity.
Qed.

End ReceiverFacts.

(** C1 (as amended).  A [TTSSentenceStart], then responses among which the
    [TTSResponse] payloads concatenate to a non-empty buffer of even
    length [B], then a [TTSSentenceEnd]: the receiver, still running,
    has made exactly one playback enqueue; its vector has [B / 2] samples
    and the [i]-th denotes the [i]-th little-endian signed 16-bit integer
    of the buffer over 32768. *)
Theorem tts_sentence_enqueued_once :
  forall (self : Translator) (loc : Receiver.Locals) (session_num : nat)
         (start stop : Receiver.TranslateResponse)
         (mid : list Receiver.TranslateResponse),
    Receiver.event start = Receiver.TTSSentenceStart ->
    forallb Episode.inside_sentence mid = true ->
    Receiver.event stop = Receiver.TTSSentenceEnd ->
    (0 < List.length (Episode.payload mid))%nat ->
    Nat.even (List.length (Episode.payload mid)) = true ->
    exists self' loc' eff pcm,
      Receiver.run self loc session_num
        (List.map Receiver.Response (start :: mid ++ [stop]))
      = (self', loc', eff, Receiver.Receiving)
      /\ Receiver.enqueued eff = [pcm]
      /\ List.length pcm = (List.length (Episode.payload mid) / 2)%nat
      /\ forall i, (i < List.length (Episode.payload mid) / 2)%nat ->
           Float32.denotes (nth i pcm Float32.zero)
             (Pcm.int16_le (nth (2 * i) (Episode.payload mid) x00)
                           (nth (2 * i + 1) (Episode.payload mid) x00))
             32768 = true.
Proof.
  intros self loc n start stop mid Hstart Hmid Hstop Hpos Heven.
  destruct (pcm_to_float32_even (Episode.payload mid) Hpos Heven)
    as (pcm & Hpcm & Hne & Hlen & Hval).
  cbn [List.map Receiver.run]. unfold Receiver.step at 1. rewrite Hstart.
  rewrite map_app, run_app.
  destruct (run_inside_sentence n mid self
              (Receiver.mkLocals (Some (Receiver.Sequence start)) []
                                 (Receiver.sentence_count loc))
              (Receiver.Sequence start) Hmid eq_refl)
    as (self1 & eff1 & Hrun & Heff1).
  rewrite Hrun. cbn [List.map Receiver.run Receiver.current_data app].
  unfold Receiver.step. rewrite Hstop.
  cbn [Receiver.current_seq Receiver.current_data Receiver.sentence_count].
  destruct (Episode.payload mid) as [|b0 bs] eqn:E; [inversion Hpos|].
  cbn [Receiver.nonempty]. rewrite Hpcm.
  destruct pcm as [|x pcm']; [congruence|]. cbn [Receiver.nonempty].
  do 3 eexists. exists (x :: pcm'). split; [reflexivity|].
  split; [|split; assumption].
  cbn [app]. rewrite ?app_nil_r, enqueued_app, Heff1. reflexivity.
Qed.

Lemma tts_sentence_enqueued_once_witness :
  exists self' loc' eff pcm,
    Receiver.run Scenario.subscribed Receiver.init_locals 1
      (List.map Receiver.Response
         (Scenario.sentence_start :: Scenario.sentence ++ [Scenario.sentence_end]))
    = (self', loc', eff, Receiver.Receiving)
    /\ Receiver.enqueued eff = [pcm]
    /\ List.length pcm = 2%nat.
Proof.
  destruct (tts_sentence_enqueued_once Scenario.subscribed Receiver.init_locals
              1 Scenario.sentence_start Scenario.sentence_end Scenario.sentence
              eq_refl eq_refl eq_refl)
    as (self' & loc' & eff & pcm & Hrun & Henq & Hlen & _).
  - cbn. lia.
  - reflexivity.
  - exists self', loc', eff, pcm. auto.
Defined.

(** The third scenario of the specification: the two payloads are played
    as 0.125 and 0.25. *)
Example tts_scenario :
  Receiver.enqueued
    (Receiver.effects_of
       (Receiver.run Scenario.subscribed Receiver.init_locals 1
          (List.map Receiver.Response
             (Scenario.sentence_start
                :: Scenario.sentence ++ [Scenario.sentence_end]))))
  = [[S754_finite false 8388608 (-26); S754_finite false 8388608 (-25)]].
Proof. vm_compute. reflexivity. Qed.

(** C1, as stated, fails: a sentence without payload, and one whose
    payload has an odd number of bytes, are not enqueued at all. *)
Lemma tts_sentence_not_always_enqueued :
  Receiver.enqueued
    (Receiver.effects_of
       (Receiver.run Scenario.subscribed Receiver.init_locals 1
          [Receiver.tts_start 7; Receiver.ev Receiver.TTSSentenceEnd])) = []
  /\ Receiver.enqueued
       (Receiver.effects_of
          (Receiver.run Scenario.subscribed Receiver.init_locals 1
             [Receiver.tts_start 7; Receiver.tts_data [x00; x10; x00];
              Receiver.ev Receiver.TTSSentenceEnd])) = [].
Proof. split; vm_compute; reflexivity. Qed.

(** The other sentences: without payload, or with an odd number of
    payload bytes, nothing is enqueued. *)
Lemma tts_sentence_dropped :
  forall (self : Translator) (loc : Receiver.Locals) (session_num : nat)
         (start stop : Receiver.TranslateResponse)
         (mid : list Receiver.TranslateResponse),
    Receiver.event start = Receiver.TTSSentenceStart ->
    forallb Episode.inside_sentence mid = true ->
    Receiver.event stop = Receiver.TTSSentenceEnd ->
    Episode.payload mid = []
      \/ Nat.even (List.length (Episode.payload mid)) = false ->
    exists self' loc' eff,
      Receiver.run self loc session_num
        (List.map Receiver.Response (start :: mid ++ [stop]))
      = (self', loc', eff, Receiver.Receiving)
      /\ Receiver.enqueued eff = [].
Proof.
  intros self loc n start stop mid Hstart Hmid Hstop Hbad.
  cbn [List.map Receiver.run]. unfold Receiver.step at 1. rewrite Hstart.
  rewrite map_app, run_app.
  destruct (run_inside_sentence n mid self
              (Receiver.mkLocals (Some (Receiver.Sequence start)) []
                                 (Receiver.sentence_count loc))
              (Receiver.Sequence start) Hmid eq_refl)
    as (self1 & eff1 & Hrun & Heff1).
  rewrite Hrun. cbn [List.map Receiver.run Receiver.current_data app].
  unfold Receiver.step. rewrite Hstop.
  cbn [Receiver.current_seq Receiver.current_data Receiver.sentence_count].
  destruct Hbad as [Hnil | Hodd].
  - rewrite Hnil. cbn [Receiver.nonempty]. do 3 eexists.
    split; [reflexivity|]. cbn [app]. rewrite app_nil_r. exact Heff1.
  - destruct (Episode.payload mid) as [|b0 bs] eqn:E; [discriminate|].
    cbn [Receiver.nonempty]. rewrite (pcm_to_float32_odd (b0 :: bs) Hodd).
    cbn [Receiver.nonempty]. do 3 eexists. split; [reflexivity|].
    cbn [app]. rewrite enqueued_app, Heff1. reflexivity.
Qed.

(** C2 (as amended).  With a callback installed, a source episode whose
    fragments are not all blank calls [on_source_sentence] exactly once,
    with the stripped non-empty fragments joined without separator; a
    translation episode calls [on_translation_sentence] exactly once,
    with them joined by one space. *)
Theorem subtitle_join_law :
  forall (self : Translator) (loc : Receiver.Locals) (session_num : nat),
    (forall (start stop : Receiver.TranslateResponse)
            (mid : list Receiver.TranslateResponse),
     Receiver.event start = Receiver.SourceSubtitleStart ->
     forallb Episode.inside_source mid = true ->
     Receiver.event stop = Receiver.SourceSubtitleEnd ->
     on_source_sentence self = true ->
     Episode.kept_fragments (Episode.source_texts mid) <> [] ->
     exists self' loc' eff,
       Receiver.run self loc session_num
         (List.map Receiver.Response (start :: mid ++ [stop]))
       = (self', loc', eff, Receiver.Receiving)
       /\ Receiver.source_sentences eff
          = [PyStr.join [] (Episode.kept_fragments (Episode.source_texts mid))])
    /\
    (forall (start stop : Receiver.TranslateResponse)
            (mid : list Receiver.TranslateResponse),
     Receiver.event start = Receiver.TranslationSubtitleStart ->
     forallb Episode.inside_translation mid = true ->
     Receiver.event stop = Receiver.TranslationSubtitleEnd ->
     on_translation_sentence self = true ->
     Episode.kept_fragments (Episode.translation_texts mid) <> [] ->
     exists self' loc' eff,
       Receiver.run self loc session_num
         (List.map Receiver.Response (start :: mid ++ [stop]))
       = (self', loc', eff, Receiver.Receiving)
       /\ Receiver.translation_sentences eff
          = [PyStr.join (PyStr.lit " ")
               (Episode.kept_fragments (Episode.translation_texts mid))]).
Proof.
  intros self loc n. split;
    intros start stop mid Hstart Hmid Hstop Hcb Hkept.
  - destruct (source_episode n self loc start mid stop Hstart Hmid Hstop)
      as (self' & loc' & eff & Hrun & Heff).
    exists self', loc', eff. split; [exact Hrun|].
    rewrite Heff, Hcb.
    destruct (Episode.kept_fragments (Episode.source_texts mid));
      [contradiction | reflexivity].
  - destruct (translation_episode n self loc start mid stop Hstart Hmid Hstop)
      as (self' & loc' & eff & Hrun & Heff).
    exists self', loc', eff. split; [exact Hrun|].
    rewrite Heff, Hcb.
    destruct (Episode.kept_fragments (Episode.translation_texts mid));
      [contradiction | reflexivity].
Qed.

(** For fragments that are non-empty and carry no whitespace at either
    end, what is emitted is the plain join of the fragments as sent. *)
Lemma subtitle_join_clean :
  forall (self : Translator) (loc : Receiver.Locals) (session_num : nat)
         (start stop : Receiver.TranslateResponse)
         (mid : list Receiver.TranslateResponse),
    Receiver.event start = Receiver.SourceSubtitleStart ->
    forallb Episode.inside_source mid = true ->
    Receiver.event stop = Receiver.SourceSubtitleEnd ->
    on_source_sentence self = true ->
    Episode.source_texts mid <> [] ->
    forallb Episode.clean (Episode.source_texts mid) = true ->
    exists self' loc' eff,
      Receiver.run self loc session_num
        (List.map Receiver.Response (start :: mid ++ [stop]))
      = (self', loc', eff, Receiver.Receiving)
      /\ Receiver.source_sentences eff
         = [PyStr.join [] (Episode.source_texts mid)].
Proof.
  intros self loc n start stop mid Hstart Hmid Hstop Hcb Hne Hclean.
  destruct (source_episode n self loc start mid stop Hstart Hmid Hstop)
    as (self' & loc' & eff & Hrun & Heff).
  exists self', loc', eff. split; [exact Hrun|].
  rewrite Heff, Hcb, (kept_fragments_clean _ Hclean).
  destruct (Episode.source_texts mid); [contradiction | reflexivity].
Qed.

(** C10.  An episode whose fragments are all empty or blank, or that has
    none, calls nothing. *)
Theorem blank_subtitles_call_nothing :
  forall (self : Translator) (loc : Receiver.Locals) (session_num : nat),
    (forall (start stop : Receiver.TranslateResponse)
            (mid : list Receiver.TranslateResponse),
     Receiver.event start = Receiver.SourceSubtitleStart ->
     forallb Episode.inside_source mid = true ->
     Receiver.event stop = Receiver.SourceSubtitleEnd ->
     forallb PyStr.blank (Episode.source_texts mid) = true ->
     exists self' loc' eff,
       Receiver.run self loc session_num
         (List.map Receiver.Response (start :: mid ++ [stop]))
       = (self', loc', eff, Receiver.Receiving)
       /\ Receiver.source_sentences eff = [])
    /\
    (forall (start stop : Receiver.TranslateResponse)
            (mid : list Receiver.TranslateResponse),
     Receiver.event start = Receiver.TranslationSubtitleStart ->
     forallb Episode.inside_translation mid = true ->
     Receiver.event stop = Receiver.TranslationSubtitleEnd ->
     forallb PyStr.blank (Episode.translation_texts mid) = true ->
     exists self' loc' eff,
       Receiver.run self loc session_num
         (List.map Receiver.Response (start :: mid ++ [stop]))
       = (self', loc', eff, Receiver.Receiving)
       /\ Receiver.translation_sentences eff = []).
Proof.
  intros self loc n. split;
    intros start stop mid Hstart Hmid Hstop Hblank.
  - destruct (source_episode n self loc start mid stop Hstart Hmid Hstop)
      as (self' & loc' & eff & Hrun & Heff).
    exists self', loc', eff. split; [exact Hrun|].
    rewrite Heff, (kept_fragments_blank _ Hblank). reflexivity.
  - destruct (translation_episode n self loc start mid stop Hstart Hmid Hstop)
      as (self' & loc' & eff & Hrun & Heff).
    exists self', loc', eff. split; [exact Hrun|].
    rewrite Heff, (kept_fragments_blank _ Hblank). reflexivity.
Qed.

Lemma subtitle_join_law_witness :
  (exists self' loc' eff,
     Receiver.run Scenario.subscribed Receiver.init_locals 1
       (Scenario.episode Receiver.SourceSubtitleStart Scenario.source_mid
                         Receiver.SourceSubtitleEnd)
     = (self', loc', eff, Receiver.Receiving)
     /\ Receiver.source_sentences eff
        = [(Scenario.ni_hao ++ Scenario.shi_jie)%list])
  /\ (exists self' loc' eff,
        Receiver.run Scenario.subscribed Receiver.init_locals 1
          (Scenario.episode Receiver.TranslationSubtitleStart
                            Scenario.translation_mid
                            Receiver.TranslationSubtitleEnd)
        = (self', loc', eff, Receiver.Receiving)
        /\ Receiver.translation_sentences eff = [PyStr.lit "Hello world"]).
Proof.
  destruct (subtitle_join_law Scenario.subscribed Receiver.init_locals 1)
    as [Hsource Htranslation].
  split.
  - apply (Hsource (Scenario.fragment Receiver.SourceSubtitleStart [])
                   (Scenario.fragment Receiver.SourceSubtitleEnd [])
                   Scenario.source_mid);
      try reflexivity.
    vm_compute. discriminate.
  - apply (Htranslation
             (Scenario.fragment Receiver.TranslationSubtitleStart [])
             (Scenario.fragment Receiver.TranslationSubtitleEnd [])
             Scenario.translation_mid);
      try reflexivity.
    vm_compute. discriminate.
Defined.

(** C2, as stated, fails: the fragments ["Hello "; "world"] are emitted
    as "Helloworld", not as their concatenation, and the translation
    fragments ["Hello"; " "; "world"] as "Hello world", not with a space
    between each two of the three. *)
Lemma subtitle_join_strips_fragments :
  Receiver.source_sentences
    (Receiver.effects_of
       (Receiver.run Scenario.subscribed Receiver.init_locals 1
          (Scenario.episode Receiver.SourceSubtitleStart
             Scenario.padded_source_mid Receiver.SourceSubtitleEnd)))
  = [PyStr.lit "Helloworld"]
  /\ PyStr.lit "Helloworld" <> (PyStr.lit "Hello " ++ PyStr.lit "world")%list
  /\ Receiver.translation_sentences
       (Receiver.effects_of
          (Receiver.run Scenario.subscribed Receiver.init_locals 1
             (Scenario.episode Receiver.TranslationSubtitleStart
                Scenario.spaced_translation_mid
                Receiver.TranslationSubtitleEnd)))
     = [PyStr.lit "Hello world"]
  /\ PyStr.lit "Hello world"
     <> (PyStr.lit "Hello" ++ PyStr.lit " " ++ PyStr.lit " " ++ PyStr.lit " "
           ++ PyStr.lit "world")%list.
Proof.
  repeat split; try (vm_compute; reflexivity); vm_compute; discriminate.
Qed.

Lemma blank_subtitles_call_nothing_witness :
  (exists self' loc' eff,
     Receiver.run Scenario.subscribed Receiver.init_locals 1
       (Scenario.episode Receiver.SourceSubtitleStart
          (Scenario.blank_mid Receiver.SourceSubtitleResponse)
          Receiver.SourceSubtitleEnd)
     = (self', loc', eff, Receiver.Receiving)
     /\ Receiver.source_sentences eff = [])
  /\ (exists self' loc' eff,
        Receiver.run Scenario.subscribed Receiver.init_locals 1
          (Scenario.episode Receiver.TranslationSubtitleStart
             (Scenario.blank_mid Receiver.TranslationSubtitleResponse)
             Receiver.TranslationSubtitleEnd)
        = (self', loc', eff, Receiver.Receiving)
        /\ Receiver.translation_sentences eff = []).
Proof.
  destruct (blank_subtitles_call_nothing Scenario.subscribed
              Receiver.init_locals 1) as [Hsource Htranslation].
  split.
  - apply (Hsource (Scenario.fragment Receiver.SourceSubtitleStart [])
                   (Scenario.fragment Receiver.SourceSubtitleEnd [])
                   (Scenario.blank_mid Receiver.SourceSubtitleResponse));
      reflexivity.
  - apply (Htranslation
             (Scenario.fragment Receiver.TranslationSubtitleStart [])
             (Scenario.fragment Receiver.TranslationSubtitleEnd [])
             (Scenario.blank_mid Receiver.TranslationSubtitleResponse));
      reflexivity.
Defined.

(** ** The playback FIFO *)

Section PlayerFacts.
Import Float32 Player.

Variable fade_mul : nat -> nat -> float32 -> float32.
Variable fade_out : float32 -> nat -> nat -> float32.


Lemma scale_from_length n k tail :
  List.length (scale_from fade_mul n k tail) = List.length tail.
Proof.
  revert k. induction tail as [|x tail IH]; intro k; cbn; auto.
Qed.

(** The fade keeps the number of samples. *)
Lemma apply_fade_length pcm :
  List.length (apply_fade fade_mul pcm) = List.length pcm.
Proof.
  unfold apply_fade. destruct (Nat.ltb 96 (List.length pcm)); auto.
  rewrite length_app, scale_from_length, length_firstn, length_skipn. lia.
Qed.

Lemma fill_shrinks buf : forall needed out last,
  (List.length (fst (fst (fill buf needed out last))) <= List.length buf)%nat.
Proof.
  induction buf as [|chunk rest IH]; intros needed out last; cbn [fill].
  - cbn. lia.
  - destruct (Nat.eqb needed 0); [cbn; lia|].
    destruct (Nat.ltb _ (List.length chunk)); [cbn; lia|].
    cbn [List.length]. specialize (IH (needed - Nat.min (List.length chunk) needed)%nat
      (out ++ firstn (Nat.min (List.length chunk) needed) chunk)
      (if Nat.ltb 0 (Nat.min (List.length chunk) needed)
       then nth (Nat.min (List.length chunk) needed - 1) chunk last else last)).
    lia.
Qed.

Lemma callback_shrinks p frames :
  (List.length (buffer (fst (callback fade_out p frames)))
   <= List.length (buffer p))%nat.
Proof.
  unfold callback.
  pose proof (fill_shrinks (buffer p) frames [] (last_sample p)) as H.
  destruct (fill (buffer p) frames [] (last_sample p)) as [[buf out] last].
  cbn [fst] in H.
  destruct (Nat.ltb (List.length out) frames && Nat.ltb 0 (List.length out));
    [|destruct (Nat.eqb (List.length out) 0)]; cbn; exact H.
Qed.

(** What an enqueue does to the FIFO, by its length before. *)
Lemma enqueue_buffer p pcm :
  (List.length (buffer p) < max_buffer_size)%nat
    /\ enqueue_float32 fade_mul p pcm
       = (mk (buffer p ++ [apply_fade fade_mul pcm]) (last_sample p)
             (running p)
             (total_samples p + List.length (apply_fade fade_mul pcm)), [])
  \/
  (max_buffer_size <= List.length (buffer p))%nat
    /\ exists oldest rest,
         buffer p = oldest :: rest
         /\ enqueue_float32 fade_mul p pcm
            = (mk (rest ++ [apply_fade fade_mul pcm]) (last_sample p)
                  (running p)
                  (total_samples p + List.length (apply_fade fade_mul pcm)),
               [Log WARNING (BufferFull (List.length oldest))]).
Proof.
  unfold enqueue_float32.
  destruct (Nat.leb max_buffer_size (List.length (buffer p))) eqn:E.
  - right. apply Nat.leb_le in E. split; [exact E|].
    destruct (buffer p) as [|oldest rest] eqn:B.
    + cbn in E. unfold max_buffer_size in E. lia.
    + exists oldest, rest. split; reflexivity.
  - left. apply Nat.leb_gt in E. split; [exact E | reflexivity].
Qed.

Lemma enqueue_bounded p pcm :
  (List.length (buffer p) <= max_buffer_size)%nat ->
  (List.length (buffer (fst (enqueue_float32 fade_mul p pcm)))
   <= max_buffer_size)%nat.
Proof.
  intro Hb.
  destruct (enqueue_buffer p pcm) as [[Hlt ->] | [Hge (o & r & Hbuf & ->)]];
    cbn [fst buffer]; rewrite length_app; cbn [List.length].
  - lia.
  - rewrite Hbuf in Hb. cbn [List.length] in Hb. lia.
Qed.

Lemma apply_bounded p op :
  (List.length (buffer p) <= max_buffer_size)%nat ->
  (List.length (buffer (apply fade_mul fade_out p op))
   <= max_buffer_size)%nat.
Proof.
  intro Hb. destruct op as [pcm | frames |]; cbn [apply].
  - apply enqueue_bounded, Hb.
  - pose proof (callback_shrinks p frames). lia.
  - cbn. lia.
Qed.

(** Every player reached from the initial one respects the cap. *)
Lemma run_bounded ops : forall p,
  (List.length (buffer p) <= max_buffer_size)%nat ->
  (List.length (buffer (run fade_mul fade_out ops p))
   <= max_buffer_size)%nat.
Proof.
  induction ops as [|op ops IH]; intros p Hb; cbn [run fold_left].
  - exact Hb.
  - apply IH, apply_bounded, Hb.
Qed.

End PlayerFacts.

(** C7.  Whatever happened to the player before (enqueues, playback
    callbacks, stops), after an enqueue the FIFO holds at most 50 frames;
    an enqueue that finds 50 frames removes exactly the oldest one, logs a
    warning and appends the new frame, and one that finds fewer only
    appends. *)
Theorem playback_fifo_bounded :
  forall (fade_mul : nat -> nat -> Float32.float32 -> Float32.float32)
         (fade_out : Float32.float32 -> nat -> nat -> Float32.float32)
         (ops : list Player.Op) (pcm : Player.frame),
    let p := Player.run fade_mul fade_out ops Player.init in
    let p' := fst (Player.enqueue_float32 fade_mul p pcm) in
    let logged := snd (Player.enqueue_float32 fade_mul p pcm) in
    (List.length (Player.buffer p') <= 50)%nat
    /\ (List.length (Player.buffer p) = 50%nat ->
        Player.buffer p'
        = tl (Player.buffer p) ++ [Player.apply_fade fade_mul pcm]
        /\ logged
           = [Log WARNING (BufferFull (List.length (hd [] (Player.buffer p))))])
    /\ ((List.length (Player.buffer p) < 50)%nat ->
        Player.buffer p' = Player.buffer p ++ [Player.apply_fade fade_mul pcm]
        /\ logged = []).
Proof.
  intros fade_mul fade_out ops pcm p p' logged.
  assert (List.length (Player.buffer p) <= Player.max_buffer_size)%nat as Hb
    by (apply (run_bounded fade_mul fade_out ops Player.init); cbn;
        unfold Player.max_buffer_size; lia).
  split; [exact (enqueue_bounded fade_mul p pcm Hb)|].
  subst p' logged.
  destruct (enqueue_buffer fade_mul p pcm)
    as [[Hlt ->] | [Hge (o & r & Hbuf & ->)]];
    unfold Player.max_buffer_size in *; cbn [fst snd Player.buffer].
  - split; [lia | auto].
  - rewrite Hbuf in *. cbn [tl hd List.length] in *. split; [auto | lia].
Qed.

Lemma playback_fifo_bounded_witness :
  let p := Player.run Scenario.no_fade Scenario.no_fade_out
             Scenario.fifty_enqueues Player.init in
  let p' := fst (Player.enqueue_float32 Scenario.no_fade p [Float32.zero]) in
  (List.length (Player.buffer p') <= 50)%nat
  /\ Player.buffer p' = tl (Player.buffer p) ++ [[Float32.zero]].
Proof.
  destruct (playback_fifo_bounded Scenario.no_fade Scenario.no_fade_out
              Scenario.fifty_enqueues [Float32.zero]) as (Hlen & Hfull & _).
  split; [exact Hlen|].
  apply Hfull. vm_compute. reflexivity.
Defined.

(** ** The send queue and the pre-buffer *)

Section CaptureFacts.
Import AsyncQueue Capture.

Lemma put_not_full (q : SendQueue) x :
  (List.length (items q) < maxsize q)%nat ->
  put q x = mk (maxsize q) (items q ++ [x]) (putters q).
Proof.
  intro H. unfold put, full, qsize.
  destruct (Nat.eqb (maxsize q) 0); [reflexivity|].
  destruct (Nat.leb (maxsize q) (List.length (items q))) eqn:E;
    [apply Nat.leb_le in E; lia | reflexivity].
Qed.

Lemma put_full (q : SendQueue) x :
  full q = true ->
  put q x = mk (maxsize q) (items q) (putters q ++ [x]).
Proof. intro H. unfold put. rewrite H. reflexivity. Qed.

(** Replaying a pre-buffer that fits appends it in order. *)
Lemma replay_fits (pre : list bytes) : forall q : SendQueue,
  (List.length (items q) + List.length pre <= maxsize q)%nat ->
  replay q pre
  = mk (maxsize q) (items q ++ List.map Some pre) (putters q).
Proof.
  induction pre as [|b pre IH]; intros q Hfit; cbn [replay List.map].
  - rewrite app_nil_r. destruct q; reflexivity.
  - cbn [List.length] in Hfit.
    rewrite put_not_full by lia. rewrite IH.
    + cbn [maxsize items putters]. rewrite <- app_assoc. reflexivity.
    + cbn [maxsize items]. rewrite length_app. cbn [List.length]. lia.
Qed.

Lemma deque_append_ring (d : list bytes) (x : bytes) :
  (List.length d <= prebuffer_maxlen)%nat ->
  (List.length (deque_append prebuffer_maxlen d x) <= prebuffer_maxlen)%nat
  /\ ((List.length d < prebuffer_maxlen)%nat ->
      deque_append prebuffer_maxlen d x = d ++ [x])
  /\ (List.length d = prebuffer_maxlen ->
      deque_append prebuffer_maxlen d x = tl d ++ [x]).
Proof.
  unfold deque_append, prebuffer_maxlen. intro Hd. cbn [Nat.eqb].
  destruct (Nat.leb 30 (List.length d)) eqn:E.
  - apply Nat.leb_le in E. repeat split; try lia; auto.
    rewrite length_app. destruct d; cbn [tl List.length] in *; lia.
  - apply Nat.leb_gt in E. repeat split; try lia; auto.
    rewrite length_app. cbn [List.length]. lia.
Qed.

(** While the session cannot take chunks, a callback only touches the
    pre-buffer. *)
Lemma audio_callback_not_ready self counter status c :
  ready self = false ->
  let self' := fst (fst (audio_callback self counter status c)) in
  mic_prebuffer self'
  = deque_append prebuffer_maxlen (mic_prebuffer self) c
  /\ session_active self' = session_active self
  /\ send_queue self' = send_queue self.
Proof.
  intro H. unfold audio_callback. rewrite H. cbn [negb fst].
  destruct self; repeat split.
Qed.

Lemma capture_all_not_ready (cs : list bytes) : forall self counter,
  ready self = false ->
  (List.length (mic_prebuffer self) + List.length cs
   <= prebuffer_maxlen)%nat ->
  let self' := fst (capture_all self counter cs) in
  mic_prebuffer self' = mic_prebuffer self ++ cs
  /\ session_active self' = session_active self
  /\ send_queue self' = send_queue self.
Proof.
  induction cs as [|c cs IH]; intros self counter Hready Hfit.
  - cbn. rewrite app_nil_r. auto.
  - cbn [capture_all List.length] in *.
    destruct (audio_callback_not_ready self counter false c Hready)
      as (Hpre & Hact & Hq).
    destruct (audio_callback self counter false c) as [[self1 counter1] eff].
    cbn [fst] in Hpre, Hact, Hq.
    destruct (deque_append_ring (mic_prebuffer self) c) as (_ & Happ & _);
      [lia|].
    rewrite Happ in Hpre by lia.
    assert (ready self1 = false) as Hready1
      by (unfold ready in *; rewrite Hact, Hq; exact Hready).
    destruct (IH self1 counter1 Hready1) as (Hpre' & Hact' & Hq').
    + rewrite Hpre, length_app. cbn [List.length]. lia.
    + rewrite Hpre', Hpre, <- app_assoc, Hact', Hq'. auto.
Qed.

End CaptureFacts.

(** ** Session open *)

Section SessionFacts.
Import Session.

(** Whatever happens inside, the caller sees a normal return. *)
Lemma start_session_returns self env :
  snd (start_session self env) = Returned.
Proof.
  unfold start_session.
  destruct (session_active self); [reflexivity|].
  destruct (body (set_session_active true self) env) as [[self1 eff1] r].
  destruct r; [reflexivity|].
  destruct (handler self1). reflexivity.
Qed.

(** The retry loop ends in a connection or in a raise. *)
Lemma connect_never_falls_through dial : snd (connect dial) <> LoopExit.
Proof.
  unfold connect. cbn [connect_loop max_connect_attempts Nat.ltb Nat.leb].
  destruct (dial 0%nat); try (cbn; discriminate);
    destruct (dial 1%nat); try (cbn; discriminate);
    destruct (dial 2%nat); cbn; discriminate.
Qed.

Lemma start_session_opens self env :
  session_active self = false -> opens env = true ->
  let self' := fst (fst (start_session self env)) in
  session_active self' = true
  /\ send_queue self' = Some (AsyncQueue.new max_queue_size)
  /\ mic_prebuffer self' = mic_prebuffer self.
Proof.
  intros Hact Hopen. unfold start_session. rewrite Hact.
  unfold opens in Hopen. unfold body.
  destruct (config_ok env); [|discriminate]. cbn [negb].
  destruct (connect (dial env)) as [dialled r].
  destruct r; cbn [snd andb] in Hopen; try discriminate.
  destruct (send_ok env); [|discriminate]. cbn [negb].
  destruct (reply env) as [resp|]; [|discriminate].
  destruct (Receiver.event resp); try discriminate.
  destruct self; cbn. auto.
Qed.

Lemma start_session_fails self env :
  session_active self = false -> opens env = false ->
  session_active (fst (fst (start_session self env))) = false.
Proof.
  intros Hact Hopen. unfold start_session. rewrite Hact.
  unfold opens in Hopen. unfold body, handler.
  destruct (config_ok env); [|destruct self; reflexivity]. cbn [negb].
  destruct (connect (dial env)) as [dialled r].
  destruct r; cbn [snd andb] in Hopen;
    try (destruct self; reflexivity).
  destruct (send_ok env); [|destruct self; reflexivity]. cbn [negb].
  destruct (reply env) as [resp|]; [|destruct self; reflexivity].
  destruct (Receiver.event resp); try discriminate;
    destruct (close_ok env); destruct self; reflexivity.
Qed.

End SessionFacts.

(** ** Session open with the microphone running *)

Section OpeningFacts.
Import Capture.

(** A callback never touches the session flag and installs no queue. *)
Lemma audio_callback_keeps_flag self counter status c :
  let self' := fst (fst (audio_callback self counter status c)) in
  session_active self' = session_active self
  /\ (send_queue self = None -> send_queue self' = None)
  /\ (forall q, send_queue self = Some q -> exists q', send_queue self' = Some q').
Proof.
  destruct self as [a q w i n r s tr os ot p l run0].
  unfold audio_callback, ready.
  cbn [session_active send_queue mic_prebuffer].
  destruct a, q as [q|]; cbn [andb negb fst session_active send_queue
                              set_send_queue set_mic_prebuffer];
    repeat split; try discriminate; eauto.
Qed.

Lemma capture_all_keeps_flag (cs : list bytes) : forall self counter,
  let self' := fst (capture_all self counter cs) in
  session_active self' = session_active self
  /\ (send_queue self = None -> send_queue self' = None)
  /\ (forall q, send_queue self = Some q -> exists q', send_queue self' = Some q').
Proof.
  induction cs as [|c cs IH]; intros self counter; cbn [capture_all].
  - cbn [fst]. repeat split; eauto.
  - destruct (audio_callback_keeps_flag self counter false c) as (Ha & Hn & Hs).
    destruct (audio_callback self counter false c) as [[self1 counter1] eff].
    cbn [fst] in Ha, Hn, Hs.
    destruct (IH self1 counter1) as (Ha' & Hn' & Hs').
    split; [congruence|]. split.
    + intro H. apply Hn'. apply Hn. exact H.
    + intros q H. destruct (Hs q H) as [q1 H1]. exact (Hs' q1 H1).
Qed.

(** While the session cannot take chunks, callbacks leave its queue
    alone. *)
Lemma capture_all_inactive (cs : list bytes) : forall self counter,
  ready self = false ->
  send_queue (fst (capture_all self counter cs)) = send_queue self.
Proof.
  induction cs as [|c cs IH]; intros self counter Hready; cbn [capture_all];
    [reflexivity|].
  destruct (audio_callback_not_ready self counter false c Hready)
    as (_ & Hact & Hq).
  destruct (audio_callback self counter false c) as [[self1 counter1] eff].
  cbn [fst] in Hact, Hq.
  rewrite IH; [exact Hq|].
  unfold ready in *. rewrite Hact, Hq. exact Hready.
Qed.

(** Once a callback has found the session ready, the pre-buffer is
    empty, and stays so through further callbacks. *)
Lemma audio_callback_ready_empties self counter status c :
  ready self = true ->
  let self' := fst (fst (audio_callback self counter status c)) in
  mic_prebuffer self' = [] /\ ready self' = true.
Proof.
  destruct self as [a q w i n r s tr os ot p l run0].
  unfold audio_callback, ready.
  cbn [session_active send_queue mic_prebuffer].
  destruct a, q as [q|]; cbn [andb negb]; try discriminate.
  intros _. cbn. auto.
Qed.

Lemma capture_all_ready_empties (cs : list bytes) : forall self counter c,
  ready self = true ->
  mic_prebuffer (fst (capture_all self counter (c :: cs))) = [].
Proof.
  induction cs as [|c' cs IH]; intros self counter c Hready.
  - cbn [capture_all].
    destruct (audio_callback_ready_empties self counter false c Hready)
      as (Hpre & _).
    destruct (audio_callback self counter false c) as [[self1 counter1] eff].
    exact Hpre.
  - change (capture_all self counter (c :: c' :: cs))
      with (let '(self', counter', _) := audio_callback self counter false c in
            capture_all self' counter' (c' :: cs)).
    destruct (audio_callback_ready_empties self counter false c Hready)
      as (_ & Hready1).
    destruct (audio_callback self counter false c) as [[self1 counter1] eff].
    cbn [fst] in Hready1. exact (IH self1 counter1 c' Hready1).
Qed.

(** An open that begins on an inactive session is the open, without
    interference, of the state the callbacks inside it leave. *)
Lemma start_session_amid_unfold self env counter inside :
  session_active self = false ->
  let mid := capture_all (set_session_active true self) counter inside in
  let r := Session.start_session (set_session_active false (fst mid)) env in
  Opening.start_session_amid self env counter inside
  = (fst (fst r), snd mid, snd (fst r), snd r).
Proof.
  intros Hact mid r. subst r. unfold Opening.start_session_amid.
  rewrite Hact. fold mid.
  assert (session_active (fst mid) = true) as Hmid.
  { subst mid.
    destruct (capture_all_keeps_flag inside (set_session_active true self)
                counter) as (H & _).
    rewrite H. destruct self; reflexivity. }
  assert (set_session_active true (set_session_active false (fst mid))
          = fst mid) as Hsame.
  { destruct (fst mid); cbn in Hmid; subst; reflexivity. }
  unfold Session.start_session.
  replace (session_active (set_session_active false (fst mid))) with false
    by (destruct (fst mid); reflexivity).
  rewrite Hsame. destruct mid as [m k]. cbn [fst snd].
  destruct (Session.body m env) as [[self1 eff1] o].
  destruct o; [reflexivity|].
  destruct (Session.handler self1) as [self2 eff2]. reflexivity.
Qed.

(** Without callbacks inside, it is the open without interference. *)
Lemma start_session_amid_alone self env counter :
  Opening.start_session_amid self env counter []
  = (let r := Session.start_session self env in
     (fst (fst r), counter, snd (fst r), snd r)).
Proof.
  unfold Opening.start_session_amid, Session.start_session.
  cbn [capture_all].
  destruct (session_active self); [reflexivity|].
  destruct (Session.body (set_session_active true self) env)
    as [[self1 eff1] o].
  destruct o; [reflexivity|].
  destruct (Session.handler self1) as [self2 eff2]. reflexivity.
Qed.

End OpeningFacts.

(** C5, on the code.  While the session cannot take chunks, each
    captured chunk goes to the end of the pre-buffer, which holds at
    most 30 chunks and loses its oldest one when a chunk arrives at 30.
    When the open begins with no send queue installed (the first open,
    or one after the receiver has cleaned up), the chunks captured
    before the open and during it, 30 at most, are what the first
    callback after the open puts on the fresh queue, in capture order,
    before the new chunk.  When the open begins with the queue of the
    previous session still installed, a callback during the open takes
    the session for ready and puts the pre-buffer on that queue: the
    first callback after the open leaves the fresh queue holding the new
    chunk alone. *)
Theorem prebuffer_drained_first :
  forall (self : Translator) (counter : nat) (status : bool) (c : bytes),
    (Capture.ready self = false ->
     (List.length (mic_prebuffer self) <= 30)%nat ->
     let self' := fst (fst (Capture.audio_callback self counter status c)) in
     (List.length (mic_prebuffer self') <= 30)%nat
     /\ ((List.length (mic_prebuffer self) < 30)%nat ->
         mic_prebuffer self' = mic_prebuffer self ++ [c])
     /\ (List.length (mic_prebuffer self) = 30%nat ->
         mic_prebuffer self' = tl (mic_prebuffer self) ++ [c]))
    /\
    (forall (cs inside : list bytes) (env : Session.Env),
       session_active self = false ->
       send_queue self = None ->
       mic_prebuffer self = [] ->
       (List.length cs + List.length inside <= 30)%nat ->
       Session.opens env = true ->
       let captured := Capture.capture_all self counter cs in
       let opened :=
         fst (fst (Opening.start_session_amid (fst captured) env
                     (snd captured) inside)) in
       let self' :=
         fst (fst (Capture.audio_callback (fst opened) (snd opened)
                     status c)) in
       send_queue self'
       = Some (AsyncQueue.mk max_queue_size
                 (List.map Some (cs ++ inside) ++ [Some c]) [])
       /\ mic_prebuffer self' = [])
    /\
    (forall (cs inside : list bytes) (c1 : bytes) (env : Session.Env)
            (old : SendQueue),
       session_active self = false ->
       send_queue self = Some old ->
       Session.opens env = true ->
       let captured := Capture.capture_all self counter cs in
       let opened :=
         fst (fst (Opening.start_session_amid (fst captured) env
                     (snd captured) (c1 :: inside))) in
       let self' :=
         fst (fst (Capture.audio_callback (fst opened) (snd opened)
                     status c)) in
       send_queue self'
       = Some (AsyncQueue.mk max_queue_size [Some c] [])
       /\ mic_prebuffer self' = []).
Proof.
  intros self counter status c.
  assert (forall m k,
            session_active m = true ->
            send_queue m = Some (AsyncQueue.new max_queue_size) ->
            (List.length (mic_prebuffer m) <= 30)%nat ->
            let self' := fst (fst (Capture.audio_callback m k status c)) in
            send_queue self'
            = Some (AsyncQueue.mk max_queue_size
                      (List.map Some (mic_prebuffer m) ++ [Some c]) [])
            /\ mic_prebuffer self' = []) as Hafter.
  { intros m k Hact Hq Hlen. unfold Capture.audio_callback, Capture.ready.
    rewrite Hact, Hq. cbn [andb negb fst].
    rewrite replay_fits by (cbn; unfold max_queue_size; lia).
    rewrite put_not_full
      by (cbn [AsyncQueue.items AsyncQueue.maxsize AsyncQueue.new app];
          rewrite length_map; unfold max_queue_size; lia).
    destruct m; cbn. auto. }
  assert (Capture.ready self = false ->
          forall cs, Capture.ready (fst (Capture.capture_all self counter cs))
                     = false
                     /\ session_active (fst (Capture.capture_all self counter cs))
                        = session_active self
                     /\ send_queue (fst (Capture.capture_all self counter cs))
                        = send_queue self) as Hbefore.
  { intros Hready cs.
    destruct (capture_all_keeps_flag cs self counter) as (Ha & _).
    pose proof (capture_all_inactive cs self counter Hready) as Hq.
    unfold Capture.ready in *. rewrite Ha, Hq. auto. }
  split; [|split].
  - intros Hready Hlen self'.
    destruct (audio_callback_not_ready self counter status c Hready)
      as (Hpre & _ & _).
    subst self'. rewrite Hpre.
    exact (deque_append_ring (mic_prebuffer self) c Hlen).
  - intros cs inside env Hact Hnone Hempty Hn Hopen captured opened self'.
    assert (Capture.ready self = false) as Hready
      by (unfold Capture.ready; rewrite Hact; reflexivity).
    destruct (capture_all_not_ready cs self counter Hready)
      as (Hpre & Hact1 & Hq1).
    { rewrite Hempty. unfold prebuffer_maxlen. cbn [List.length]. lia. }
    fold captured in Hpre, Hact1, Hq1.
    rewrite Hempty in Hpre. cbn [app] in Hpre.
    rewrite Hact in Hact1. rewrite Hnone in Hq1.
    subst self' opened.
    rewrite (start_session_amid_unfold (fst captured) env (snd captured)
               inside Hact1).
    cbn [fst snd].
    set (mid := Capture.capture_all (set_session_active true (fst captured))
                  (snd captured) inside).
    assert (Capture.ready (set_session_active true (fst captured)) = false)
      as Hready1.
    { unfold Capture.ready.
      replace (send_queue (set_session_active true (fst captured)))
        with (send_queue (fst captured)) by (destruct (fst captured); reflexivity).
      rewrite Hq1. apply andb_false_r. }
    destruct (capture_all_not_ready inside
                (set_session_active true (fst captured)) (snd captured)
                Hready1) as (Hpre2 & _ & _).
    { replace (mic_prebuffer (set_session_active true (fst captured)))
        with (mic_prebuffer (fst captured))
        by (destruct (fst captured); reflexivity).
      rewrite Hpre. unfold prebuffer_maxlen. lia. }
    fold mid in Hpre2.
    replace (mic_prebuffer (set_session_active true (fst captured)))
      with (mic_prebuffer (fst captured)) in Hpre2
      by (destruct (fst captured); reflexivity).
    rewrite Hpre in Hpre2.
    destruct (start_session_opens (set_session_active false (fst mid)) env)
      as (Hact3 & Hq3 & Hpre3);
      [destruct (fst mid); reflexivity | exact Hopen |].
    replace (mic_prebuffer (set_session_active false (fst mid)))
      with (mic_prebuffer (fst mid)) in Hpre3
      by (destruct (fst mid); reflexivity).
    rewrite Hpre2 in Hpre3.
    destruct (Hafter _ (snd mid) Hact3 Hq3) as (Hq4 & Hpre4).
    { rewrite Hpre3, length_app. lia. }
    rewrite Hpre3 in Hq4. auto.
  - intros cs inside c1 env old Hact Hold Hopen captured opened self'.
    assert (Capture.ready self = false) as Hready
      by (unfold Capture.ready; rewrite Hact; reflexivity).
    destruct (Hbefore Hready cs) as (_ & Hact1 & Hq1).
    fold captured in Hact1, Hq1. rewrite Hact in Hact1. rewrite Hold in Hq1.
    subst self' opened.
    rewrite (start_session_amid_unfold (fst captured) env (snd captured)
               (c1 :: inside) Hact1).
    cbn [fst snd].
    set (mid := Capture.capture_all (set_session_active true (fst captured))
                  (snd captured) (c1 :: inside)).
    assert (mic_prebuffer (fst mid) = []) as Hpre2.
    { subst mid. apply capture_all_ready_empties. unfold Capture.ready.
      destruct (fst captured); cbn in Hq1 |- *. rewrite Hq1. reflexivity. }
    destruct (start_session_opens (set_session_active false (fst mid)) env)
      as (Hact3 & Hq3 & Hpre3);
      [destruct (fst mid); reflexivity | exact Hopen |].
    replace (mic_prebuffer (set_session_active false (fst mid)))
      with (mic_prebuffer (fst mid)) in Hpre3
      by (destruct (fst mid); reflexivity).
    rewrite Hpre2 in Hpre3.
    destruct (Hafter _ (snd mid) Hact3 Hq3) as (Hq4 & Hpre4).
    { rewrite Hpre3. cbn. lia. }
    rewrite Hpre3 in Hq4. auto.
Qed.

(** Three chunks are captured, a fourth during the open, a fifth after
    it.  On the first open the fresh queue holds all five in order.
    After a sender failure, with the queue of the failed session still
    installed, it holds the fifth alone. *)
Lemma prebuffer_drained_first_witness :
  (let captured :=
     Capture.capture_all Scenario.subscribed 0 Scenario.early_chunks in
   let opened :=
     fst (fst (Opening.start_session_amid (fst captured) Scenario.opening_env
                 (snd captured) [Scenario.chunk_of x04])) in
   send_queue
     (fst (fst (Capture.audio_callback (fst opened) (snd opened) false
                  (Scenario.chunk_of x05))))
   = Some (AsyncQueue.mk max_queue_size
             (List.map Some (Scenario.early_chunks ++ [Scenario.chunk_of x04])
                ++ [Some (Scenario.chunk_of x05)]) []))
  /\
  (let captured :=
     Capture.capture_all Scenario.after_sender_failure 0
       Scenario.early_chunks in
   let opened :=
     fst (fst (Opening.start_session_amid (fst captured) Scenario.opening_env
                 (snd captured) [Scenario.chunk_of x04])) in
   mic_prebuffer (fst captured) = Scenario.early_chunks
   /\ send_queue
        (fst (fst (Capture.audio_callback (fst opened) (snd opened) false
                     (Scenario.chunk_of x05))))
      = Some (AsyncQueue.mk max_queue_size [Some (Scenario.chunk_of x05)] [])).
Proof.
  split.
  - destruct (prebuffer_drained_first Scenario.subscribed 0 false
                (Scenario.chunk_of x05)) as (_ & Hfirst & _).
    destruct (Hfirst Scenario.early_chunks [Scenario.chunk_of x04]
                Scenario.opening_env eq_refl eq_refl eq_refl) as (Hq & _).
    + cbn. lia.
    + reflexivity.
    + exact Hq.
  - destruct (prebuffer_drained_first Scenario.after_sender_failure 0 false
                (Scenario.chunk_of x05)) as (_ & _ & Hstale).
    destruct (Hstale Scenario.early_chunks [] (Scenario.chunk_of x04)
                Scenario.opening_env Scenario.left_over eq_refl eq_refl
                eq_refl) as (Hq & _).
    split; [reflexivity | exact Hq].
Defined.

(** ** The paced sender *)

Section SenderFacts.
Import Sender.



(** Taking from the queue never raises QueueFull: the handler for it in
    the sender cannot run. *)
Lemma wait_for_get_never_full (q : SendQueue) arrival :
  wait_for_get q arrival <> GetQueueFull.
Proof.
  unfold wait_for_get.
  destruct (AsyncQueue.get_nowait q) as [[item q']|]; [discriminate|].
  destruct arrival; discriminate.
Qed.



(** [interval] is a double nearest to 8/100 (its neighbours are
    [2^-56] away), and [max_lag] is 1/2. *)
Lemma interval_nearest :
  exists x, Float64.to_Q interval = Some x
            /\ ((8 # 100) - (1 # 2 ^ 57) <= x)%Q
            /\ (x <= (8 # 100) + (1 # 2 ^ 57))%Q.
Proof.
  eexists. split; [vm_compute; reflexivity|].
  split; vm_compute; discriminate.
Qed.

Lemma max_lag_half : Float64.to_Q max_lag = Some (4503599627370496 # 2 ^ 53)%Q.
Proof. vm_compute. reflexivity. Qed.


End SenderFacts.



(** With nothing in the queue and a reading of 1000.02 the turn sends
    the silent chunk and sleeps the double difference, a little over
    0.06; with a reading of 1002.5 it logs the reset and the base
    becomes the second reading, 1002.75. *)
Example paced_turn_sleeps :
  Sender.iteration Scenario.idle Scenario.sender_at_1000 1 Scenario.quiet_turn
  = (Scenario.idle,
     Sender.mkLocals 1 (S754_finite false 8796796709649777 (-43)),
     [WsSend (TaskRequestFrame (repeat x00 2560));
      SleepFloat (S754_finite false 8646911284559872 (-57))],
     Sender.Looping).
Proof. vm_compute. reflexivity. Qed.

Example paced_turn_resets :
  Sender.iteration Scenario.idle Scenario.sender_at_1000 1 Scenario.late_turn
  = (Scenario.idle,
     Sender.mkLocals 1 (Float64.decimal 100275 2),
     [WsSend (TaskRequestFrame (repeat x00 2560));
      Log WARNING
        (TimeBaseReset 1 (S754_finite false 5449355549118208 (-51)))],
     Sender.Looping).
Proof. vm_compute. reflexivity. Qed.

(** C4, on the code.  A chunk captured while the send queue holds its 300
    items is not skipped and nothing is logged about it: its [put] waits,
    and the next [get] lets it into the queue.  The sender's handler that
    would log the skip guards a [get], which never raises QueueFull. *)
Theorem full_queue_parks_newest_chunk :
  forall (self : Translator) (counter : nat) (status : bool) (c : bytes)
         (q : SendQueue),
    session_active self = true ->
    send_queue self = Some q ->
    mic_prebuffer self = [] ->
    AsyncQueue.maxsize q = max_queue_size ->
    List.length (AsyncQueue.items q) = max_queue_size ->
    AsyncQueue.putters q = [] ->
    let r := Capture.audio_callback self counter status c in
    let parked := AsyncQueue.mk max_queue_size (AsyncQueue.items q) [Some c] in
    send_queue (fst (fst r)) = Some parked
    /\ Sender.warned_queue_full (snd r) = false
    /\ (forall arrival, Sender.wait_for_get parked arrival <> Sender.GetQueueFull)
    /\ (exists x rest,
          AsyncQueue.items q = x :: rest
          /\ AsyncQueue.get_nowait parked
             = Some (x, AsyncQueue.mk max_queue_size (rest ++ [Some c]) [])).
Proof.
  intros self counter status c q Hact Hq Hpre Hmax Hlen Hput r parked.
  assert (AsyncQueue.full q = true) as Hfull.
  { unfold AsyncQueue.full, AsyncQueue.qsize. rewrite Hmax, Hlen. reflexivity. }
  repeat split.
  - subst r. unfold Capture.audio_callback, Capture.ready.
    rewrite Hact, Hq, Hpre. cbn [andb negb Capture.replay fst].
    rewrite (put_full q (Some c) Hfull), Hmax, Hput.
    destruct self; reflexivity.
  - subst r. unfold Capture.audio_callback, Capture.ready.
    rewrite Hact, Hq. cbn [andb negb snd app].
    destruct status, (Nat.eqb (S counter mod 50) 0); reflexivity.
  - intro arrival. apply wait_for_get_never_full.
  - destruct (AsyncQueue.items q) as [|x rest] eqn:E;
      [unfold max_queue_size in Hlen; discriminate|].
    exists x, rest. split; [reflexivity|].
    subst parked. unfold AsyncQueue.get_nowait, AsyncQueue.wakeup_next.
    cbn [AsyncQueue.items AsyncQueue.putters AsyncQueue.maxsize].
    unfold AsyncQueue.full, AsyncQueue.qsize.
    cbn [AsyncQueue.items AsyncQueue.maxsize List.length] in *.
    injection Hlen as Hlen. rewrite Hlen. reflexivity.
Qed.

Lemma full_queue_parks_newest_chunk_witness :
  send_queue
    (fst (fst (Capture.audio_callback Scenario.congested 0 false
                 (Scenario.chunk_of x02))))
  = Some (AsyncQueue.mk 300 (AsyncQueue.items Scenario.full_queue)
                        [Some (Scenario.chunk_of x02)]).
Proof.
  apply (full_queue_parks_newest_chunk Scenario.congested 0 false
           (Scenario.chunk_of x02) Scenario.full_queue);
    reflexivity.
Defined.

(** ** The watchdog *)

Section WatchdogFacts.
Import Watchdog.

(** The counters of the watchdog never leave their initial values. *)
Lemma iteration_keeps_init self env :
  snd (fst (iteration self init_locals env)) = init_locals.
Proof.
  unfold iteration.
  destruct (session_active self); cbn [negb]; [reflexivity|].
  cbn [Nat.leb max_consecutive_failures consecutive_failures init_locals].
  pose proof (start_session_returns self env) as Hr.
  destruct (Session.start_session self env) as [[self' eff] r].
  cbn [snd] in Hr. subst r. reflexivity.
Qed.

Lemma run_keeps_init turns : forall self,
  snd (fst (run self init_locals turns)) = init_locals.
Proof.
  induction turns as [|[env world] turns IH]; intro self; cbn [run].
  - reflexivity.
  - destruct (running self); [|reflexivity].
    pose proof (iteration_keeps_init self env) as H1.
    destruct (iteration self init_locals env) as [[self1 loc1] eff1].
    cbn [fst snd] in H1. subst loc1.
    specialize (IH (world self1)).
    destruct (run (world self1) init_locals turns) as [[self2 loc2] eff2].
    exact IH.
Qed.

End WatchdogFacts.

(** C6, on the code.  A turn of the watchdog whose session-open attempt
    fails leaves the session inactive and yet ends with the failure
    counter at 0 and the backoff at 1: the failure is handled inside
    [_start_session], which returns normally, so the watchdog takes its
    success branch. *)
Theorem watchdog_counts_failed_open_as_success :
  forall (self : Translator) (loc : Watchdog.Locals) (env : Session.Env),
    session_active self = false ->
    (Watchdog.consecutive_failures loc < 5)%nat ->
    Session.opens env = false ->
    let r := Watchdog.iteration self loc env in
    session_active (fst (fst r)) = false
    /\ Watchdog.consecutive_failures (snd (fst r)) = 0%nat
    /\ Watchdog.backoff (snd (fst r)) = 1.
Proof.
  intros self loc env Hact Hfail Hopen r. subst r.
  unfold Watchdog.iteration. rewrite Hact. cbn [negb].
  destruct (Nat.leb Watchdog.max_consecutive_failures
              (Watchdog.consecutive_failures loc)) eqn:E.
  - apply Nat.leb_le in E. unfold Watchdog.max_consecutive_failures in E. lia.
  - pose proof (start_session_returns self env) as Hr.
    pose proof (start_session_fails self env Hact Hopen) as Hs.
    destruct (Session.start_session self env) as [[self' eff] o].
    cbn [fst snd] in Hr, Hs. subst o. cbn. auto.
Qed.

Lemma watchdog_counts_failed_open_as_success_witness :
  let r := Watchdog.iteration (init_translator true true) Watchdog.init_locals
             Scenario.unreachable_env in
  session_active (fst (fst r)) = false
  /\ Watchdog.consecutive_failures (snd (fst r)) = 0%nat
  /\ Watchdog.backoff (snd (fst r)) = 1.
Proof.
  apply watchdog_counts_failed_open_as_success.
  - reflexivity.
  - cbn. lia.
  - reflexivity.
Defined.

(** C8, on the code.  When no dial succeeds, session open dials three
    times, each with the 20-second timeouts, sleeps 2 s and 4 s in
    between, and after the third failure gives up; the caller sees a
    normal return and an inactive session. *)
Theorem dial_attempted_three_times :
  forall (self : Translator) (env : Session.Env),
    session_active self = false ->
    Session.config_ok env = true ->
    (forall k, Session.dial env k <> Session.DialOk) ->
    let r := Session.start_session self env in
    Session.dials (snd (fst r)) = [(20, 20); (20, 20); (20, 20)]
    /\ Session.sleeps (snd (fst r)) = [inject_Z 2; inject_Z 4]
    /\ snd r = Session.Returned
    /\ session_active (fst (fst r)) = false.
Proof.
  intros self env Hact Hcfg Hdial r. subst r.
  unfold Session.start_session, Session.body. rewrite Hact, Hcfg. cbn [negb].
  unfold Session.connect. cbn [Session.connect_loop Session.max_connect_attempts
                                 Nat.ltb Nat.leb].
  pose proof (Hdial 0%nat) as H0. pose proof (Hdial 1%nat) as H1.
  pose proof (Hdial 2%nat) as H2.
  destruct (Session.dial env 0); [contradiction| |];
    destruct (Session.dial env 1); try contradiction;
    destruct (Session.dial env 2); try contradiction;
    destruct self as [a q w i c r s tr os ot p l run]; destruct w; cbn; auto.
Qed.

Lemma dial_attempted_three_times_witness :
  let r := Session.start_session (init_translator true true)
             Scenario.unreachable_env in
  Session.dials (snd (fst r)) = [(20, 20); (20, 20); (20, 20)]
  /\ Session.sleeps (snd (fst r)) = [inject_Z 2; inject_Z 4]
  /\ snd r = Session.Returned
  /\ session_active (fst (fst r)) = false.
Proof.
  apply dial_attempted_three_times.
  - reflexivity.
  - reflexivity.
  - intro k. cbn. discriminate.
Defined.

(** ** The log filter *)

Section LoggerFacts.
Import PyStr Logger.

Lemma match_lit_split p : forall s m rest,
  match_lit p s = Some (m, rest) ->
  s = m ++ rest /\ List.length m = List.length p.
Proof.
  induction p as [|a p IH]; intros s m rest H; cbn [match_lit] in H.
  - injection H as <- <-. auto.
  - destruct s as [|c s]; [discriminate|].
    destruct (fold c =? fold a)%N; [|discriminate].
    destruct (match_lit p s) as [[m' r']|] eqn:E; [|discriminate].
    injection H as <- <-. destruct (IH s m' r' E) as [-> Hlen].
    cbn [app List.length]. auto.
Qed.

Lemma match_lit_app p : forall s m rest t,
  match_lit p s = Some (m, rest) ->
  match_lit p (s ++ t) = Some (m, rest ++ t).
Proof.
  induction p as [|a p IH]; intros s m rest t H; cbn [match_lit] in *.
  - injection H as <- <-. reflexivity.
  - destruct s as [|c s]; [discriminate|]. cbn [app].
    destruct (fold c =? fold a)%N; [|discriminate].
    destruct (match_lit p s) as [[m' r']|] eqn:E; [|discriminate].
    injection H as <- <-. rewrite (IH s m' r' t E). reflexivity.
Qed.

(** Text that disagrees with a key cannot start a match of that key. *)
Lemma match_lit_not_viable p : forall s t,
  viable p s = false -> match_lit p (s ++ t) = None.
Proof.
  induction p as [|a p IH]; intros s t H; [discriminate|].
  destruct s as [|c s]; [discriminate|].
  cbn [viable] in H. cbn [app match_lit].
  destruct (fold c =? fold a)%N; [|reflexivity].
  cbn [andb] in H. rewrite (IH s t H). reflexivity.
Qed.

Lemma viable_same_fold p : forall s s',
  List.map fold s = List.map fold s' -> viable p s = viable p s'.
Proof.
  induction p as [|a p IH]; intros s s' H; [reflexivity|].
  destruct s as [|c s], s' as [|c' s']; try discriminate; [reflexivity|].
  cbn [List.map] in H. injection H as Hc Hs.
  cbn [viable]. rewrite Hc, (IH s s' Hs). reflexivity.
Qed.

Lemma match_lit_whole_fold p : forall k m,
  match_lit p k = Some (m, []) -> m = k /\ List.map fold k = List.map fold p.
Proof.
  induction p as [|a p IH]; intros k m H; cbn [match_lit] in H.
  - injection H as <- <-. auto.
  - destruct k as [|c k]; [discriminate|].
    destruct (fold c =? fold a)%N eqn:Ec; [|discriminate].
    destruct (match_lit p k) as [[m' r']|] eqn:E; [|discriminate].
    injection H as <- ->. destruct (IH k m' E) as [-> Hf].
    apply N.eqb_eq in Ec. cbn [List.map]. rewrite Ec, Hf. auto.
Qed.

(** Two alternatives that agree as far as both go are the same one. *)
Lemma keys_distinct key key' :
  In key keys -> In key' keys -> viable key' key = true -> key' = key.
Proof.
  unfold keys. cbn [In]. intros Hk Hk' Hv.
  repeat match goal with
         | H : _ \/ _ |- _ => destruct H as [H | H]
         | H : False |- _ => contradiction
         end; subst; try reflexivity; vm_compute in Hv; discriminate.
Qed.


Lemma lstrip_shorter s : (List.length (lstrip s) <= List.length s)%nat.
Proof.
  induction s as [|c s IH]; cbn [lstrip List.length]; [lia|].
  destruct (isspace c); cbn [List.length]; lia.
Qed.

Lemma skip_value_shorter s : (List.length (skip_value s) <= List.length s)%nat.
Proof.
  induction s as [|c s IH]; cbn [skip_value List.length]; [lia|].
  destruct (is_value_char c); cbn [List.length]; lia.
Qed.

Lemma after_key_shorter s rest :
  after_key s = Some rest -> (List.length rest < List.length s)%nat.
Proof.
  unfold after_key. intro H.
  pose proof (lstrip_shorter s) as H1.
  destruct (lstrip s) as [|c s1]; [discriminate|].
  destruct (is_sep c); [|discriminate].
  pose proof (lstrip_shorter s1) as H2.
  destruct (lstrip s1) as [|v s2]; [discriminate|].
  destruct (is_value_char v); [|discriminate].
  injection H as <-. pose proof (skip_value_shorter s2).
  cbn [List.length] in *. lia.
Qed.

Lemma alternatives_shorter ks : forall s g1 rest,
  alternatives ks s = Some (g1, rest) ->
  (List.length rest < List.length s)%nat.
Proof.
  induction ks as [|key ks IH]; intros s g1 rest H; [discriminate|].
  cbn [alternatives] in H.
  destruct (match_lit key s) as [[m s1]|] eqn:E; [|exact (IH _ _ _ H)].
  destruct (after_key s1) as [r|] eqn:E1; [|exact (IH _ _ _ H)].
  injection H as <- <-.
  destruct (match_lit_split key s m s1 E) as [-> _].
  apply after_key_shorter in E1. rewrite length_app. lia.
Qed.

(** More fuel than characters changes nothing. *)
Lemma sub_loop_enough fuel : forall fuel' s,
  (List.length s <= fuel)%nat -> (fuel <= fuel')%nat ->
  sub_loop fuel s = sub_loop fuel' s.
Proof.
  induction fuel as [|fuel IH]; intros fuel' s Hs Hf.
  - destruct s; [|cbn in Hs; lia]. destruct fuel'; reflexivity.
  - destruct fuel' as [|fuel']; [lia|]. cbn [sub_loop].
    destruct s as [|c t]; [reflexivity|].
    destruct (match_here (c :: t)) as [[g1 rest]|] eqn:E.
    + apply alternatives_shorter in E. cbn [List.length] in *.
      rewrite (IH fuel' rest) by lia. reflexivity.
    + cbn [List.length] in Hs. rewrite (IH fuel' t) by lia. reflexivity.
Qed.

Lemma sub_match s g1 rest :
  match_here s = Some (g1, rest) -> sub s = g1 ++ redacted ++ sub rest.
Proof.
  intro H. unfold sub.
  destruct s as [|c t]; [discriminate|].
  cbn [List.length sub_loop]. rewrite H.
  apply alternatives_shorter in H. cbn [List.length] in H.
  rewrite (sub_loop_enough (List.length rest) (List.length t) rest) by lia.
  reflexivity.
Qed.

Lemma sub_no_match c t :
  match_here (c :: t) = None -> sub (c :: t) = c :: sub t.
Proof. intro H. unfold sub. cbn [List.length sub_loop]. rewrite H. reflexivity. Qed.

Lemma alternatives_not_viable ks : forall s t,
  existsb (fun key => viable key s) ks = false ->
  alternatives ks (s ++ t) = None.
Proof.
  induction ks as [|key ks IH]; intros s t H; [reflexivity|].
  cbn [existsb] in H. apply orb_false_elim in H as [Hk Hks].
  cbn [alternatives]. rewrite (match_lit_not_viable key s t Hk).
  exact (IH s t Hks).
Qed.

(** Text in which no match can begin is copied. *)
Lemma sub_no_key_start pre : forall t,
  no_key_start pre = true -> sub (pre ++ t) = pre ++ sub t.
Proof.
  induction pre as [|c pre IH]; intros t H; [reflexivity|].
  cbn [no_key_start] in H. apply andb_prop in H as [Hc Hpre].
  apply negb_true_iff in Hc.
  change ((c :: pre) ++ t) with (c :: (pre ++ t)).
  rewrite sub_no_match.
  - rewrite (IH t Hpre). reflexivity.
  - exact (alternatives_not_viable keys (c :: pre) t Hc).
Qed.

Lemma filter_is_sub msg : filter msg = sub msg.
Proof. destruct msg; reflexivity. Qed.


Lemma lstrip_blank_app ws : forall x t,
  blank ws = true -> isspace x = false -> lstrip (ws ++ x :: t) = x :: t.
Proof.
  induction ws as [|w ws IH]; intros x t Hws Hx.
  - cbn [app lstrip]. rewrite Hx. reflexivity.
  - cbn [blank forallb] in Hws. apply andb_prop in Hws as [Hw Hws].
    cbn [app lstrip]. rewrite Hw. exact (IH x t Hws Hx).
Qed.

Lemma is_sep_not_space c : is_sep c = true -> isspace c = false.
Proof.
  unfold is_sep. intro H. apply orb_prop in H as [H | H];
    apply N.eqb_eq in H; subst; reflexivity.
Qed.

Lemma is_value_char_not_space c : is_value_char c = true -> isspace c = false.
Proof.
  unfold is_value_char. intro H. apply negb_true_iff in H.
  destruct (isspace c); [discriminate | reflexivity].
Qed.

Lemma skip_value_app v : forall rest,
  forallb is_value_char v = true -> ends_value rest = true ->
  skip_value (v ++ rest) = rest.
Proof.
  induction v as [|c v IH]; intros rest Hv Hrest.
  - cbn [app]. destruct rest as [|r rest]; [reflexivity|].
    cbn [ends_value] in Hrest. apply negb_true_iff in Hrest.
    cbn [skip_value]. rewrite Hrest. reflexivity.
  - cbn [forallb] in Hv. apply andb_prop in Hv as [Hc Hv].
    cbn [app skip_value]. rewrite Hc. exact (IH rest Hv Hrest).
Qed.

(** Separator and value after a key are consumed whole. *)
Lemma after_key_value ws1 c ws2 v rest :
  blank ws1 = true -> is_sep c = true -> blank ws2 = true ->
  is_value v = true -> ends_value rest = true ->
  after_key (ws1 ++ [c] ++ ws2 ++ v ++ rest) = Some rest.
Proof.
  intros H1 Hc H2 Hv Hrest. unfold is_value in Hv.
  apply andb_prop in Hv as [Hne Hv].
  destruct v as [|v0 v]; [discriminate|].
  cbn [forallb] in Hv. apply andb_prop in Hv as [Hv0 Hv].
  unfold after_key. cbn [app].
  rewrite (lstrip_blank_app ws1 c _ H1 (is_sep_not_space c Hc)), Hc.
  rewrite (lstrip_blank_app ws2 v0 _ H2 (is_value_char_not_space v0 Hv0)), Hv0.
  rewrite (skip_value_app v rest Hv Hrest). reflexivity.
Qed.

Lemma alternatives_at_key k t rest : forall ks key,
  In key keys -> match_lit key k = Some (k, []) ->
  after_key t = Some rest ->
  incl ks keys -> In key ks ->
  alternatives ks (k ++ t) = Some (k, rest).
Proof.
  intros ks key Hkey Hk Hrest.
  destruct (match_lit_whole_fold key k k Hk) as [_ Hfold].
  induction ks as [|key' ks IH]; intros Hincl Hin; [contradiction|].
  assert (In key' keys) as Hkey' by (apply Hincl; left; reflexivity).
  cbn [alternatives].
  destruct (viable key' k) eqn:Ev.
  - rewrite (viable_same_fold key' k key Hfold) in Ev.
    rewrite (keys_distinct key key' Hkey Hkey' Ev).
    rewrite (match_lit_app key k k [] t Hk). cbn [app]. rewrite Hrest.
    reflexivity.
  - rewrite (match_lit_not_viable key' k t Ev).
    apply IH.
    + intros x Hx. apply Hincl. right. exact Hx.
    + destruct Hin as [-> | Hin]; [|exact Hin].
      exfalso. rewrite (viable_same_fold key k key Hfold) in Ev.
      assert (viable key key = true) as Hself.
      { clear. induction key as [|a p IH]; [reflexivity|].
        cbn [viable]. rewrite N.eqb_refl. exact IH. }
      congruence.
Qed.

Lemma match_here_at_key k t rest :
  is_key k = true -> after_key t = Some rest ->
  match_here (k ++ t) = Some (k, rest).
Proof.
  unfold is_key. intros Hk Hrest.
  apply existsb_exists in Hk as (key & Hin & Hm).
  destruct (match_lit key k) as [[m [|r0 r]]|] eqn:E; try discriminate.
  destruct (match_lit_whole_fold key k m E) as [-> _].
  exact (alternatives_at_key k t rest keys key Hin E Hrest
           (incl_refl keys) Hin).
Qed.

End LoggerFacts.

Section BeforeTheKey.
Import PyStr Logger.

Lemma sub_no_match_before pre : forall t,
  no_match_before pre t = true -> sub (pre ++ t) = pre ++ sub t.
Proof.
  induction pre as [|c pre IH]; intros t H; [reflexivity|].
  cbn [no_match_before] in H.
  destruct (match_here ((c :: pre) ++ t)) eqn:E; [discriminate|].
  change ((c :: pre) ++ t) with (c :: (pre ++ t)) in E |- *.
  rewrite (sub_no_match c (pre ++ t) E), (IH t H). reflexivity.
Qed.

(** Text in which no key can begin is text in which no match begins,
    whatever follows. *)
Lemma no_key_start_no_match_before pre : forall t,
  no_key_start pre = true -> no_match_before pre t = true.
Proof.
  induction pre as [|c pre IH]; intros t H; [reflexivity|].
  cbn [no_key_start] in H. apply andb_prop in H as [Hc Hpre].
  apply negb_true_iff in Hc. cbn [no_match_before].
  unfold match_here.
  rewrite (alternatives_not_viable keys (c :: pre) t Hc).
  exact (IH t Hpre).
Qed.

End BeforeTheKey.

(** C9 (as amended).  In a message where one of the six keys of the
    pattern, in any letter case, is followed by optional blanks, a colon
    or equals sign, optional blanks and a value without blank, comma or
    semicolon, and where no match of the pattern begins in the text
    before the key, the filter copies that text, writes the key followed
    by [=<REDACTED>] for key, separator and value, and goes on after the
    value; so two such messages that differ only in the value are
    emitted alike. *)
Theorem secret_value_redacted :
  forall (pre k ws1 ws2 v1 v2 rest : PyStr.str) (c : PyStr.char),
    Logger.no_match_before pre (k ++ ws1 ++ [c] ++ ws2 ++ v1 ++ rest) = true ->
    Logger.no_match_before pre (k ++ ws1 ++ [c] ++ ws2 ++ v2 ++ rest) = true ->
    Logger.is_key k = true ->
    PyStr.blank ws1 = true ->
    Logger.is_sep c = true ->
    PyStr.blank ws2 = true ->
    Logger.is_value v1 = true ->
    Logger.is_value v2 = true ->
    Logger.ends_value rest = true ->
    Logger.filter (pre ++ k ++ ws1 ++ [c] ++ ws2 ++ v1 ++ rest)
    = pre ++ k ++ Logger.redacted ++ Logger.filter rest
    /\ Logger.filter (pre ++ k ++ ws1 ++ [c] ++ ws2 ++ v1 ++ rest)
       = Logger.filter (pre ++ k ++ ws1 ++ [c] ++ ws2 ++ v2 ++ rest).
Proof.
  intros pre k ws1 ws2 v1 v2 rest c Hpre1 Hpre2 Hk H1 Hc H2 Hv1 Hv2 Hrest.
  assert (forall v, Logger.is_value v = true ->
            Logger.no_match_before pre (k ++ ws1 ++ [c] ++ ws2 ++ v ++ rest)
            = true ->
            Logger.filter (pre ++ k ++ ws1 ++ [c] ++ ws2 ++ v ++ rest)
            = pre ++ k ++ Logger.redacted ++ Logger.filter rest) as Hone.
  { intros v Hv Hpre. rewrite !filter_is_sub.
    rewrite (sub_no_match_before pre _ Hpre).
    rewrite (sub_match (k ++ ws1 ++ [c] ++ ws2 ++ v ++ rest) k rest);
      [reflexivity|].
    apply match_here_at_key; [exact Hk|].
    exact (after_key_value ws1 c ws2 v rest H1 Hc H2 Hv Hrest). }
  split; [exact (Hone v1 Hv1 Hpre1)|].
  rewrite (Hone v1 Hv1 Hpre1), (Hone v2 Hv2 Hpre2). reflexivity.
Qed.

Lemma secret_value_redacted_witness :
  Logger.filter
    (PyStr.lit "extra API_APP_KEY missing; API_ACCESS_KEY = s3cr3t, id=1")
  = PyStr.lit "extra API_APP_KEY missing; API_ACCESS_KEY=<REDACTED>, id=1"
  /\ Logger.filter
       (PyStr.lit "extra API_APP_KEY missing; API_ACCESS_KEY = s3cr3t, id=1")
     = Logger.filter
         (PyStr.lit "extra API_APP_KEY missing; API_ACCESS_KEY = hunter2, id=1").
Proof.
  exact (secret_value_redacted
           (PyStr.lit "extra API_APP_KEY missing; ") (PyStr.lit "API_ACCESS_KEY")
           (PyStr.lit " ") (PyStr.lit " ") (PyStr.lit "s3cr3t")
           (PyStr.lit "hunter2") Scenario.line_rest 61%N
           eq_refl eq_refl eq_refl eq_refl eq_refl eq_refl eq_refl eq_refl
           eq_refl).
Defined.

(** C9, as stated, fails: keys of the shapes [X-Api-*] and [API_*] that
    are not among the six of the pattern keep their values, so two
    values give two different log lines. *)
Lemma other_api_keys_not_redacted :
  Logger.filter (PyStr.lit "X-Api-Connect-Id: 4f2c")
  = PyStr.lit "X-Api-Connect-Id: 4f2c"
  /\ Logger.filter (PyStr.lit "API_TOKEN=hunter2")
     = PyStr.lit "API_TOKEN=hunter2"
  /\ Logger.filter (PyStr.lit "X-Api-Connect-Id: 4f2c")
     <> Logger.filter (PyStr.lit "X-Api-Connect-Id: 9a1b").
Proof.
  repeat split; try (vm_compute; reflexivity). vm_compute. discriminate.
Qed.

(** A value stops at the first blank, comma or semicolon. *)
Example value_with_space :
  Logger.filter (PyStr.lit "API_APP_KEY=abc def")
  = PyStr.lit "API_APP_KEY=<REDACTED> def".
Proof. vm_compute. reflexivity. Qed.

(** A key that is itself the value of an earlier match is consumed by
    that match, and what follows it is copied. *)
Example key_inside_earlier_value :
  Logger.filter (PyStr.lit "API_APP_KEY=X-Api-App-Key : s3cr3t")
  = PyStr.lit "API_APP_KEY=<REDACTED> : s3cr3t".
Proof. vm_compute. reflexivity. Qed.

(** Letter case is ignored, and the key is written back as it was. *)
Example key_in_lower_case :
  Logger.filter (PyStr.lit "api_access_key = abc;")
  = PyStr.lit "api_access_key=<REDACTED>;".
Proof. vm_compute. reflexivity. Qed.

(** ** More on the playback FIFO *)

Section PlaybackFacts.
Import Float32 Player.

Variable fade_mul : nat -> nat -> float32 -> float32.
Variable fade_out : float32 -> nat -> nat -> float32.

(** The filling loop takes the first samples of the FIFO, in order, and
    leaves the others. *)
Lemma fill_takes_prefix buf : forall needed out last,
  exists buf' last',
    fill buf needed out last
    = (buf',
       out ++ firstn (Nat.min needed (List.length (List.concat buf)))
                     (List.concat buf),
       last')
    /\ List.concat buf'
       = skipn (Nat.min needed (List.length (List.concat buf)))
               (List.concat buf).
Proof.
  induction buf as [|chunk rest IH]; intros needed out last.
  - exists [], last. cbn. rewrite Nat.min_0_r, app_nil_r. auto.
  - cbn [fill List.concat].
    destruct (Nat.eqb needed 0) eqn:E0.
    + apply Nat.eqb_eq in E0. subst needed.
      exists (chunk :: rest), last. cbn. rewrite app_nil_r. auto.
    + apply Nat.eqb_neq in E0. rewrite length_app.
      destruct (Nat.ltb (Nat.min (List.length chunk) needed) (List.length chunk))
        eqn:E1.
      * apply Nat.ltb_lt in E1.
        assert (Nat.min (List.length chunk) needed = needed) as -> by lia.
        assert (Nat.min needed (List.length chunk + List.length (List.concat rest))
                = needed) as -> by lia.
        rewrite firstn_app, skipn_app.
        replace (needed - List.length chunk)%nat with 0%nat by lia.
        cbn [firstn skipn]. rewrite app_nil_r.
        do 2 eexists. split; reflexivity.
      * apply Nat.ltb_ge in E1.
        assert (Nat.min (List.length chunk) needed = List.length chunk) as ->
          by lia.
        rewrite firstn_all.
        match goal with
        | |- context [fill rest ?n ?o ?l] =>
            destruct (IH n o l) as (buf' & last' & Hf & Hc); rewrite Hf
        end.
        exists buf', last'.
        assert (Nat.min needed (List.length chunk + List.length (List.concat rest))
                = (List.length chunk
                   + Nat.min (needed - List.length chunk)
                       (List.length (List.concat rest)))%nat) as -> by lia.
        rewrite firstn_app, skipn_app, Hc.
        rewrite (firstn_all2 chunk), (skipn_all2 chunk) by lia.
        replace (List.length chunk
                 + Nat.min (needed - List.length chunk)
                     (List.length (List.concat rest)) - List.length chunk)%nat
          with (Nat.min (needed - List.length chunk)
                  (List.length (List.concat rest))) by lia.
        rewrite <- app_assoc. auto.
Qed.

(** X1.  A playback callback writes exactly [frames] samples; the first
    [min(frames, n)] of them, for [n] the samples held by the FIFO, are
    the first samples of the FIFO in order, and the FIFO afterwards holds
    exactly the samples that follow them: none is lost, repeated or
    reordered. *)
Theorem playback_block_conserves_samples p frames :
  let k := Nat.min frames (List.length (List.concat (buffer p))) in
  let r := callback fade_out p frames in
  List.length (snd r) = frames
  /\ firstn k (snd r) = firstn k (List.concat (buffer p))
  /\ List.concat (buffer (fst r)) = skipn k (List.concat (buffer p)).
Proof.
  intros k r. subst r. unfold callback.
  destruct (fill_takes_prefix (buffer p) frames [] (last_sample p))
    as (buf' & last' & Hf & Hc).
  rewrite Hf. fold k in Hf, Hc |- *. cbn [app].
  assert (List.length (firstn k (List.concat (buffer p))) = k) as Hlen
    by (rewrite length_firstn; lia).
  rewrite Hlen.
  destruct (Nat.ltb k frames && Nat.ltb 0 k) eqn:E.
  - apply andb_prop in E as [E1 E2]. apply Nat.ltb_lt in E1.
    cbn [fst snd buffer]. repeat split; [| |exact Hc].
    + rewrite !length_app, Hlen, repeat_length.
      assert (forall n, List.length
                (if is_zero last' then repeat zero n
                 else List.map (fade_out last' n) (seq 0 n)) = n) as Hcurve
        by (intro n; destruct (is_zero last');
            [apply repeat_length | rewrite length_map; apply length_seq]).
      rewrite Hcurve. lia.
    + rewrite firstn_app, Hlen, Nat.sub_diag. cbn [firstn].
      rewrite app_nil_r, firstn_firstn, Nat.min_id. reflexivity.
  - destruct (Nat.eqb k 0) eqn:E0.
    + apply Nat.eqb_eq in E0. cbn [fst snd buffer]. rewrite E0 in *.
      repeat split; [apply repeat_length | exact Hc].
    + apply Nat.eqb_neq in E0. cbn [fst snd buffer].
      apply andb_false_iff in E as [E | E];
        [apply Nat.ltb_ge in E | apply Nat.ltb_ge in E; lia].
      assert (k = frames) as Hk by (subst k; lia).
      repeat split; [lia | | exact Hc].
      rewrite firstn_firstn, Nat.min_id. reflexivity.
Qed.


(** X2.  When the FIFO holds fewer samples than the block needs, the
    callback leaves [last_sample] at zero and every sample of the block
    from 16 places after the last FIFO sample on is zero; with no sample
    at all the block is silence. *)
Theorem playback_underrun_fades_to_silence p frames :
  (List.length (List.concat (buffer p)) < frames)%nat ->
  let r := callback fade_out p frames in
  last_sample (fst r) = zero
  /\ (forall i, (List.length (List.concat (buffer p)) + 16 <= i)%nat ->
        nth i (snd r) zero = zero)
  /\ (List.concat (buffer p) = [] -> snd r = repeat zero frames).
Proof.
  intros Hshort r. subst r. unfold callback.
  destruct (fill_takes_prefix (buffer p) frames [] (last_sample p))
    as (buf' & last' & Hf & Hc).
  rewrite Hf. cbn [app].
  assert (Nat.min frames (List.length (List.concat (buffer p)))
          = List.length (List.concat (buffer p))) as Hk by lia.
  rewrite Hk, firstn_all.
  set (total := List.length (List.concat (buffer p))) in *.
  assert (Nat.ltb total frames = true) as -> by (apply Nat.ltb_lt; lia).
  cbn [andb].
  destruct (Nat.ltb 0 total) eqn:E.
  - apply Nat.ltb_lt in E. cbn [fst snd last_sample].
    repeat split.
    + intros i Hi.
      set (f := Nat.min 16 (frames - total)).
      assert (List.length
                (if is_zero last' then repeat zero f
                 else List.map (fade_out last' f) (seq 0 f)) = f) as Hcurve
        by (destruct (is_zero last');
            [apply repeat_length | rewrite length_map; apply length_seq]).
      rewrite app_nth2 by (fold total; lia).
      rewrite app_nth2 by (rewrite Hcurve; fold total; subst f; lia).
      destruct (nth_in_or_default
                  (i - List.length (List.concat (buffer p))
                   - List.length
                       (if is_zero last' then repeat zero f
                        else List.map (fade_out last' f) (seq 0 f)))
                  (repeat zero (frames - total - f)) zero) as [Hin | Hd];
        [exact (repeat_spec _ _ _ Hin) | exact Hd].
    + intro Hnil. exfalso. unfold total in E. rewrite Hnil in E.
      cbn in E. lia.
  - apply Nat.ltb_ge in E. assert (total = 0%nat) as H0 by lia.
    rewrite H0. cbn [Nat.eqb fst snd last_sample].
    repeat split.
    intros i _.
    destruct (nth_in_or_default i (repeat zero frames) zero) as [Hin | Hd];
      [exact (repeat_spec _ _ _ Hin) | exact Hd].
Qed.

Lemma apply_fade_body pcm :
  List.length (apply_fade fade_mul pcm) = List.length pcm
  /\ ((List.length pcm <= 96)%nat -> apply_fade fade_mul pcm = pcm)
  /\ (forall i,
        (i + Nat.min 96 (List.length pcm / 20) < List.length pcm)%nat ->
        nth i (apply_fade fade_mul pcm) zero = nth i pcm zero).
Proof.
  split; [apply apply_fade_length|]. unfold apply_fade.
  destruct (Nat.ltb 96 (List.length pcm)) eqn:E.
  - apply Nat.ltb_lt in E. split; [lia|]. intros i Hi.
    set (m := (List.length pcm - Nat.min 96 (List.length pcm / 20))%nat).
    rewrite app_nth1 by (rewrite length_firstn; lia).
    rewrite <- (firstn_skipn m pcm) at 2.
    rewrite app_nth1 by (rewrite length_firstn; lia). reflexivity.
  - split; auto.
Qed.

End PlaybackFacts.

Lemma playback_underrun_fades_to_silence_witness :
  snd (Player.callback Scenario.no_fade_out Player.init 480)
  = repeat Float32.zero 480.
Proof.
  apply (playback_underrun_fades_to_silence Scenario.no_fade_out Player.init
           480).
  - cbn. lia.
  - reflexivity.
Defined.

(** X3.  An enqueue stores a frame of as many samples as it was given
    and adds that number to [total_samples]; a vector of at most 96
    samples is stored as it is, and of a longer one only the last
    [min(96, size // 20)] samples are changed. *)
Theorem enqueue_fades_only_the_tail :
  forall (fade_mul : nat -> nat -> Float32.float32 -> Float32.float32)
         (p : Player.SimplePCMPlayer) (pcm : Player.frame),
    let p' := fst (Player.enqueue_float32 fade_mul p pcm) in
    let stored := last (Player.buffer p') [] in
    Player.total_samples p'
    = (Player.total_samples p + List.length pcm)%nat
    /\ List.length stored = List.length pcm
    /\ ((List.length pcm <= 96)%nat -> stored = pcm)
    /\ (forall i,
          (i + Nat.min 96 (List.length pcm / 20) < List.length pcm)%nat ->
          nth i stored Float32.zero = nth i pcm Float32.zero).
Proof.
  intros fade_mul p pcm p' stored.
  assert (stored = Player.apply_fade fade_mul pcm
          /\ Player.total_samples p'
             = (Player.total_samples p
                + List.length (Player.apply_fade fade_mul pcm))%nat)
    as [-> ->].
  { subst stored p'.
    destruct (enqueue_buffer fade_mul p pcm)
      as [[_ ->] | [_ (o & r & _ & ->)]];
      cbn [fst Player.buffer Player.total_samples];
      rewrite last_last; auto. }
  destruct (apply_fade_body fade_mul pcm) as (Hlen & Hshort & Hbody).
  rewrite Hlen. auto.
Qed.

Lemma enqueue_fades_only_the_tail_witness :
  last (Player.buffer
          (fst (Player.enqueue_float32 Scenario.no_fade Player.init
                  [Float32.of_Z 1; Float32.of_Z 2]))) []
  = [Float32.of_Z 1; Float32.of_Z 2].
Proof.
  destruct (enqueue_fades_only_the_tail Scenario.no_fade Player.init
              [Float32.of_Z 1; Float32.of_Z 2]) as (_ & _ & Hshort & _).
  apply Hshort. cbn. lia.
Defined.

(** ** More on the PCM conversion *)

Section PcmRange.
Import Float32 Pcm.

Lemma int16_le_range (lo hi : byte) : -32768 <= int16_le lo hi < 32768.
Proof.
  unfold int16_le, to_int16, byte_val.
  pose proof (Byte.to_N_bounded lo). pose proof (Byte.to_N_bounded hi).
  destruct (Z.ltb_spec (Z.of_N (Byte.to_N lo) + 256 * Z.of_N (Byte.to_N hi))
              32768); lia.
Qed.

Lemma frombuffer_items (b : bytes) : forall zs z,
  frombuffer_int16 b = Some zs -> In z zs ->
  exists lo hi, z = int16_le lo hi.
Proof.
  induction b as [| x | x y l IH] using pair_ind; intros zs z H Hin.
  - injection H as <-. contradiction.
  - discriminate.
  - cbn [frombuffer_int16] in H.
    destruct (frombuffer_int16 l) as [zs'|]; [|discriminate].
    injection H as <-. destruct Hin as [<- | Hin].
    + exists x, y. reflexivity.
    + exact (IH zs' z eq_refl Hin).
Qed.

End PcmRange.

(** X4.  Every sample that [pcm_to_float32] returns is a finite float
    that denotes a rational in [[-1, 1)]. *)
Theorem pcm_samples_in_unit_range :
  forall (pcm_bytes : bytes) (x : Float32.float32),
    In x (fst (Pcm.pcm_to_float32 pcm_bytes)) ->
    exists q, Float32.to_Q x = Some q /\ (- (1) <= q)%Q /\ (q < 1)%Q.
Proof.
  intros b x Hin. unfold Pcm.pcm_to_float32 in Hin.
  destruct (Pcm.frombuffer_int16 b) as [zs|] eqn:E; [|contradiction].
  assert (In x (List.map Pcm.sample_of zs)) as Hx
    by (destruct zs; [contradiction | exact Hin]).
  apply in_map_iff in Hx as (z & <- & Hz).
  destruct (frombuffer_items b zs z E Hz) as (lo & hi & ->).
  pose proof (sample_exact lo hi) as Hexact.
  pose proof (int16_le_range lo hi) as Hrange.
  unfold Float32.denotes in Hexact.
  destruct (Float32.to_Q (Pcm.sample_of (Pcm.int16_le lo hi))) as [q|];
    [|discriminate].
  exists q. split; [reflexivity|].
  apply Qeq_bool_iff in Hexact. rewrite Hexact.
  unfold Qle, Qlt. cbn. lia.
Qed.

Lemma pcm_samples_in_unit_range_witness :
  exists q, Float32.to_Q (S754_finite false 8388608 (-26)) = Some q
            /\ (- (1) <= q)%Q /\ (q < 1)%Q.
Proof.
  apply (pcm_samples_in_unit_range [x00; x10; x00; x20]).
  vm_compute. left. reflexivity.
Defined.

(** X5.  [pcm_to_float32] returns one sample per two bytes and logs
    nothing when the length is even; when the length is odd it returns
    no sample and logs one error. *)
Theorem pcm_length_by_parity :
  forall pcm_bytes : bytes,
    let r := Pcm.pcm_to_float32 pcm_bytes in
    if Nat.even (List.length pcm_bytes)
    then List.length (fst r) = (List.length pcm_bytes / 2)%nat /\ snd r = []
    else fst r = [] /\ snd r = [Log ERROR PcmConversionError].
Proof.
  intros b r. subst r.
  destruct (Nat.even (List.length b)) eqn:E.
  - destruct b as [|x b'] eqn:Eb; [cbn; auto|]. rewrite <- Eb in *.
    destruct (pcm_to_float32_even b) as (pcm & Hpcm & _ & Hlen & _);
      [subst b; cbn; lia | exact E |].
    rewrite Hpcm. auto.
  - rewrite (pcm_to_float32_odd b E). auto.
Qed.

(** ** More on the send queue *)

Section QueueFacts.
Import AsyncQueue.

Lemma put_within (q : SendQueue) x :
  maxsize q = max_queue_size ->
  (List.length (items q) <= max_queue_size)%nat ->
  maxsize (put q x) = max_queue_size
  /\ (List.length (items (put q x)) <= max_queue_size)%nat.
Proof.
  unfold max_queue_size. intros Hmax Hlen. unfold put, full, qsize.
  rewrite Hmax. cbn [Nat.eqb].
  destruct (Nat.leb 300 (List.length (items q))) eqn:E;
    cbn [maxsize items]; split; try reflexivity; try assumption.
  apply Nat.leb_gt in E. rewrite length_app. cbn [List.length]. lia.
Qed.

Lemma get_nowait_within (q q' : SendQueue) x :
  maxsize q = max_queue_size ->
  (List.length (items q) <= max_queue_size)%nat ->
  get_nowait q = Some (x, q') ->
  maxsize q' = max_queue_size
  /\ (List.length (items q') <= max_queue_size)%nat.
Proof.
  unfold max_queue_size. intros Hmax Hlen H. unfold get_nowait in H.
  destruct (items q) as [|y rest] eqn:E; [discriminate|].
  injection H as _ <-. unfold wakeup_next, full, qsize.
  cbn [putters maxsize items]. rewrite Hmax. cbn [Nat.eqb].
  cbn [List.length] in Hlen.
  destruct (putters q) as [|w waiting]; cbn [maxsize items];
    [split; [reflexivity | lia]|].
  destruct (Nat.leb 300 (List.length rest)) eqn:E1; cbn [maxsize items];
    split; try reflexivity; try lia.
  apply Nat.leb_gt in E1. rewrite length_app. cbn [List.length]. lia.
Qed.

Lemma replay_within (pre : list bytes) : forall q : SendQueue,
  maxsize q = max_queue_size ->
  (List.length (items q) <= max_queue_size)%nat ->
  maxsize (Capture.replay q pre) = max_queue_size
  /\ (List.length (items (Capture.replay q pre)) <= max_queue_size)%nat.
Proof.
  induction pre as [|b pre IH]; intros q Hmax Hlen; cbn [Capture.replay].
  - auto.
  - destruct (put_within q (Some b) Hmax Hlen) as [H1 H2].
    exact (IH _ H1 H2).
Qed.

End QueueFacts.

(** X6.  The send queue never holds more than its 300 items: session
    open installs a queue within capacity, and neither a capture
    callback nor a turn of the sender takes it beyond. *)
Theorem send_queue_within_capacity :
  forall (self : Translator),
    Tally.within_capacity self ->
    (forall env, Tally.within_capacity
                   (fst (fst (Session.start_session self env))))
    /\ (forall counter status c,
          Tally.within_capacity
            (fst (fst (Capture.audio_callback self counter status c))))
    /\ (forall loc n env,
          Tally.within_capacity
            (fst (fst (fst (Sender.iteration self loc n env))))).
Proof.
  intros self Hok. unfold Tally.within_capacity in *.
  destruct self as [a oq w i c r s tr os ot p l run].
  cbn [send_queue] in Hok. repeat split.
  - intro env. unfold Session.start_session. cbn [session_active].
    destruct a; [exact Hok|].
    unfold Session.body, Session.handler.
    destruct (Session.config_ok env); cbn [negb]; [|exact Hok].
    destruct (Session.connect (Session.dial env)) as [dialled res].
    destruct res; try exact Hok.
    destruct (Session.send_ok env); cbn [negb]; [|exact Hok].
    destruct (Session.reply env) as [resp|]; [|exact Hok].
    destruct (Receiver.event resp);
      try (destruct (Session.close_ok env); exact Hok).
    cbn. unfold max_queue_size. split; [reflexivity | lia].
  - intros counter status chunk. unfold Capture.audio_callback, Capture.ready.
    cbn [session_active send_queue mic_prebuffer].
    destruct oq as [q|]; [|rewrite andb_false_r; exact I].
    destruct a; cbn [andb negb fst]; [|exact Hok].
    destruct Hok as [Hmax Hlen].
    destruct (replay_within p q Hmax Hlen) as [H1 H2].
    exact (put_within _ (Some chunk) H1 H2).
  - intros loc n env. unfold Sender.iteration. cbn [send_queue].
    destruct oq as [q|]; [|exact I].
    destruct Hok as [Hmax Hlen].
    unfold Sender.wait_for_get.
    destruct (AsyncQueue.get_nowait q) as [[item q']|] eqn:Eg.
    + pose proof (get_nowait_within q q' item Hmax Hlen Eg) as Hq'.
      destruct item as [chunk|]; [|exact Hq'].
      unfold Sender.send_and_pace, Sender.fail.
      cbn [set_send_queue ws_conn].
      destruct (w && Sender.send_ok env);
        [destruct (Float64.ltb Float64.zero _);
         [|destruct (Float64.ltb _ (Float64.opp Sender.max_lag))]|];
        exact Hq'.
    + destruct (Sender.arrival env) as [[chunk|]|];
        unfold Sender.send_and_pace, Sender.fail;
        cbn [set_send_queue ws_conn];
        try (destruct (w && Sender.send_ok env);
             [destruct (Float64.ltb Float64.zero _);
              [|destruct (Float64.ltb _ (Float64.opp Sender.max_lag))]|]);
        cbn [fst send_queue set_session_active Tally.within_capacity]; auto.
Qed.

Lemma send_queue_within_capacity_witness :
  Tally.within_capacity
    (fst (fst (Capture.audio_callback Scenario.idle 0 false
                 (Scenario.chunk_of x02)))).
Proof.
  apply (send_queue_within_capacity Scenario.idle).
  cbn. unfold max_queue_size. split; [reflexivity | lia].
Defined.

(** ** More on the capture callback *)

Section RingFacts.
Import Capture Tally.

Lemma deque_append_lastn (d : list bytes) (x : bytes) :
  (List.length d <= prebuffer_maxlen)%nat ->
  deque_append prebuffer_maxlen d x = lastn prebuffer_maxlen (d ++ [x]).
Proof.
  unfold deque_append, lastn, prebuffer_maxlen. intro Hd. cbn [Nat.eqb].
  rewrite length_app. cbn [List.length].
  destruct (Nat.leb 30 (List.length d)) eqn:E.
  - apply Nat.leb_le in E.
    replace (List.length d + 1 - 30)%nat with 1%nat by lia.
    destruct d; [cbn in E; lia | reflexivity].
  - apply Nat.leb_gt in E.
    replace (List.length d + 1 - 30)%nat with 0%nat by lia. reflexivity.
Qed.

Lemma lastn_length {A} n (l : list A) :
  (List.length (lastn n l) <= n)%nat.
Proof. unfold lastn. rewrite length_skipn. lia. Qed.

Lemma lastn_app_lastn {A} n (a b : list A) :
  lastn n (lastn n a ++ b) = lastn n (a ++ b).
Proof.
  unfold lastn. rewrite !length_app, length_skipn.
  destruct (Nat.le_gt_cases (List.length a) n) as [Hle | Hgt].
  - replace (List.length a - n)%nat with 0%nat by lia.
    cbn [skipn]. rewrite Nat.sub_0_r. reflexivity.
  - replace (List.length a - (List.length a - n) + List.length b - n)%nat
      with (List.length b) by lia.
    replace (List.length a + List.length b - n)%nat
      with (List.length b + (List.length a - n))%nat by lia.
    rewrite <- skipn_skipn.
    rewrite (skipn_app (List.length a - n) a b).
    replace (List.length a - n - List.length a)%nat with 0%nat by lia.
    reflexivity.
Qed.

End RingFacts.

(** X7.  Chunks captured while the session cannot take them, however
    many, leave in the pre-buffer the last 30 of what it held and what
    was captured, in capture order. *)
Theorem prebuffer_keeps_last_thirty :
  forall (cs : list bytes) (self : Translator) (counter : nat),
    Capture.ready self = false ->
    (List.length (mic_prebuffer self) <= 30)%nat ->
    mic_prebuffer (fst (Capture.capture_all self counter cs))
    = Tally.lastn 30 (mic_prebuffer self ++ cs).
Proof.
  induction cs as [|c cs IH]; intros self counter Hready Hlen.
  - cbn [Capture.capture_all fst]. rewrite app_nil_r. unfold Tally.lastn.
    replace (List.length (mic_prebuffer self) - 30)%nat with 0%nat by lia.
    reflexivity.
  - cbn [Capture.capture_all].
    destruct (audio_callback_not_ready self counter false c Hready)
      as (Hpre & Hact & Hq).
    destruct (Capture.audio_callback self counter false c)
      as [[self1 counter1] eff].
    cbn [fst] in Hpre, Hact, Hq.
    rewrite (deque_append_lastn (mic_prebuffer self) c Hlen) in Hpre.
    assert (Capture.ready self1 = false) as Hready1
      by (unfold Capture.ready in *; rewrite Hact, Hq; exact Hready).
    rewrite (IH self1 counter1 Hready1).
    + rewrite Hpre. unfold prebuffer_maxlen.
      rewrite lastn_app_lastn, <- app_assoc. reflexivity.
    + rewrite Hpre. apply lastn_length.
Qed.

Lemma prebuffer_keeps_last_thirty_witness :
  mic_prebuffer
    (fst (Capture.capture_all Scenario.subscribed 0 Scenario.early_chunks))
  = Scenario.early_chunks.
Proof.
  apply (prebuffer_keeps_last_thirty Scenario.early_chunks Scenario.subscribed 0).
  - reflexivity.
  - cbn. lia.
Defined.

(** X8.  A callback on a live session whose queue has room for the
    pre-buffer and the new chunk appends them to the queue in capture
    order, after what the queue held, and empties the pre-buffer. *)
Theorem capture_appends_in_order :
  forall (self : Translator) (counter : nat) (status : bool) (c : bytes)
         (q : SendQueue),
    session_active self = true ->
    send_queue self = Some q ->
    (List.length (AsyncQueue.items q) + List.length (mic_prebuffer self) + 1
     <= AsyncQueue.maxsize q)%nat ->
    let self' := fst (fst (Capture.audio_callback self counter status c)) in
    send_queue self'
    = Some (AsyncQueue.mk (AsyncQueue.maxsize q)
              (AsyncQueue.items q
                 ++ List.map Some (mic_prebuffer self ++ [c]))
              (AsyncQueue.putters q))
    /\ mic_prebuffer self' = [].
Proof.
  intros self counter status c q Hact Hq Hroom self'. subst self'.
  unfold Capture.audio_callback, Capture.ready. rewrite Hact, Hq.
  cbn [andb negb fst].
  rewrite replay_fits by lia.
  rewrite put_not_full
    by (cbn [AsyncQueue.items AsyncQueue.maxsize];
        rewrite length_app, length_map; lia).
  cbn [AsyncQueue.items AsyncQueue.maxsize AsyncQueue.putters].
  rewrite map_app, <- app_assoc. cbn [List.map].
  destruct self; cbn. auto.
Qed.

Lemma capture_appends_in_order_witness :
  send_queue
    (fst (fst (Capture.audio_callback Scenario.idle 0 false
                 (Scenario.chunk_of x02))))
  = Some (AsyncQueue.mk 300 [Some (Scenario.chunk_of x02)] []).
Proof.
  apply (capture_appends_in_order Scenario.idle 0 false (Scenario.chunk_of x02)
           (AsyncQueue.new 300)).
  - reflexivity.
  - reflexivity.
  - cbn. lia.
Defined.

(** ** More on the paced sender *)

Section SenderRuns.
Import Sender.

Lemma sent_items_app (a b : list Effect) :
  sent_items (a ++ b) = sent_items a ++ sent_items b.
Proof.
  induction a as [|e a IH]; [reflexivity|].
  destruct e as [| | |[|d]| | | | | | | |]; cbn [app sent_items];
    rewrite IH; reflexivity.
Qed.

Lemma send_and_pace_counts self loc session_num env item :
  ws_conn self = true -> send_ok env = true ->
  exists loc' eff,
    send_and_pace self loc session_num env item = (self, loc', eff, Looping)
    /\ sent_items eff = [item]
    /\ chunk_count loc' = S (chunk_count loc).
Proof.
  intros Hws Hsend. unfold send_and_pace. rewrite Hws, Hsend. cbn [andb].
  destruct (Float64.ltb Float64.zero _);
    [|destruct (Float64.ltb _ (Float64.opp max_lag))];
    do 2 eexists; repeat split.
Qed.

End SenderRuns.

(** X9.  With the socket up, the sender working through a queue of
    chunks in which nothing waits to be put sends them in queue order,
    one per turn, counts them, and leaves the queue empty. *)
Theorem sender_sends_in_queue_order :
  forall (cs : list bytes) (envs : list Sender.Env) (self : Translator)
         (loc : Sender.Locals) (session_num : nat) (q : SendQueue),
    session_active self = true ->
    ws_conn self = true ->
    send_queue self = Some q ->
    AsyncQueue.items q = List.map Some cs ->
    AsyncQueue.putters q = [] ->
    List.length envs = List.length cs ->
    Tally.all_sent envs = true ->
    let r := Sender.run self loc session_num envs in
    Sender.sent_items (snd r) = cs
    /\ Sender.chunk_count (snd (fst r))
       = (Sender.chunk_count loc + List.length cs)%nat
    /\ send_queue (fst (fst r)) = Some (AsyncQueue.mk (AsyncQueue.maxsize q) [] []).
Proof.
  induction cs as [|c cs IH];
    intros envs self loc n q Hact Hws Hq Hitems Hput Hlen Hsent r; subst r.
  - destruct envs; [|discriminate]. cbn [Sender.run fst snd Sender.sent_items].
    rewrite Nat.add_0_r, Hq. destruct q as [m it pt]. cbn in *. subst.
    auto.
  - destruct envs as [|env envs]; [discriminate|].
    cbn [List.length] in Hlen. injection Hlen as Hlen.
    unfold Tally.all_sent in *. cbn [forallb] in Hsent.
    apply andb_prop in Hsent as [Hok Hsent].
    set (q' := AsyncQueue.mk (AsyncQueue.maxsize q) (List.map Some cs) []).
    assert (AsyncQueue.get_nowait q = Some (Some c, q')) as Hget.
    { unfold AsyncQueue.get_nowait, AsyncQueue.wakeup_next.
      rewrite Hitems. cbn [List.map AsyncQueue.putters]. rewrite Hput.
      reflexivity. }
    cbn [Sender.run]. rewrite Hact. unfold Sender.iteration. rewrite Hq.
    unfold Sender.wait_for_get. rewrite Hget. cbv beta iota.
    pose (self1 := set_send_queue (Some q') self).
    change (set_send_queue (Some q') self) with self1.
    assert (ws_conn self1 = true) as Hws1 by (destruct self; exact Hws).
    assert (session_active self1 = true) as Hact1 by (destruct self; exact Hact).
    assert (send_queue self1 = Some q') as Hq1 by (destruct self; reflexivity).
    destruct (send_and_pace_counts self1 loc n env c Hws1 Hok)
      as (loc1 & eff1 & -> & Hsent1 & Hcount1).
    specialize (IH envs self1 loc1 n q' Hact1 Hws1 Hq1 eq_refl eq_refl Hlen
                  Hsent).
    destruct (Sender.run self1 loc1 n envs) as [[self2 loc2] eff2].
    cbn [fst snd] in IH |- *. destruct IH as (Hs & Hc & Hq2).
    rewrite sent_items_app, Hsent1, Hs, Hc, Hcount1, Hq2.
    cbn [app List.length AsyncQueue.maxsize]. repeat split. lia.
Qed.

Lemma sender_sends_in_queue_order_witness :
  let self :=
    set_send_queue
      (Some (AsyncQueue.mk 300 [Some (Scenario.chunk_of x01);
                                Some (Scenario.chunk_of x02)] []))
      Scenario.idle in
  Sender.sent_items
    (snd (Sender.run self Scenario.sender_at_1000 1
            [Scenario.quiet_turn; Scenario.quiet_turn]))
  = [Scenario.chunk_of x01; Scenario.chunk_of x02].
Proof.
  intro self.
  destruct (sender_sends_in_queue_order
              [Scenario.chunk_of x01; Scenario.chunk_of x02]
              [Scenario.quiet_turn; Scenario.quiet_turn]
              self Scenario.sender_at_1000 1
              (AsyncQueue.mk 300 [Some (Scenario.chunk_of x01);
                                  Some (Scenario.chunk_of x02)] [])
              eq_refl eq_refl eq_refl eq_refl eq_refl eq_refl eq_refl)
    as (H & _ & _).
  exact H.
Defined.



(** ** More on the receiver *)

Section ReceiverTallies.
Import PyStr Receiver Tally.

Variable session_num : nat.

Local Arguments strip : simpl never.
Local Arguments join : simpl never.
Local Arguments lit : simpl never.
Local Arguments contains : simpl never.
Local Arguments Z.pow : simpl never.
Local Arguments Z.min : simpl never.

Lemma on_failed_calls_nothing self msg :
  enqueued (snd (on_failed self session_num msg)) = []
  /\ source_sentences (snd (on_failed self session_num msg)) = []
  /\ translation_sentences (snd (on_failed self session_num msg)) = [].
Proof.
  unfold on_failed.
  destruct (contains _ _ || contains _ _); [|cbn; auto].
  destruct (Nat.leb _ 10); cbn; auto.
Qed.

Lemma cleanup_calls_nothing self :
  enqueued (snd (cleanup self session_num)) = []
  /\ source_sentences (snd (cleanup self session_num)) = []
  /\ translation_sentences (snd (cleanup self session_num)) = [].
Proof. unfold cleanup. destruct (ws_conn self); cbn; auto. Qed.

(** What one response can add to the tallies. *)
Lemma step_tally self loc r :
  let res := step self loc session_num r in
  let loc' := snd (fst (fst res)) in
  let eff := snd (fst res) in
  sentence_count loc' = (sentence_count loc + List.length (enqueued eff))%nat
  /\ (List.length (enqueued eff) + seq_open loc'
      <= (if is_sentence_start (event r) then 1 else 0) + seq_open loc)%nat
  /\ (List.length (source_sentences eff)
      <= (if is_source_end (event r) then 1 else 0))%nat
  /\ (List.length (translation_sentences eff)
      <= (if is_translation_end (event r) then 1 else 0))%nat.
Proof.
  destruct r as [e sq msg dat txt muted], loc as [cs cd cnt].
  unfold seq_open.
  destruct e;
    cbn [step event Message Sequence data text current_seq current_data
         sentence_count is_sentence_start is_source_end is_translation_end];
    try (cbn; repeat split; lia).
  - pose proof (on_failed_calls_nothing self msg) as (H1 & H2 & H3).
    destruct (on_failed self session_num msg) as [self' eff].
    cbn [fst snd] in *. rewrite H1, H2, H3. cbn. repeat split; lia.
  - pose proof (on_failed_calls_nothing self msg) as (H1 & H2 & H3).
    destruct (on_failed self session_num msg) as [self' eff].
    cbn [fst snd] in *. rewrite H1, H2, H3. cbn. repeat split; lia.
  - destruct cs; [destruct (nonempty dat)|]; cbn; repeat split; lia.
  - destruct cs; [|cbn; repeat split; lia].
    destruct (nonempty cd); [|cbn; repeat split; lia].
    pose proof (pcm_logs_only cd) as (H1 & H2 & H3).
    destruct (Pcm.pcm_to_float32 cd) as [pcm logged]. cbn [snd] in *.
    destruct (nonempty pcm); cbn [fst snd sentence_count current_seq];
      rewrite ?enqueued_app, ?source_sentences_app, ?translation_sentences_app,
        ?H1, ?H2, ?H3; cbn; repeat split; lia.
  - destruct (truthy txt && truthy (strip txt)); cbn; repeat split; lia.
  - destruct (nonempty (source_text_buffer self));
      [destruct (on_source_sentence self)|]; cbn; repeat split; lia.
  - destruct (truthy txt && truthy (strip txt)); cbn; repeat split; lia.
  - destruct (nonempty (translation_text_buffer self));
      [destruct (on_translation_sentence self)|]; cbn; repeat split; lia.
Qed.


(** X12.  Over any input, the receiver's sentence counter grows by
    exactly the number of playback enqueues, and there is at most one
    enqueue per [TTSSentenceStart] received (one more if a sentence was
    already open). *)
Theorem enqueues_counted_and_bounded (incoming : list Incoming) :
  forall self loc,
    let res := run self loc session_num incoming in
    let loc' := snd (fst (fst res)) in
    let eff := snd (fst res) in
    sentence_count loc'
    = (sentence_count loc + List.length (enqueued eff))%nat
    /\ (List.length (enqueued eff) + seq_open loc'
        <= count_event is_sentence_start incoming + seq_open loc)%nat.
Proof.
  induction incoming as [|i incoming IH]; intros self loc.
  - cbn. lia.
  - destruct i as [r|]; cbn [run count_event].
    + pose proof (step_tally self loc r) as (Hc & Hb & _ & _).
      destruct (step self loc session_num r) as [[[self1 loc1] eff1] ctl].
      cbn [fst snd] in Hc, Hb.
      destruct ctl.
      * specialize (IH self1 loc1).
        destruct (run self1 loc1 session_num incoming)
          as [[[self2 loc2] eff2] st].
        cbn [fst snd] in IH |- *. destruct IH as [IHc IHb].
        rewrite enqueued_app, length_app. lia.
      * pose proof (cleanup_calls_nothing self1) as (H1 & _ & _).
        destruct (cleanup self1 session_num) as [self2 eff2].
        cbn [fst snd] in H1 |- *.
        rewrite enqueued_app, length_app, H1. cbn [List.length]. lia.
    + pose proof (cleanup_calls_nothing self) as (H1 & _ & _).
      destruct (cleanup self session_num) as [self2 eff2].
      cbn [fst snd enqueued] in H1 |- *. rewrite H1. cbn [List.length]. lia.
Qed.

(** X13.  Over any input, [on_source_sentence] is called at most once
    per [SourceSubtitleEnd] received and [on_translation_sentence] at
    most once per [TranslationSubtitleEnd]. *)
Theorem one_callback_per_subtitle_end (incoming : list Incoming) :
  forall self loc,
    let eff := snd (fst (run self loc session_num incoming)) in
    (List.length (source_sentences eff)
     <= count_event is_source_end incoming)%nat
    /\ (List.length (translation_sentences eff)
        <= count_event is_translation_end incoming)%nat.
Proof.
  induction incoming as [|i incoming IH]; intros self loc.
  - cbn. lia.
  - destruct i as [r|]; cbn [run count_event].
    + pose proof (step_tally self loc r) as (_ & _ & Hs & Ht).
      destruct (step self loc session_num r) as [[[self1 loc1] eff1] ctl].
      cbn [fst snd] in Hs, Ht.
      destruct ctl.
      * specialize (IH self1 loc1).
        destruct (run self1 loc1 session_num incoming)
          as [[[self2 loc2] eff2] st].
        cbn [fst snd] in IH |- *. destruct IH as [IHs IHt].
        rewrite source_sentences_app, translation_sentences_app, !length_app.
        lia.
      * pose proof (cleanup_calls_nothing self1) as (_ & H2 & H3).
        destruct (cleanup self1 session_num) as [self2 eff2].
        cbn [fst snd] in H2, H3 |- *.
        rewrite source_sentences_app, translation_sentences_app, !length_app,
          H2, H3.
        cbn [List.length]. lia.
    + pose proof (cleanup_calls_nothing self) as (_ & H2 & H3).
      destruct (cleanup self session_num) as [self2 eff2].
      cbn [fst snd source_sentences translation_sentences] in H2, H3 |- *.
      rewrite H2, H3. cbn [List.length]. lia.
Qed.

(** X14.  However the receiver ends (a terminal event, a failed read or
    parse), it leaves the session inactive, without socket, session id
    or send queue, and has cancelled the tasks; and nothing that arrives
    after the end is looked at. *)
Theorem receiver_end_resets_session (incoming : list Incoming) :
  forall self loc self' loc' eff,
    run self loc session_num incoming = (self', loc', eff, Ended) ->
    (session_active self' = false
     /\ ws_conn self' = false
     /\ session_id self' = None
     /\ send_queue self' = None
     /\ In CancelTasks eff)
    /\ forall later,
         run self loc session_num (incoming ++ later)
         = (self', loc', eff, Ended).
Proof.
  intros self loc self' loc' eff Hrun. split.
  - revert self loc self' loc' eff Hrun.
    assert (forall s s2 e2, cleanup s session_num = (s2, e2) ->
              session_active s2 = false /\ ws_conn s2 = false
              /\ session_id s2 = None /\ send_queue s2 = None
              /\ In CancelTasks e2) as Hclean.
    { intros s s2 e2 H. unfold cleanup, drain_queue in H.
      injection H as <- <-.
      repeat split;
        try (destruct s as [a [q|] w i c r s0 tr os ot p l run0]; reflexivity).
      right. apply in_or_app. right. left. reflexivity. }
    induction incoming as [|i incoming IH];
      intros self loc self' loc' eff Hrun; [discriminate|].
    destruct i as [r|]; cbn [run] in Hrun.
    + destruct (step self loc session_num r) as [[[self1 loc1] eff1] ctl].
      destruct ctl.
      * destruct (run self1 loc1 session_num incoming)
          as [[[self2 loc2] eff2] st] eqn:E.
        injection Hrun as <- <- <- ->.
        destruct (IH self1 loc1 self2 loc2 eff2 E) as (H1 & H2 & H3 & H4 & H5).
        repeat split; auto. apply in_or_app. right. exact H5.
      * destruct (cleanup self1 session_num) as [self2 eff2] eqn:E.
        injection Hrun as <- <- <-.
        destruct (Hclean self1 self2 eff2 E) as (H1 & H2 & H3 & H4 & H5).
        repeat split; auto. apply in_or_app. right. exact H5.
    + destruct (cleanup self session_num) as [self2 eff2] eqn:E.
      injection Hrun as <- <- <-.
      destruct (Hclean self self2 eff2 E) as (H1 & H2 & H3 & H4 & H5).
      repeat split; auto. right. exact H5.
  - intro later. rewrite run_app, Hrun. reflexivity.
Qed.

End ReceiverTallies.

Lemma receiver_end_resets_session_witness :
  let r := Receiver.run Scenario.idle Receiver.init_locals 1
             [Receiver.ev Receiver.SessionFinished] in
  session_active (fst (fst (fst r))) = false
  /\ send_queue (fst (fst (fst r))) = None
  /\ Receiver.run Scenario.idle Receiver.init_locals 1
       ([Receiver.ev Receiver.SessionFinished] ++ [Receiver.tts_start 7])
     = r.
Proof.
  intro r.
  destruct (receiver_end_resets_session 1
              [Receiver.ev Receiver.SessionFinished]
              Scenario.idle Receiver.init_locals
              (fst (fst (fst r))) (snd (fst (fst r))) (snd (fst r)))
    as ((H1 & _ & _ & H4 & _) & Hlater).
  - vm_compute. reflexivity.
  - split; [exact H1|]. split; [exact H4|].
    rewrite (Hlater [Receiver.tts_start 7]). vm_compute. reflexivity.
Defined.

(** X15.  When a session fails or is cancelled, the receiver sleeps only
    for a slow-audio message and an attempt count of at most 10, and
    then for [min(2^attempts, 32)] seconds, which is between 2 and 32;
    any other message leaves the translator as it was. *)
Theorem reconnect_delay_bounded :
  forall (self : Translator) (session_num : nat) (msg : PyStr.str),
    let r := Receiver.on_failed self session_num msg in
    (forall d, In d (Session.sleeps (snd r)) ->
       (inject_Z 2 <= d)%Q /\ (d <= inject_Z 32)%Q)
    /\ (Tally.slow_audio msg = false ->
        fst r = self /\ Session.sleeps (snd r) = [])
    /\ (Tally.slow_audio msg = true ->
        session_active (fst r) = false
        /\ reconnect_attempts (fst r) = S (reconnect_attempts self)
        /\ Session.sleeps (snd r)
           = if Nat.leb (S (reconnect_attempts self)) 10
             then [inject_Z (Z.min (2 ^ Z.of_nat (S (reconnect_attempts self)))
                                   32)]
             else []).
Proof.
  intros self n msg r. subst r. unfold Receiver.on_failed, Tally.slow_audio.
  destruct (PyStr.contains (PyStr.lit "AudioSendSlow") msg
            || PyStr.contains (PyStr.lit "audio not enough") msg).
  - assert (reconnect_attempts
              (Receiver.drain_queue (set_session_active false self))
            = reconnect_attempts self) as ->
      by (destruct self as [a [q|] w i c r s0 tr os ot p l run0]; reflexivity).
    set (k := S (reconnect_attempts self)).
    unfold reconnect_delay, max_reconnect_delay. rewrite Z.mul_1_l.
    assert (2 <= 2 ^ Z.of_nat k) as Hpow.
    { subst k. rewrite Nat2Z.inj_succ, Z.pow_succ_r by lia.
      pose proof (Z.pow_pos_nonneg 2 (Z.of_nat (reconnect_attempts self))).
      lia. }
    destruct (Nat.leb k 10).
    + cbn [fst snd app Session.sleeps]. repeat split; try discriminate.
      * destruct H as [<- | []]. rewrite <- Zle_Qle. lia.
      * destruct H as [<- | []]. rewrite <- Zle_Qle. lia.
      * destruct self as [a [q|] w i c r s0 tr os ot p l run0]; reflexivity.
      * destruct self as [a [q|] w i c r s0 tr os ot p l run0]; reflexivity.
    + cbn [fst snd app Session.sleeps]. repeat split; try discriminate;
        try contradiction;
        destruct self as [a [q|] w i c r s0 tr os ot p l run0]; reflexivity.
  - cbn [fst snd Session.sleeps]. repeat split; try discriminate;
      contradiction.
Qed.

Lemma reconnect_delay_bounded_witness :
  Session.sleeps
    (snd (Receiver.on_failed Scenario.idle 1 (PyStr.lit "AudioSendSlow")))
  = [inject_Z 2].
Proof.
  apply (reconnect_delay_bounded Scenario.idle 1 (PyStr.lit "AudioSendSlow")).
  reflexivity.
Defined.

(** ** More on session open *)

Lemma dials_app (a b : list Effect) :
  Session.dials (a ++ b) = Session.dials a ++ Session.dials b.
Proof.
  induction a as [|e a IH]; [reflexivity|].
  destruct e; cbn [app Session.dials]; rewrite IH; reflexivity.
Qed.

Lemma sleeps_app (a b : list Effect) :
  Session.sleeps (a ++ b) = Session.sleeps a ++ Session.sleeps b.
Proof.
  induction a as [|e a IH]; [reflexivity|].
  destruct e; cbn [app Session.sleeps]; rewrite IH; reflexivity.
Qed.

Lemma spawns_app (a b : list Effect) :
  Tally.spawns (a ++ b) = (Tally.spawns a + Tally.spawns b)%nat.
Proof.
  induction a as [|e a IH]; [reflexivity|].
  destruct e; cbn [app Tally.spawns]; rewrite IH; reflexivity.
Qed.

(** The retry loop: one to three dials, a sleep of 2 s and then of 4 s
    between them. *)
Lemma connect_shape (dial : nat -> Session.DialOutcome) :
  let eff := fst (Session.connect dial) in
  (1 <= List.length (Session.dials eff) <= 3)%nat
  /\ Forall (fun d => d = (20, 20)) (Session.dials eff)
  /\ Session.sleeps eff
     = firstn (List.length (Session.dials eff) - 1) [inject_Z 2; inject_Z 4]
  /\ Tally.spawns eff = 0%nat.
Proof.
  unfold Session.connect.
  cbn [Session.connect_loop Session.max_connect_attempts Nat.ltb Nat.leb].
  destruct (dial 0%nat); [cbn; repeat split; auto; lia| |];
    (destruct (dial 1%nat); [cbn; repeat split; auto; lia| |]);
    destruct (dial 2%nat); cbn; repeat split; auto; lia.
Qed.

(** Only the retry loop dials and sleeps; only a started session spawns. *)
Lemma body_tally (self : Translator) (env : Session.Env) :
  let eff := snd (fst (Session.body self env)) in
  Session.dials eff
  = (if Session.config_ok env
     then Session.dials (fst (Session.connect (Session.dial env))) else [])
  /\ Session.sleeps eff
     = (if Session.config_ok env
        then Session.sleeps (fst (Session.connect (Session.dial env))) else [])
  /\ Tally.spawns eff = (if Session.opens env then 1 else 0)%nat.
Proof.
  unfold Session.body, Session.opens.
  destruct (Session.config_ok env); cbn [negb andb]; [|cbn; auto].
  pose proof (connect_shape (Session.dial env)) as (_ & _ & _ & Hsp).
  destruct (Session.connect (Session.dial env)) as [dialled r].
  cbn [fst snd] in *.
  destruct r; cbn [fst snd andb]; auto.
  destruct (Session.send_ok env); cbn [negb andb fst snd].
  - destruct (Session.reply env) as [resp|].
    + destruct (Receiver.event resp); try destruct (Session.close_ok env);
        cbn [fst snd];
        rewrite !dials_app, !sleeps_app, !spawns_app, Hsp; cbn;
        rewrite ?app_nil_r; auto.
    + cbn [fst snd].
      rewrite !dials_app, !sleeps_app, !spawns_app, Hsp; cbn;
        rewrite ?app_nil_r; auto.
  - rewrite !dials_app, !sleeps_app, !spawns_app, Hsp; cbn;
      rewrite ?app_nil_r; auto.
Qed.

Lemma handler_tally (self : Translator) :
  let eff := snd (Session.handler self) in
  Session.dials eff = [] /\ Session.sleeps eff = [] /\ Tally.spawns eff = 0%nat.
Proof. unfold Session.handler. destruct (ws_conn self); cbn; auto. Qed.

Lemma start_session_tally (self : Translator) (env : Session.Env) :
  let eff := snd (fst (Session.start_session self env)) in
  session_active self = false ->
  Session.dials eff
  = (if Session.config_ok env
     then Session.dials (fst (Session.connect (Session.dial env))) else [])
  /\ Session.sleeps eff
     = (if Session.config_ok env
        then Session.sleeps (fst (Session.connect (Session.dial env))) else [])
  /\ Tally.spawns eff = (if Session.opens env then 1 else 0)%nat.
Proof.
  intros eff Hact. subst eff. unfold Session.start_session. rewrite Hact.
  pose proof (body_tally (set_session_active true self) env) as Hb.
  destruct (Session.body (set_session_active true self) env)
    as [[self1 eff1] r].
  cbn [fst snd] in Hb. destruct r; [exact Hb|].
  pose proof (handler_tally self1) as (Hd & Hs & Hp).
  destruct (Session.handler self1) as [self2 eff2]. cbn [fst snd] in *.
  rewrite dials_app, sleeps_app, spawns_app, Hd, Hs, Hp, !app_nil_r.
  rewrite Nat.add_0_r. exact Hb.
Qed.

(** X16.  Whatever the outside does, one session open dials at most
    three times, each dial with the 20-second timeouts, and sleeps 2 s
    after the first failed dial and 4 s after the second, never more. *)
Theorem session_open_dials_at_most_thrice :
  forall (self : Translator) (env : Session.Env),
    let eff := snd (fst (Session.start_session self env)) in
    (List.length (Session.dials eff) <= 3)%nat
    /\ Forall (fun d => d = (20, 20)) (Session.dials eff)
    /\ Session.sleeps eff
       = firstn (List.length (Session.dials eff) - 1) [inject_Z 2; inject_Z 4].
Proof.
  intros self env eff. subst eff.
  destruct (session_active self) eqn:Hact.
  - unfold Session.start_session. rewrite Hact.
    destruct (session_lock self); cbn; auto.
  - destruct (start_session_tally self env Hact) as (Hd & Hs & _).
    rewrite Hd, Hs.
    destruct (Session.config_ok env); [|cbn; auto].
    destruct (connect_shape (Session.dial env)) as (Hn & Hall & Hsl & _).
    repeat split; auto. lia.
Qed.





(** While a session is active every open returns at once. *)
Lemma opens_while_active (envs : list Session.Env) (self : Translator) :
  session_active self = true ->
  Tally.spawns (snd (Tally.open_all self envs)) = 0%nat
  /\ fst (Tally.open_all self envs) = self.
Proof.
  induction envs as [|env rest IH]; intros Hact; [cbn; auto|].
  cbn [Tally.open_all]. unfold Session.start_session. rewrite Hact.
  destruct (IH Hact) as (Hs & Hf).
  destruct (Tally.open_all self rest) as [self2 eff2]. cbn [fst snd] in *.
  rewrite spawns_app, Hs. destruct (session_lock self); cbn; auto.
Qed.

(** X18.  Session opens one after the other, whatever each of them
    meets outside, start the tasks at most once, and not at all when a
    session is already active: the first open that succeeds makes every
    later one return at once. *)
Theorem repeated_opens_spawn_once :
  forall (envs : list Session.Env) (self : Translator),
    (Tally.spawns (snd (Tally.open_all self envs))
     <= (if session_active self then 0 else 1))%nat.
Proof.
  induction envs as [|env rest IH]; intros self;
    [destruct (session_active self); cbn; lia|].
  destruct (session_active self) eqn:Hact;
    [destruct (opens_while_active (env :: rest) self Hact) as (-> & _); lia|].
  cbn [Tally.open_all].
  pose proof (start_session_tally self env Hact) as (_ & _ & Hsp).
  pose proof (start_session_opens self env Hact) as Hopens.
  destruct (Session.start_session self env) as [[self1 eff1] r1].
  cbn [fst snd] in *.
  destruct (Session.opens env) eqn:Ho.
  - destruct (Hopens eq_refl) as (Hact1 & _).
    destruct (opens_while_active rest self1 Hact1) as (Hs & _).
    destruct (Tally.open_all self1 rest) as [self2 eff2]. cbn [fst snd] in *.
    rewrite spawns_app, Hsp, Hs. lia.
  - specialize (IH self1).
    destruct (Tally.open_all self1 rest) as [self2 eff2]. cbn [fst snd] in *.
    rewrite spawns_app, Hsp.
    destruct (session_active self1); lia.
Qed.

(** ** More on the watchdog *)

Lemma connect_no_alarm (dial : nat -> Session.DialOutcome) :
  existsb Tally.is_watchdog_alarm (fst (Session.connect dial)) = false.
Proof.
  unfold Session.connect.
  cbn [Session.connect_loop Session.max_connect_attempts Nat.ltb Nat.leb].
  destruct (dial 0%nat); [reflexivity| |];
    (destruct (dial 1%nat); [reflexivity| |]);
    destruct (dial 2%nat); reflexivity.
Qed.

Lemma start_session_no_alarm (self : Translator) (env : Session.Env) :
  existsb Tally.is_watchdog_alarm (snd (fst (Session.start_session self env)))
  = false.
Proof.
  unfold Session.start_session.
  destruct (session_active self);
    [destruct (session_lock self); reflexivity|].
  unfold Session.body, Session.handler.
  destruct self as [a q w i c rc s tr os ot p l run0].
  destruct (Session.config_ok env); cbn [negb];
    [|destruct w; reflexivity].
  pose proof (connect_no_alarm (Session.dial env)) as Hc.
  destruct (Session.connect (Session.dial env)) as [dialled r].
  cbn [fst] in Hc.
  destruct r;
    [|cbn; rewrite ?existsb_app, Hc; destruct w; reflexivity ..].
  destruct (Session.send_ok env); cbn [negb];
    [|cbn; rewrite ?existsb_app, Hc; reflexivity].
  destruct (Session.reply env) as [resp|];
    [|cbn; rewrite ?existsb_app, Hc; reflexivity].
  destruct (Receiver.event resp); try destruct (Session.close_ok env);
    cbn; rewrite ?existsb_app, Hc; reflexivity.
Qed.

(** X19.  However many turns the watchdog makes and whatever the
    session opens meet, its counters stay at backoff 1 and failures 0,
    and it never warns of a failed reconnect, never reports the pause
    and never sleeps the 60 seconds. *)
Theorem watchdog_never_backs_off :
  forall (turns : list (Session.Env * (Translator -> Translator)))
         (self : Translator),
    let r := Watchdog.run self Watchdog.init_locals turns in
    snd (fst r) = Watchdog.init_locals
    /\ existsb Tally.is_watchdog_alarm (snd r) = false.
Proof.
  induction turns as [|[env world] turns IH]; intro self;
    cbn [Watchdog.run]; [auto|].
  destruct (running self); [|auto].
  assert (snd (fst (Watchdog.iteration self Watchdog.init_locals env))
          = Watchdog.init_locals
          /\ existsb Tally.is_watchdog_alarm
               (snd (Watchdog.iteration self Watchdog.init_locals env))
             = false) as [Hloc Heff].
  { unfold Watchdog.iteration.
    destruct (session_active self); cbn [negb]; [split; reflexivity|].
    cbn [Nat.leb Watchdog.max_consecutive_failures
         Watchdog.consecutive_failures Watchdog.init_locals].
    pose proof (start_session_returns self env) as Hr.
    pose proof (start_session_no_alarm self env) as Ha.
    destruct (Session.start_session self env) as [[self' eff] r].
    cbn [fst snd] in Hr, Ha. subst r. cbn [fst snd].
    split; [reflexivity|].
    cbn. exact Ha. }
  destruct (Watchdog.iteration self Watchdog.init_locals env)
    as [[self1 loc1] eff1].
  cbn [fst snd] in Hloc, Heff. subst loc1.
  destruct (IH (world self1)) as [Hloc2 Heff2].
  destruct (Watchdog.run (world self1) Watchdog.init_locals turns)
    as [[self2 loc2] eff2].
  cbn [fst snd] in *. rewrite existsb_app, Heff, Heff2. auto.
Qed.

(** ** Stopping *)

Lemma drain_loop_empties (fuel : nat) : forall (q : SendQueue),
  AsyncQueue.putters q = [] ->
  (List.length (AsyncQueue.items q) <= fuel)%nat ->
  AsyncQueue.drain_loop fuel q = AsyncQueue.mk (AsyncQueue.maxsize q) [] [].
Proof.
  induction fuel as [|fuel IH]; intros [m its ps] Hp Hlen; cbn in Hp; subst ps.
  - destruct its; [reflexivity|cbn in Hlen; lia].
  - cbn [AsyncQueue.drain_loop].
    unfold AsyncQueue.get_nowait, AsyncQueue.wakeup_next.
    cbn [AsyncQueue.items AsyncQueue.putters AsyncQueue.maxsize].
    destruct its as [|x rest]; [reflexivity|].
    rewrite (IH (AsyncQueue.mk m rest [])); [reflexivity|reflexivity|].
    cbn in *. lia.
Qed.

(** X20.  [stop] lowers the running flag, empties a send queue in which
    no put is parked and clears the playback FIFO; it leaves the session
    flag as it was, and from then on the watchdog makes no turn. *)
Theorem stop_empties_queue_and_fifo :
  forall (self : Translator) (player : Player.SimplePCMPlayer)
         (q : SendQueue),
    send_queue self = Some q ->
    Tally.settled q = true ->
    let r := Lifecycle.stop self player in
    running (fst (fst r)) = false
    /\ send_queue (fst (fst r))
       = Some (AsyncQueue.mk (AsyncQueue.maxsize q) [] [])
    /\ Player.buffer (snd (fst r)) = []
    /\ Player.last_sample (snd (fst r)) = Player.last_sample player
    /\ session_active (fst (fst r)) = session_active self
    /\ mic_prebuffer (fst (fst r)) = mic_prebuffer self
    /\ forall loc turns,
         Watchdog.run (fst (fst r)) loc turns = (fst (fst r), loc, []).
Proof.
  intros self player q Hq Hset r. subst r.
  destruct self as [a sq w i c rc s tr os ot p l run0].
  cbn in Hq. subst sq.
  unfold Tally.settled in Hset.
  destruct (AsyncQueue.putters q) eqn:Hp; [|discriminate].
  unfold Lifecycle.stop, Receiver.drain_queue.
  cbn [Lifecycle.set_running send_queue set_send_queue fst snd running
       session_active mic_prebuffer Player.buffer Player.last_sample].
  unfold AsyncQueue.drain. rewrite Hp. cbn [List.length].
  rewrite drain_loop_empties by (auto; lia).
  repeat split.
  intros loc turns. destruct turns as [|[env world] turns]; reflexivity.
Qed.

Lemma stop_empties_queue_and_fifo_witness :
  let r := Lifecycle.stop Scenario.congested Player.init in
  running (fst (fst r)) = false
  /\ send_queue (fst (fst r)) = Some (AsyncQueue.mk 300 [] [])
  /\ session_active (fst (fst r)) = true.
Proof.
  destruct (stop_empties_queue_and_fifo Scenario.congested Player.init
              Scenario.full_queue eq_refl eq_refl)
    as (Hrun & Hq & _ & _ & Hact & _).
  split; [exact Hrun | split; [exact Hq | exact Hact]].
Defined.

(** ** The subscriber *)

Section ManagerFacts.
Import Manager.

Lemma deque_append_bounded {A} (n : nat) (d : list A) (x : A) :
  (List.length d <= n)%nat ->
  (List.length (Capture.deque_append n d x) <= n)%nat.
Proof.
  intro Hd. unfold Capture.deque_append.
  destruct (Nat.eqb n 0) eqn:E0; [cbn; lia|].
  apply Nat.eqb_neq in E0.
  destruct (Nat.leb n (List.length d)) eqn:E.
  - apply Nat.leb_le in E. rewrite length_app. cbn [List.length].
    destruct d; cbn in *; lia.
  - apply Nat.leb_gt in E. rewrite length_app. cbn [List.length]. lia.
Qed.

Lemma deque_append_last {A} (n : nat) (d : list A) (x : A) :
  n <> 0%nat ->
  exists kept, Capture.deque_append n d x = kept ++ [x]
               /\ (kept = d \/ kept = tl d).
Proof.
  intro Hn. unfold Capture.deque_append.
  apply Nat.eqb_neq in Hn. rewrite Hn.
  destruct (Nat.leb n (List.length d)); eexists; split; eauto.
Qed.

Lemma deliver_one_bounded (st : State) (e : Effect) :
  (List.length (last_pairs st) <= 30)%nat ->
  (List.length (last_pairs (deliver_one st e)) <= 30)%nat.
Proof.
  intro H. destruct e; cbn [deliver_one]; try exact H;
    cbn [on_src on_tgt last_pairs]; apply deque_append_bounded; exact H.
Qed.

Lemma deliver_bounded (effects : list Effect) : forall st,
  (List.length (last_pairs st) <= 30)%nat ->
  (List.length (last_pairs (deliver effects st)) <= 30)%nat.
Proof.
  unfold deliver.
  induction effects as [|e effects IH]; intros st H; cbn [fold_left];
    [exact H|].
  apply IH. apply deliver_one_bounded. exact H.
Qed.

Lemma deliver_app (a b : list Effect) (st : State) :
  deliver (a ++ b) st = deliver b (deliver a st).
Proof. unfold deliver. apply fold_left_app. Qed.

End ManagerFacts.

(** X21.  Whatever the receiver has delivered before, a source sentence
    followed by its translation leaves in the history, of at most 30
    pairs, the pair of the two as its last entry and before it the
    source sentence paired with the translation of the sentence before
    (the empty text when there was none); the caches hold the two
    texts. *)
Theorem sentence_recorded_twice :
  forall (effects : list Effect) (s t : PyStr.str),
    let before := Manager.deliver effects Manager.init in
    let after :=
      Manager.deliver
        (effects ++ [OnSourceSentence s; OnTranslationSentence t])
        Manager.init in
    (List.length (Manager.last_pairs after) <= 30)%nat
    /\ Tally.lastn 2 (Manager.last_pairs after)
       = [(s, Manager.or_empty (Manager.tgt_cache before)); (s, t)]
    /\ Manager.src_cache after = Some s
    /\ Manager.tgt_cache after = Some t.
Proof.
  intros effects s t before after. subst after.
  rewrite deliver_app. fold before.
  assert (List.length (Manager.last_pairs before) <= 30)%nat as Hb
      by (apply deliver_bounded; cbn; lia).
  clearbody before. destruct before as [sc tc lp w]. cbn in Hb.
  unfold Manager.deliver.
  cbn [fold_left Manager.deliver_one Manager.on_src Manager.on_tgt
       Manager.src_cache Manager.tgt_cache Manager.last_pairs
       Manager.subtitle_window Manager.or_empty Manager.append_line].
  split; [do 2 apply deque_append_bounded; exact Hb|].
  split; [|auto].
  destruct (deque_append_last 30 lp (s, Manager.or_empty tc)) as (k1 & E1 & _);
    [discriminate|].
  rewrite E1.
  unfold Capture.deque_append at 1. cbn [Nat.eqb].
  assert (forall (k : list (PyStr.str * PyStr.str)) a b,
            Tally.lastn 2 (k ++ [a; b]) = [a; b]) as Hlast.
  { intros k a b. unfold Tally.lastn. rewrite length_app. cbn [List.length].
    replace (List.length k + 2 - 2)%nat with (List.length k + 0)%nat by lia.
    rewrite skipn_app, Nat.add_0_r, skipn_all.
    replace (List.length k - List.length k)%nat with 0%nat by lia.
    reflexivity. }
  destruct (Nat.leb 30 (List.length (k1 ++ [(s, Manager.or_empty tc)])))
    eqn:E.
  - destruct k1 as [|p k1]; cbn [tl app].
    + cbn in E. discriminate.
    + rewrite <- app_assoc. apply Hlast.
  - rewrite <- app_assoc. apply Hlast.
Qed.

(** ** More on the log filter *)

Section SeparatorFacts.
Import PyStr Logger.

Lemma lstrip_suffix (s : str) : exists ws, s = ws ++ lstrip s.
Proof.
  induction s as [|c t [ws IH]]; [exists []; reflexivity|].
  cbn [lstrip]. destruct (isspace c).
  - exists (c :: ws). cbn [app]. rewrite <- IH. reflexivity.
  - exists []. reflexivity.
Qed.

Lemma after_key_has_sep (s rest : str) :
  after_key s = Some rest -> Tally.has_sep s = true.
Proof.
  unfold after_key, Tally.has_sep. intro H.
  destruct (lstrip_suffix s) as [ws Hs].
  destruct (lstrip s) as [|c s1]; [discriminate|].
  destruct (is_sep c) eqn:Ec; [|discriminate].
  rewrite Hs, existsb_app. cbn [existsb]. rewrite Ec.
  apply orb_true_r.
Qed.

Lemma alternatives_has_sep (ks : list str) : forall s g1 rest,
  alternatives ks s = Some (g1, rest) -> Tally.has_sep s = true.
Proof.
  induction ks as [|key ks IH]; intros s g1 rest H; cbn [alternatives] in H;
    [discriminate|].
  destruct (match_lit key s) as [[m s1]|] eqn:Em; [|exact (IH _ _ _ H)].
  destruct (after_key s1) as [r|] eqn:Ea; [|exact (IH _ _ _ H)].
  apply match_lit_split in Em as [Hs _].
  apply after_key_has_sep in Ea.
  unfold Tally.has_sep in *. rewrite Hs, existsb_app, Ea.
  apply orb_true_r.
Qed.

End SeparatorFacts.

(** X22.  A message that holds neither a colon nor an equals sign
    leaves the filter as it came, whichever key names it mentions. *)
Theorem message_without_separator_unchanged :
  forall (msg : PyStr.str),
    Tally.has_sep msg = false -> Logger.filter msg = msg.
Proof.
  intros msg H. rewrite filter_is_sub. unfold Logger.sub.
  generalize (List.length msg) as fuel. revert H.
  induction msg as [|c t IH]; intros H fuel;
    destruct fuel as [|fuel]; try reflexivity.
  cbn [Logger.sub_loop].
  destruct (Logger.match_here (c :: t)) as [[g1 rest]|] eqn:E.
  - apply alternatives_has_sep in E. congruence.
  - unfold Tally.has_sep in H. cbn [existsb] in H.
    apply orb_false_elim in H as [_ Ht].
    rewrite (IH Ht fuel). reflexivity.
Qed.

Lemma message_without_separator_unchanged_witness :
  Logger.filter (PyStr.lit "API_APP_KEY missing, X-Api-App-Key unset")
  = PyStr.lit "API_APP_KEY missing, X-Api-App-Key unset".
Proof.
  apply (message_without_separator_unchanged
           (PyStr.lit "API_APP_KEY missing, X-Api-App-Key unset")).
  vm_compute. reflexivity.
Defined.

(** ** Configuration *)

Section ConfigFacts.
Import Config.

Lemma str_eqb_eq (a b : PyStr.str) : str_eqb a b = true <-> a = b.
Proof.
  unfold str_eqb. destruct (list_eq_dec N.eq_dec a b); split; intro H;
    congruence.
Qed.

Lemma supported_iff (lang : PyStr.str) :
  supported lang = true <-> lang = PyStr.lit "zh" \/ lang = PyStr.lit "en".
Proof.
  unfold supported. rewrite orb_true_iff, !str_eqb_eq. reflexivity.
Qed.

End ConfigFacts.

(** X23.  [validate] accepts a configuration exactly when both keys are
    non-empty and the language pair is zh to en or en to zh. *)
Theorem validate_accepts_two_pairs :
  forall (c : Config.Config),
    Config.validate c = Config.Valid
    <-> (PyStr.truthy (Config.app_key c) = true
         /\ PyStr.truthy (Config.access_key c) = true
         /\ ((Config.source_language c = PyStr.lit "zh"
              /\ Config.target_language c = PyStr.lit "en")
             \/ (Config.source_language c = PyStr.lit "en"
                 /\ Config.target_language c = PyStr.lit "zh"))).
Proof.
  intros [ak sk src tgt]. unfold Config.validate.
  cbn [Config.app_key Config.access_key Config.source_language
       Config.target_language].
  destruct (PyStr.truthy ak), (PyStr.truthy sk); cbn [negb orb];
    try (split; [discriminate | intros (? & ? & _); discriminate]).
  destruct (Config.str_eqb src tgt) eqn:Eeq.
  - apply str_eqb_eq in Eeq. subst tgt.
    split; [discriminate|].
    intros (_ & _ & [[-> H] | [-> H]]); discriminate.
  - assert (src <> tgt) as Hne
        by (intro Hst; apply str_eqb_eq in Hst; congruence).
    destruct (Config.supported src) eqn:Es; cbn [negb].
    + destruct (Config.supported tgt) eqn:Et; cbn [negb].
      * apply supported_iff in Es, Et.
        split; [intros _|reflexivity].
        repeat split.
        destruct Es as [-> | ->], Et as [-> | ->]; auto; contradiction.
      * split; [discriminate|].
        intros (_ & _ & [[_ ->] | [_ ->]]); discriminate.
    + split; [discriminate|].
      intros (_ & _ & [[-> _] | [-> _]]); discriminate.
Qed.

Lemma validate_accepts_two_pairs_witness :
  Config.validate
    (Config.mk (PyStr.lit "id") (PyStr.lit "token") (PyStr.lit "en")
               (PyStr.lit "zh"))
  = Config.Valid.
Proof.
  apply (proj2 (validate_accepts_two_pairs
                  (Config.mk (PyStr.lit "id") (PyStr.lit "token")
                             (PyStr.lit "en") (PyStr.lit "zh")))).
  repeat split. right. split; reflexivity.
Defined.
